(** * Critters: critical-CSS inlining (src/index.js)

    A shallow embedding of the [Critters] class of [src/index.js]:
    [embedLinkedStylesheet], [processStyle] and [process], over a store
    model of the DOM and an inductive model of the stylesheet AST.

    The modules [./dom] and [./css] that [index.js] requires are not part
    of the sources; their operations are modelled from the specification
    (DOM capability interface, rule walker) or taken as parameters of a
    provider (selector engine, CSS parser and serialiser). *)

From Stdlib Require Import Ascii String NArith.
From stdpp Require Import base option list strings gmap.

Open Scope string_scope.

(** ** JavaScript strings

    Strings are sequences of code units below 256; the regular
    expressions of [index.js] are written out as recursive matchers that
    follow the backtracking order of the JavaScript engine. *)

Module JsString.

Definition code (c : ascii) : N := N_of_ascii c.

Definition in_range (lo hi : N) (c : ascii) : bool :=
  ((lo <=? code c) && (code c <=? hi))%N.

(** [\s]: tab, line feed, vertical tab, form feed, carriage return,
    space and no-break space. *)
Definition is_space (c : ascii) : bool :=
  in_range 9 13 c || (code c =? 32)%N || (code c =? 160)%N.

(** Line terminators, which [.] does not match. *)
Definition is_line_terminator (c : ascii) : bool :=
  (code c =? 10)%N || (code c =? 13)%N.

Definition is_lower (c : ascii) : bool := in_range 97 122 c.
Definition is_upper (c : ascii) : bool := in_range 65 90 c.
Definition is_digit (c : ascii) : bool := in_range 48 57 c.

(** [\w] *)
Definition is_word (c : ascii) : bool :=
  is_lower c || is_upper c || is_digit c || (code c =? 95)%N.

Definition to_lower (c : ascii) : ascii :=
  if is_upper c then ascii_of_N (code c + 32) else c.

Fixpoint skip_space (s : string) : string :=
  match s with
  | String c s' => if is_space c then skip_space s' else s
  | EmptyString => EmptyString
  end.

Fixpoint rev_string (acc s : string) : string :=
  match s with
  | String c s' => rev_string (String c acc) s'
  | EmptyString => acc
  end.

(** [String.prototype.trim] *)
Definition trim (s : string) : string :=
  rev_string "" (skip_space (rev_string "" (skip_space s))).

(** [s.startsWith(p)], returning what follows the prefix. *)
Fixpoint strip_prefix (p s : string) : option string :=
  match p, s with
  | EmptyString, _ => Some s
  | String a p', String b s' =>
      if Ascii.eqb a b then strip_prefix p' s' else None
  | String _ _, EmptyString => None
  end.

Definition starts_with (p s : string) : bool :=
  match strip_prefix p s with Some _ => true | None => false end.

(** [s.indexOf(p) !== -1] *)
Fixpoint includes (p s : string) : bool :=
  starts_with p s ||
  match s with
  | String _ s' => includes p s'
  | EmptyString => false
  end.

(** [s.replace(p, r)] for a string pattern [p] and a replacement without
    dollar patterns: the first occurrence only. *)
Fixpoint replace_first (p r s : string) : string :=
  match strip_prefix p s with
  | Some rest => r ++ rest
  | None =>
      match s with
      | String c s' => String c (replace_first p r s')
      | EmptyString => EmptyString
      end
  end.

(** [xs.join(sep)]; [undefined] and [null] entries print as the empty
    string. *)
Fixpoint join (sep : string) (xs : list (option string)) : string :=
  match xs with
  | [] => ""
  | [x] => default "" x
  | x :: rest => default "" x ++ sep ++ join sep rest
  end.

Definition hex_digit (n : N) : ascii :=
  if (n <? 10)%N then ascii_of_N (48 + n) else ascii_of_N (87 + n).

Definition dquote : string := String (ascii_of_N 34) "".

Definition json_escape (c : ascii) : string :=
  let n := code c in
  if (n =? 34)%N then "\" ++ dquote
  else if (n =? 92)%N then "\\"
  else if (n =? 8)%N then "\b"
  else if (n =? 9)%N then "\t"
  else if (n =? 10)%N then "\n"
  else if (n =? 12)%N then "\f"
  else if (n =? 13)%N then "\r"
  else if (n <? 32)%N then
    "\u00" ++ String (hex_digit (n / 16)) (String (hex_digit (n mod 16)) "")
  else String c "".

Fixpoint json_body (s : string) : string :=
  match s with
  | String c s' => json_escape c ++ json_body s'
  | EmptyString => ""
  end.

(** [JSON.stringify(v)] for [v] a string or [null]. *)
Definition json_stringify (v : option string) : string :=
  match v with
  | Some s => dquote ++ json_body s ++ dquote
  | None => "null"
  end.

(** Truthiness of a string-or-undefined value. *)
Definition truthy (v : option string) : bool :=
  match v with
  | Some (String _ _) => true
  | _ => false
  end.

(** [v || d] *)
Definition or_else (v : option string) (d : string) : string :=
  match v with
  | Some (String c s) => String c s
  | _ => d
  end.

(** The values that reach a text node: a string, [undefined] ([null]
    is not told apart from it: [join] prints both as the empty string),
    or the member of [Object.prototype] that a plain object inherits
    under [name]. *)
Inductive js_value :=
| Str (s : string)
| Undefined
| Inherited (name : string).

(** The property names of [Object.prototype]. *)
Definition prototype_names : list string :=
  ["constructor"; "__defineGetter__"; "__defineSetter__"; "hasOwnProperty";
   "__lookupGetter__"; "__lookupSetter__"; "isPrototypeOf"; "propertyIsEnumerable";
   "toString"; "valueOf"; "__proto__"; "toLocaleString"].

Definition inherited (name : string) : bool :=
  existsb (String.eqb name) prototype_names.

(** [object[key]] on a plain object whose own properties are the entries
    of [object]: the own value, else the member of [Object.prototype] of
    that name, else [undefined]. *)
Definition read_property (object : gmap string string) (key : string) : js_value :=
  match object !! key with
  | Some s => Str s
  | None => if inherited key then Inherited key else Undefined
  end.

(** [String(v)] for a member of [Object.prototype], as Node.js prints
    it: [__proto__] reads the prototype object, [constructor] the
    function [Object], every other name a built-in function of that
    name. *)
Definition prototype_text (name : string) : string :=
  if String.eqb name "__proto__" then "[object Object]"
  else if String.eqb name "constructor" then "function Object() { [native code] }"
  else "function " ++ name ++ "() { [native code] }".

(** The entry of a value in [join]. *)
Definition joined (v : js_value) : option string :=
  match v with
  | Str s => Some s
  | Undefined => None
  | Inherited name => Some (prototype_text name)
  end.

End JsString.

(** ** The regular expressions of index.js *)

Module Regex.
Import JsString.

(** *** [/^(https?:)?\/\//] (line 121) *)
Definition network_url (href : string) : bool :=
  starts_with "https://" href || starts_with "http://" href
  || starts_with "//" href.

(** *** [/:\/\//] (line 273) *)
Definition has_scheme (src : string) : bool := includes "://" src.

(** *** [/::?(?:[a-z-]+)([.[#~&^:*]|\s|\n|$)/gi] (line 222) *)

(** [[a-z-]] under the [i] flag. *)
Definition is_name_char (c : ascii) : bool :=
  is_lower c || is_upper c || (code c =? 45)%N.

(** [[.[#~&^:*]] *)
Definition is_delimiter (c : ascii) : bool :=
  let n := code c in
  ((n =? 46) || (n =? 91) || (n =? 35) || (n =? 126) || (n =? 38)
   || (n =? 94) || (n =? 58) || (n =? 42))%N.

(** The capture group at the current position: one delimiter or blank,
    or the end of the input. Result: code units consumed and the text
    captured. *)
Definition pseudo_tail (s : string) : option (nat * string) :=
  match s with
  | EmptyString => Some (0, "")
  | String c _ =>
      if is_delimiter c || is_space c then Some (1, String c "") else None
  end.

Definition bump (r : option (nat * string)) : option (nat * string) :=
  match r with
  | Some (n, g) => Some (S n, g)
  | None => None
  end.

(** [[a-z-]+] (greedy, giving back on failure) followed by the group. *)
Fixpoint pseudo_name (s : string) : option (nat * string) :=
  match s with
  | String c s' =>
      if is_name_char c then
        match pseudo_name s' with
        | Some r => bump (Some r)
        | None => bump (pseudo_tail s')
        end
      else None
  | EmptyString => None
  end.

(** The whole pattern anchored at the head of [s]: length of the match
    and the captured group. *)
Definition pseudo_at (s : string) : option (nat * string) :=
  match s with
  | String ":" s1 =>
      let two :=
        match s1 with
        | String ":" s2 => bump (bump (pseudo_name s2))
        | _ => None
        end in
      match two with
      | Some r => Some r
      | None => bump (pseudo_name s1)
      end
  | _ => None
  end.

(** The global replacement by ["$1"]: [skip] counts the code units of
    the current match that are still to be dropped. *)
Fixpoint replace_pseudo (skip : nat) (s : string) : string :=
  match s with
  | EmptyString => EmptyString
  | String c s' =>
      match skip with
      | S k => replace_pseudo k s'
      | O =>
          match pseudo_at s with
          | Some (len, g) => g ++ replace_pseudo (pred len) s'
          | None => String c (replace_pseudo 0 s')
          end
      end
  end.

(** [sel.replace(/::?(?:[a-z-]+)([.[#~&^:*]|\s|\n|$)/gi, "$1")] *)
Definition strip_pseudo (sel : string) : string := replace_pseudo 0 sel.

(** *** [/\bfont\b/i] (line 233) *)

Fixpoint starts_with_ci (p s : string) : option string :=
  match p, s with
  | EmptyString, _ => Some s
  | String a p', String b s' =>
      if Ascii.eqb a (to_lower b) then starts_with_ci p' s' else None
  | String _ _, EmptyString => None
  end.

Definition word_end (s : string) : bool :=
  match s with
  | EmptyString => true
  | String c _ => negb (is_word c)
  end.

(** [prev_word]: whether the code unit before the head of [s] is a word
    character. *)
Fixpoint font_word (prev_word : bool) (s : string) : bool :=
  match s with
  | EmptyString => false
  | String c s' =>
      (negb prev_word &&
       match starts_with_ci "font" s with
       | Some rest => word_end rest
       | None => false
       end)
      || font_word (is_word c) s'
  end.

(** [property.match(/\bfont\b/i)] is not [null]. *)
Definition is_font_property (property : string) : bool :=
  font_word false property.

(** *** The [url(...)] pattern of line 262:
    [url], blanks, an opening parenthesis, blanks, an optional single or
    double quote (group 1), a lazy non-empty run (group 2), group 1
    again, blanks, a closing parenthesis. *)

(** [\1\s*\)] *)
Definition url_close (q s : string) : bool :=
  match strip_prefix q s with
  | Some s' =>
      match skip_space s' with
      | String ")" _ => true
      | _ => false
      end
  | None => false
  end.

(** [(.+?)\1\s*\)]: the shortest non-empty run that can be closed. *)
Fixpoint url_body (q s : string) : option string :=
  match s with
  | EmptyString => None
  | String c s' =>
      if is_line_terminator c then None
      else if url_close q s' then Some (String c "")
      else option_map (String c) (url_body q s')
  end.

Definition is_quote (c : ascii) : bool :=
  (code c =? 39)%N || (code c =? 34)%N.

(** Groups 1 and 2 and the closing part: the quote is tried first, then
    no quote. *)
Definition url_quoted (s : string) : option string :=
  match s with
  | String c s' =>
      if is_quote c then
        match url_body (String c "") s' with
        | Some r => Some r
        | None => url_body "" s
        end
      else url_body "" s
  | EmptyString => None
  end.

(** The blanks before group 1 are taken greedily and given back one at a
    time. *)
Fixpoint url_arg (s : string) : option string :=
  match s with
  | String c s' =>
      if is_space c then
        match url_arg s' with
        | Some r => Some r
        | None => url_quoted s
        end
      else url_quoted s
  | EmptyString => None
  end.

Definition url_at (s : string) : option string :=
  match strip_prefix "url" s with
  | Some s1 =>
      match skip_space s1 with
      | String "(" s2 => url_arg s2
      | _ => None
      end
  | None => None
  end.

(** [(decl.value.match(...) || [])[2]]: the second group of the leftmost
    match, or [undefined]. *)
Fixpoint url_src (value : string) : option string :=
  match url_at value with
  | Some r => Some r
  | None =>
      match value with
      | String _ s' => url_src s'
      | EmptyString => None
      end
  end.

End Regex.


(** ** Errors and the state monad

    A JavaScript exception ends the computation; inside an [async]
    method it rejects the promise the method returns. *)

Inductive error :=
| TypeError       (* property access on null or undefined *)
| SyntaxError     (* raised by the selector engine *)
| NotFoundError   (* DOM: the reference node is not a child *)
| ParseError.     (* raised by the CSS parser *)

Inductive result (A : Type) :=
| Ok (a : A)
| Throw (e : error).

Arguments Ok {A} a.
Arguments Throw {A} e.

Definition St (S A : Type) : Type := S -> result (A * S).

Definition ret {S A} (a : A) : St S A := fun s => Ok (a, s).

Definition bind {S A B} (m : St S A) (k : A -> St S B) : St S B :=
  fun s =>
    match m s with
    | Ok (a, s') => k a s'
    | Throw e => Throw e
    end.

Definition throw {S A} (e : error) : St S A := fun _ => Throw e.

Definition get {S} : St S S := fun s => Ok (s, s).

Definition put {S} (s : S) : St S unit := fun _ => Ok (tt, s).

(** A computation that may throw but has no effect on the state. *)
Definition pure_of {S A} (r : result A) : St S A :=
  fun s =>
    match r with
    | Ok a => Ok (a, s)
    | Throw e => Throw e
    end.

Declare Scope js_scope.
Delimit Scope js_scope with js.
Notation "'let*' x ':=' m 'in' k" := (bind m (fun x => k))
  (at level 10, x pattern, m at level 100, k at level 200) : js_scope.
Notation "m ';;' k" := (bind m (fun _ => k))
  (at level 100, k at level 200, right associativity) : js_scope.
Open Scope js_scope.

(** [for (const x of xs) body(x)] *)
Fixpoint for_each {S A} (body : A -> St S unit) (xs : list A) : St S unit :=
  match xs with
  | [] => ret tt
  | x :: rest => body x ;; for_each body rest
  end.

(** [xs.filter(p)] for a callback with effects. *)
Fixpoint filter_st {S A} (p : A -> St S bool) (xs : list A) : St S (list A) :=
  match xs with
  | [] => ret []
  | x :: rest =>
      let* b := p x in
      let* rest' := filter_st p rest in
      ret (if b then x :: rest' else rest')
  end.

(** ** The DOM store

    Modelled from the spec: the document and node types of the DOM
    provider ([./dom]), a mutable tree of element, text and comment
    nodes. Nodes live in a store indexed by their identity; a reference
    held by the program ([link], [style], [head]) is an index, so two
    references to one node see the same mutations. Element attributes
    are an association list with unique keys, in insertion order. *)

Module Dom.
Import JsString.

Definition node_id := nat.

(** Modelled from the spec: the node variants of the DOM provider. A
    text node holds the value it was created from, which need not be a
    string. *)
Inductive node_kind :=
| Element (tagName : string) (attributes : list (string * string))
          (childNodes : list node_id)
| Text (data : js_value)
| Comment (text : string).

(** Modelled from the spec: a node of the DOM provider with its parent.
    [sourceName] is the expando property [$$name] of line 140. *)
Record node := Node {
  kind : node_kind;
  parentNode : option node_id;
  sourceName : option string
}.

(** Modelled from the spec: the document of the DOM provider. [root] is
    the document node; it is stored with the tag [#document]. *)
Record document := Document {
  nodes : list node;
  root : node_id
}.

Definition M (A : Type) : Type := St document A.

Fixpoint attr_get (name : string) (attrs : list (string * string)) : option string :=
  match attrs with
  | [] => None
  | (k, v) :: rest => if String.eqb k name then Some v else attr_get name rest
  end.

Fixpoint attr_set (name value : string) (attrs : list (string * string))
  : list (string * string) :=
  match attrs with
  | [] => [(name, value)]
  | (k, v) :: rest =>
      if String.eqb k name then (k, value) :: rest
      else (k, v) :: attr_set name value rest
  end.

Fixpoint attr_remove (name : string) (attrs : list (string * string))
  : list (string * string) :=
  match attrs with
  | [] => []
  | (k, v) :: rest =>
      if String.eqb k name then attr_remove name rest
      else (k, v) :: attr_remove name rest
  end.

(** The sibling that follows [i] in a child list. *)
Fixpoint next_in (i : node_id) (cs : list node_id) : option node_id :=
  match cs with
  | [] => None
  | c :: rest => if Nat.eqb c i then head rest else next_in i rest
  end.

(** [cs] with [x] put before the first occurrence of [r]. *)
Fixpoint insert_before (x r : node_id) (cs : list node_id) : list node_id :=
  match cs with
  | [] => []
  | c :: rest =>
      if Nat.eqb c r then x :: c :: rest else c :: insert_before x r rest
  end.

Definition without (i : node_id) (cs : list node_id) : list node_id :=
  List.filter (fun c => negb (Nat.eqb c i)) cs.

Definition is_child (i : node_id) (cs : list node_id) : bool :=
  existsb (Nat.eqb i) cs.

(** Dereferences a node; an index outside the store is not a value the
    program can hold and is reported as a [TypeError]. *)
Definition node_at (i : node_id) : M node :=
  fun d =>
    match nodes d !! i with
    | Some n => Ok (n, d)
    | None => Throw TypeError
    end.

Definition set_node (i : node_id) (n : node) : M unit :=
  fun d => Ok (tt, Document (<[i := n]> (nodes d)) (root d)).

Definition alloc (k : node_kind) : M node_id :=
  fun d => Ok (length (nodes d), Document (nodes d ++ [Node k None None]) (root d)).

Definition set_kind (i : node_id) (k : node_kind) : M unit :=
  let* n := node_at i in
  set_node i (Node k (parentNode n) (sourceName n)).

Definition set_parent (i : node_id) (p : option node_id) : M unit :=
  let* n := node_at i in
  set_node i (Node (kind n) p (sourceName n)).

(** [node.$$name = name] *)
Definition set_sourceName (i : node_id) (name : option string) : M unit :=
  let* n := node_at i in
  set_node i (Node (kind n) (parentNode n) name).

(** Modelled from the spec: [document.createElement] of the DOM provider
    ([./dom]); a fresh element without attributes, children or parent. *)
Definition createElement (tag : string) : M node_id :=
  alloc (Element tag [] []).

(** Modelled from the spec: [document.createTextNode] of the DOM
    provider; the node keeps the value it is given. *)
Definition createTextNode (value : js_value) : M node_id :=
  alloc (Text value).

(** Modelled from the spec: attribute get of the DOM provider; [null]
    when the attribute is absent. *)
Definition getAttribute (i : node_id) (name : string) : M (option string) :=
  let* n := node_at i in
  match kind n with
  | Element _ attrs _ => ret (attr_get name attrs)
  | _ => throw TypeError
  end.

(** Modelled from the spec: attribute set of the DOM provider; keys are
    unique and keep their position. *)
Definition setAttribute (i : node_id) (name value : string) : M unit :=
  let* n := node_at i in
  match kind n with
  | Element tag attrs cs => set_kind i (Element tag (attr_set name value attrs) cs)
  | _ => throw TypeError
  end.

(** Modelled from the spec: attribute removal of the DOM provider. *)
Definition removeAttribute (i : node_id) (name : string) : M unit :=
  let* n := node_at i in
  match kind n with
  | Element tag attrs cs => set_kind i (Element tag (attr_remove name attrs) cs)
  | _ => throw TypeError
  end.

(** Modelled from the spec: [node.parentNode] of the DOM provider. *)
Definition get_parentNode (i : node_id) : M (option node_id) :=
  let* n := node_at i in
  ret (parentNode n).

(** Modelled from the spec: [node.childNodes] of the DOM provider, an
    array; empty for text and comment nodes. *)
Definition get_childNodes (i : node_id) : M (list node_id) :=
  let* n := node_at i in
  match kind n with
  | Element _ _ cs => ret cs
  | _ => ret []
  end.

(** Modelled from the spec: [node.nodeValue] of the DOM provider, the
    value of a text node, the text of a comment node, [null] for an
    element. *)
Definition get_nodeValue (i : node_id) : M js_value :=
  let* n := node_at i in
  match kind n with
  | Element _ _ _ => ret Undefined
  | Text v => ret v
  | Comment c => ret (Str c)
  end.

(** Modelled from the spec: [node.nextSibling] of the DOM provider. *)
Definition get_nextSibling (i : node_id) : M (option node_id) :=
  let* p := get_parentNode i in
  match p with
  | None => ret None
  | Some p =>
      let* cs := get_childNodes p in
      ret (next_in i cs)
  end.

(** Modelled from the spec: [node.lastChild] of the DOM provider. *)
Definition get_lastChild (i : node_id) : M (option node_id) :=
  let* cs := get_childNodes i in
  ret (last cs).

(** Modelled from the spec: a node is owned by one parent; before it is
    inserted somewhere it leaves the child list it is in. *)
Definition detach (i : node_id) : M unit :=
  let* p := get_parentNode i in
  match p with
  | None => ret tt
  | Some p =>
      let* pn := node_at p in
      match kind pn with
      | Element tag attrs cs =>
          set_kind p (Element tag attrs (without i cs)) ;;
          set_parent i None
      | _ => set_parent i None
      end
  end.

(** Modelled from the spec: [appendChild] of the DOM provider; the child
    becomes the last child of [p], owned by [p] alone. *)
Definition appendChild (p child : node_id) : M unit :=
  detach child ;;
  let* pn := node_at p in
  match kind pn with
  | Element tag attrs cs =>
      set_kind p (Element tag attrs (cs ++ [child])) ;;
      set_parent child (Some p)
  | _ => throw TypeError
  end.

(** Modelled from the spec: [insertBefore] of the DOM provider; with a
    [null] reference it appends, with a reference that is not a child of
    [p] it raises. *)
Definition insertBefore (p child : node_id) (ref : option node_id) : M unit :=
  match ref with
  | None => appendChild p child
  | Some r =>
      detach child ;;
      let* pn := node_at p in
      match kind pn with
      | Element tag attrs cs =>
          if is_child r cs then
            set_kind p (Element tag attrs (insert_before child r cs)) ;;
            set_parent child (Some p)
          else throw NotFoundError
      | _ => throw TypeError
      end
  end.

(** Modelled from the spec: [removeChild] of the DOM provider. *)
Definition removeChild (p child : node_id) : M unit :=
  let* pn := node_at p in
  match kind pn with
  | Element tag attrs cs =>
      if is_child child cs then
        set_kind p (Element tag attrs (without child cs)) ;;
        set_parent child None
      else throw NotFoundError
  | _ => throw TypeError
  end.

(** Modelled from the spec: the nodes below [i] in document order, as
    the queries of the DOM provider visit them. The depth explored is
    bounded by [fuel]; the number of stored nodes bounds the depth of a
    tree. *)
Fixpoint descendants (fuel : nat) (ns : list node) (i : node_id) : list node_id :=
  match fuel with
  | O => []
  | S f =>
      match ns !! i with
      | Some (Node (Element _ _ cs) _ _) =>
          flat_map (fun c => c :: descendants f ns c) cs
      | _ => []
      end
  end.

Definition all_nodes (d : document) : list node_id :=
  descendants (length (nodes d)) (nodes d) (root d).

Definition has_tag (d : document) (tag : string) (i : node_id) : bool :=
  match nodes d !! i with
  | Some (Node (Element t _ _) _ _) => String.eqb t tag
  | _ => false
  end.

Definition has_attr (d : document) (name value : string) (i : node_id) : bool :=
  match nodes d !! i with
  | Some (Node (Element _ attrs _) _ _) =>
      match attr_get name attrs with
      | Some v => String.eqb v value
      | None => false
      end
  | _ => false
  end.

(** Modelled from the spec: [document.querySelectorAll(tag)] of the DOM
    provider for a type selector, in document order. *)
Definition elements_by_tag (tag : string) (d : document) : list node_id :=
  List.filter (has_tag d tag) (all_nodes d).

(** Modelled from the spec: [document.querySelectorAll] of the DOM
    provider for the selector of line 93, a [link] element whose [rel]
    attribute is [stylesheet]. *)
Definition stylesheet_links (d : document) : list node_id :=
  List.filter (fun i => has_tag d "link" i && has_attr d "rel" "stylesheet" i)
    (all_nodes d).

(** Modelled from the spec: [document.querySelector(tag)], the first
    match or nothing. *)
Definition first_by_tag (tag : string) (d : document) : option node_id :=
  head (elements_by_tag tag d).

(** Modelled from the spec: [document.body] of the DOM provider, the
    first [body] element. *)
Definition body (d : document) : option node_id := first_by_tag "body" d.

End Dom.

(** ** The stylesheet AST

    Modelled from the spec: the AST of the CSS provider ([./css]), as
    far as [index.js] reads it. *)

Module Css.

(** Modelled from the spec: a declaration is a property and a value. *)
Record declaration := Declaration {
  property : string;
  value : string
}.

(** Modelled from the spec: the rule kinds [index.js] tells apart, a
    style rule ([type === "rule"]), a font-face rule
    ([type === "font-face"]), a rule that carries nested [rules], and
    every other node, which has neither selectors nor [rules]. A rule
    without declarations has the empty list. *)
#[warnings="-register-all"]
Inductive rule :=
| StyleRule (selectors : list string) (declarations : list declaration)
| FontFaceRule (declarations : list declaration)
| ContainerRule (header : string) (rules : list rule)
| OtherRule (text : string).

Definition stylesheet := list rule.

Section walker.
Context {S : Type}.

(** The iterator may rewrite the rule it is given (the source assigns to
    [rule.selectors]); it answers [false] to have the rule removed. *)
Variable iterator : rule -> St S (bool * rule).

(** Modelled from the spec: the rule is handed to the iterator and kept
    unless the answer is [false]. *)
Definition visit (r : rule) : St S (option rule) :=
  let* (keep, r') := iterator r in
  ret (if keep then Some r' else None).

Definition cons_kept (o : option rule) (rs : list rule) : list rule :=
  match o with
  | Some r => r :: rs
  | None => rs
  end.

(** Modelled from the spec: [walkStyleRules] of the CSS provider
    ([./css]). One top-to-bottom pass over the rules; a rule with nested
    rules has its children walked first, then the rule itself is handed
    to the iterator; a rule for which the iterator answers [false] is
    deleted from the list that holds it. *)
Fixpoint walk_rule (r : rule) : St S (option rule) :=
  match r with
  | ContainerRule h rs =>
      let* rs' :=
        (fix walk_list (rs : list rule) : St S (list rule) :=
           match rs with
           | [] => ret []
           | r0 :: rest =>
               let* o := walk_rule r0 in
               let* rest' := walk_list rest in
               ret (cons_kept o rest')
           end) rs in
      visit (ContainerRule h rs')
  | _ => visit r
  end.

(** Modelled from the spec: the walk of a rule list, which is the
    [filter] of [walkStyleRules]. *)
Fixpoint walk_list (rs : list rule) : St S (list rule) :=
  match rs with
  | [] => ret []
  | r :: rest =>
      let* o := walk_rule r in
      let* rest' := walk_list rest in
      ret (cons_kept o rest')
  end.

(** Modelled from the spec: [walkStyleRules] on a stylesheet. *)
Definition walkStyleRules (ast : stylesheet) : St S stylesheet :=
  walk_list ast.

End walker.

End Css.

(** ** Options (lines 39-53) and the constructor (lines 75-81) *)

Inductive preload_value :=
| PreloadUnset
| PreloadFalse
| PreloadString (strategy : string).

(** [options.filter]: a predicate over the [href] value, or a regular
    expression given by its [test]. *)
Inductive filter_value :=
| FilterFunction (f : option string -> bool)
| FilterRegExp (test : string -> bool).

(** A boolean option is [None] when it is not set. *)
Record Options := {
  external : option bool;
  preload : preload_value;
  noscriptFallback : option bool;
  inlineFonts : option bool;
  preloadFonts : option bool;
  fonts : option bool;
  compress : option bool;
  filter : option filter_value
}.

(** [new Critters()] *)
Definition no_options : Options :=
  {| external := None; preload := PreloadUnset; noscriptFallback := None;
     inlineFonts := None; preloadFonts := None; fonts := None;
     compress := None; filter := None |}.

(** [String(v)] for a string or [null]. *)
Definition to_String (v : option string) : string := default "null" v.

(** [this.urlFilter]: a regular expression is replaced by its bound
    [test], which converts its argument to a string. *)
Definition urlFilter (options : Options) : option (option string -> bool) :=
  match filter options with
  | Some (FilterFunction f) => Some f
  | Some (FilterRegExp test) => Some (fun href => test (to_String href))
  | None => None
  end.

(** [v !== false] and [v === true] *)
Definition is_not_false (v : option bool) : bool :=
  match v with Some false => false | _ => true end.

Definition is_true (v : option bool) : bool :=
  match v with Some true => true | _ => false end.

Definition preload_is (mode : preload_value) (s : string) : bool :=
  match mode with
  | PreloadString t => String.eqb t s
  | _ => false
  end.

(** ** The Critters class (lines 73-307) *)

Module Critters.
Import JsString Regex Dom Css.

Definition newline : string := String (ascii_of_N 10) "".

(** The loader of line 125 and its lazy variant (lines 128-131). *)
Definition loader : string :=
  "function $loadcss(u,m,l){(l=document.createElement('link')).rel='stylesheet';l.href=u;document.head.appendChild(l)}".

Definition lazy_loader : string :=
  replace_first "l.href" "l.media='only x';l.onload=function(){l.media=m};l.href" loader.

(** The state of the second walk of [processStyle]: the array
    [preloadedFonts] of line 252 and the document. *)
Record font_state := FontState {
  preloadedFonts : list string;
  dom : document
}.

Definition lift_dom {A} (m : M A) : St font_state A :=
  fun s =>
    match m (dom s) with
    | Ok (a, d) => Ok (a, FontState (preloadedFonts s) d)
    | Throw e => Throw e
    end.

Section critters.

(** The collaborators: the selector engine behind
    [document.querySelector] for the selectors of a stylesheet, which
    may raise; the CSS parser, which may raise, and serialiser; the HTML
    parser and serialiser. *)
Variable querySelector : document -> string -> result (option node_id).
Variable parseStylesheet : string -> result stylesheet.
Variable serializeStylesheet : stylesheet -> bool -> string.
Variable createDocument : string -> document.
Variable serializeDocument : document -> string.

(** [this.options] *)
Variable options : Options.

(** Line 121: [this.urlFilter ? this.urlFilter(href) : href.match(...)];
    without a filter, a link without [href] has no [match] to call. *)
Definition skipped (href : option string) : M bool :=
  match urlFilter options with
  | Some f => ret (f href)
  | None =>
      match href with
      | Some h => ret (network_url h)
      | None => throw TypeError
      end
  end.

(** [link.parentNode.insertBefore(x, link.nextSibling)] (lines 137, 158
    and 187). *)
Definition insert_after (link x : node_id) : M unit :=
  let* p := get_parentNode link in
  match p with
  | None => throw TypeError
  | Some p =>
      let* next := get_nextSibling link in
      insertBefore p x next
  end.

(** Lines 153-160. The assignment of line 159 sets the local variable
    [cssLoaderPreamble], which is not read again before the method
    returns; it has no counterpart here. *)
Definition inject_script (link : node_id) (href media : option string)
    (cssLoaderPreamble : string) (lazy : bool) : M unit :=
  let* script := createElement "script" in
  let js :=
    cssLoaderPreamble ++ "$loadcss(" ++ json_stringify href
    ++ (if lazy then "," ++ json_stringify (Some (or_else media "all")) else "")
    ++ ")" in
  let* text := createTextNode (Str js) in
  appendChild script text ;;
  insert_after link script.

(** Lines 172-176. *)
Definition append_body_link (href media : option string) : M unit :=
  let* bodyLink := createElement "link" in
  setAttribute bodyLink "rel" "stylesheet" ;;
  (if truthy media then setAttribute bodyLink "media" (default "" media)
   else ret tt) ;;
  setAttribute bodyLink "href" (to_String href) ;;
  let* d := get in
  match body d with
  | Some b => appendChild b bodyLink
  | None => throw TypeError
  end.

(** Lines 147-178: the mutation of the link; the result is the value of
    [noscriptFallback]. *)
Definition rewrite_link (link : node_id) (href media : option string)
    (cssLoaderPreamble : string) (lazy : bool) : M bool :=
  let preloadMode := preload options in
  if preload_is preloadMode "body" then
    let* d := get in
    match body d with
    | Some b => appendChild b link ;; ret false
    | None => throw TypeError
    end
  else
    setAttribute link "rel" "preload" ;;
    setAttribute link "as" "style" ;;
    if preload_is preloadMode "js" || preload_is preloadMode "js-lazy" then
      inject_script link href media cssLoaderPreamble lazy ;;
      ret true
    else if preload_is preloadMode "media" then
      setAttribute link "rel" "stylesheet" ;;
      removeAttribute link "as" ;;
      setAttribute link "media" "only x" ;;
      setAttribute link "onload" ("this.media='" ++ or_else media "all" ++ "'") ;;
      ret true
    else if preload_is preloadMode "swap" then
      setAttribute link "onload" "this.rel='stylesheet'" ;;
      ret true
    else
      append_body_link href media ;;
      ret false.

(** Lines 180-188. *)
Definition add_noscript (link : node_id) (href media : option string) : M unit :=
  let* noscript := createElement "noscript" in
  let* noscriptLink := createElement "link" in
  setAttribute noscriptLink "rel" "stylesheet" ;;
  setAttribute noscriptLink "href" (to_String href) ;;
  (if truthy media then setAttribute noscriptLink "media" (default "" media)
   else ret tt) ;;
  appendChild noscript noscriptLink ;;
  insert_after link noscript.

(** Lines 134-140: the new [style] element, placed after the link. *)
Definition inline_style (link : node_id) (sheet : js_value) (href : option string)
  : M unit :=
  let* style := createElement "style" in
  let* text := createTextNode sheet in
  appendChild style text ;;
  insert_after link style ;;
  set_sourceName style href.

(** Lines 111-189. [cssFiles] is a plain object mapping a URL to the
    text of the stylesheet, given by its own entries; line 116 reads a
    property of it, so a key that is not an own key reads the member of
    [Object.prototype] of that name when there is one, and [undefined]
    otherwise. The variable [cssLoaderPreamble] is declared and
    initialised in the method (lines 125-132), once per call. *)
Definition embedLinkedStylesheet (link : node_id) (cssFiles : gmap string string)
  : M unit :=
  let* href := getAttribute link "href" in
  let* media := getAttribute link "media" in
  let sheet := read_property cssFiles (to_String href) in
  let preloadMode := preload options in
  let* skip := skipped href in
  if skip then ret tt
  else
    let lazy := preload_is preloadMode "js-lazy" in
    let cssLoaderPreamble := if lazy then lazy_loader else loader in
    inline_style link sheet href ;;
    match preloadMode with
    | PreloadFalse => ret tt
    | _ =>
        let* fallback := rewrite_link link href media cssLoaderPreamble lazy in
        if is_not_false (noscriptFallback options) && fallback
        then add_noscript link href media
        else ret tt
    end.

(** Lines 219-224: the selector filter. The stripped selector is handed
    to the selector engine; there is no handler around the call. *)
Definition selector_matches (d : document) (sel : string) : result bool :=
  match querySelector d (strip_pseudo sel) with
  | Ok (Some _) => Ok true
  | Ok None => Ok false
  | Throw e => Throw e
  end.

(** Lines 230-237: [criticalFonts += " " + decl.value] for the
    declarations whose property matches. *)
Fixpoint collect_fonts (decls : list declaration) (criticalFonts : string) : string :=
  match decls with
  | [] => criticalFonts
  | decl :: rest =>
      collect_fonts rest
        (if is_font_property (property decl)
         then criticalFonts ++ " " ++ value decl
         else criticalFonts)
  end.

(** Lines 216-245: the iterator of the first walk; the state is the
    string [criticalFonts]. *)
Definition prune_iterator (d : document) (r : rule) : St string (bool * rule) :=
  match r with
  | StyleRule sels decls =>
      let* sels' := filter_st (fun sel => pure_of (selector_matches d sel)) sels in
      if Nat.eqb (length sels') 0 then ret (false, StyleRule sels' decls)
      else
        let* criticalFonts := get in
        put (collect_fonts decls criticalFonts) ;;
        ret (true, StyleRule sels' decls)
  | FontFaceRule _ => ret (true, r)
  | ContainerRule _ rs => ret (negb (Nat.eqb (length rs) 0), r)
  | OtherRule _ => ret (true, r)
  end.

(** Lines 247-250. *)
Definition shouldPreloadFonts : bool :=
  is_true (fonts options) || is_true (preloadFonts options).

Definition shouldInlineFonts : bool :=
  is_not_false (fonts options) || is_true (inlineFonts options).

(** Lines 257-266: the last [font-family] value and the URL of the last
    [src] declaration. *)
Fixpoint family_and_src (decls : list declaration) (family src : option string)
  : option string * option string :=
  match decls with
  | [] => (family, src)
  | decl :: rest =>
      if String.eqb (property decl) "src" then
        family_and_src rest family (url_src (value decl))
      else if String.eqb (property decl) "font-family" then
        family_and_src rest (Some (value decl)) src
      else family_and_src rest family src
  end.

Definition is_preloaded (src : string) (preloaded : list string) : bool :=
  existsb (String.eqb src) preloaded.

(** Lines 269-277. *)
Definition preload_font (head : option node_id) (src : string) : St font_state unit :=
  let* s := get in
  put (FontState (preloadedFonts s ++ [src]) (dom s)) ;;
  lift_dom (
    let* preload := createElement "link" in
    setAttribute preload "rel" "preload" ;;
    setAttribute preload "as" "font" ;;
    (if has_scheme src then setAttribute preload "crossorigin" "anonymous"
     else ret tt) ;;
    setAttribute preload "href" (trim src) ;;
    match head with
    | Some h => appendChild h preload
    | None => throw TypeError
    end).

(** Lines 281-287: the rule is removed. *)
Definition font_dropped (criticalFonts : string) (family src : option string) : bool :=
  negb (truthy family) || negb (truthy src)
  || negb (includes (default "" family) criticalFonts)
  || negb shouldInlineFonts.

(** Lines 253-288: the iterator of the second walk. *)
Definition font_iterator (head : option node_id) (criticalFonts : string) (r : rule)
  : St font_state (bool * rule) :=
  match r with
  | FontFaceRule decls =>
      let (family, src) := family_and_src decls None None in
      let* s := get in
      (if truthy src && shouldPreloadFonts
          && negb (is_preloaded (default "" src) (preloadedFonts s))
       then preload_font head (default "" src)
       else ret tt) ;;
      ret (negb (font_dropped criticalFonts family src), r)
  | _ => ret (true, r)
  end.

(** Lines 301-303: [while (style.lastChild) style.removeChild(...)].
    Every turn removes a child, so the number of children bounds the
    number of turns. *)
Fixpoint remove_children (turns : nat) (style : node_id) : M unit :=
  match turns with
  | O => ret tt
  | S n =>
      let* c := get_lastChild style in
      match c with
      | Some c => removeChild style c ;; remove_children n style
      | None => ret tt
      end
  end.

Fixpoint map_st {S A B} (f : A -> St S B) (xs : list A) : St S (list B) :=
  match xs with
  | [] => ret []
  | x :: rest =>
      let* y := f x in
      let* ys := map_st f rest in
      ret (y :: ys)
  end.

(** Lines 200-202: [false] (here [None]) for a style without child
    nodes, else the node values joined by line feeds. *)
Definition style_text (style : node_id) : M (option string) :=
  let* cs := get_childNodes style in
  if Nat.ltb 0 (length cs) then
    let* values := map_st get_nodeValue cs in
    ret (Some (join newline (map joined values)))
  else ret None.

(** Lines 216-245 run on a stylesheet: the pruned rules and the font
    corpus. *)
Definition prune (d : document) (ast : stylesheet) : result (stylesheet * string) :=
  walkStyleRules (prune_iterator d) ast "".

(** Lines 252-288 run on a stylesheet. *)
Definition font_pass (head : option node_id) (criticalFonts : string)
    (ast : stylesheet) : M stylesheet :=
  fun d =>
    match walkStyleRules (font_iterator head criticalFonts) ast (FontState [] d) with
    | Ok (ast', s) => Ok (ast', dom s)
    | Throw e => Throw e
    end.

(** Lines 194-306. *)
Definition processStyle (style : node_id) : M unit :=
  let* d := get in
  let head := first_by_tag "head" d in
  let* sheet := style_text style in
  if negb (truthy sheet) then ret tt
  else
    let* ast := pure_of (parseStylesheet (default "" sheet)) in
    let* (ast, criticalFonts) := pure_of (prune d ast) in
    let* ast := font_pass head criticalFonts ast in
    let sheet := serializeStylesheet ast (is_not_false (compress options)) in
    if Nat.eqb (String.length (trim sheet)) 0 then
      let* p := get_parentNode style in
      match p with
      | Some p => removeChild p style
      | None => ret tt
      end
    else
      let* cs := get_childNodes style in
      remove_children (length cs) style ;;
      let* text := createTextNode (Str sheet) in
      appendChild style text.

(** Lines 90-102: the two batches of [process]. The methods have no
    suspension point, so each call runs to its end when [map] makes it,
    in document order; a call that throws rejects the batch. *)
Definition process_document (cssFiles : gmap string string) : M unit :=
  (if is_not_false (external options) then
     let* d := get in
     for_each (fun link => embedLinkedStylesheet link cssFiles) (stylesheet_links d)
   else ret tt) ;;
  let* d := get in
  for_each processStyle (elements_by_tag "style" d).

(** Lines 86-106. *)
Definition process (html : string) (cssFiles : gmap string string) : result string :=
  match process_document cssFiles (createDocument html) with
  | Ok (_, d) => Ok (serializeDocument d)
  | Throw e => Throw e
  end.

End critters.

End Critters.

(** ** Vocabulary of the statements *)

Module Statements.
Import JsString Regex Dom Css Critters.

(** The test of line 121 lets the link through. *)
Definition not_skipped (options : Options) (href : option string) : Prop :=
  match urlFilter options with
  | Some f => f href = false
  | None => exists h, href = Some h /\ network_url h = false
  end.

(** The attributes of the link inside the [noscript] element (lines
    183-185). *)
Definition noscript_attrs (href media : option string) : list (string * string) :=
  [("rel", "stylesheet"); ("href", to_String href)]
  ++ (if truthy media then [("media", default "" media)] else []).

(** The selector matcher of lines 219-224 as a boolean: the stripped
    selector finds an element. *)
Definition matches (querySelector : document -> string -> result (option node_id))
    (d : document) (sel : string) : bool :=
  match querySelector d (strip_pseudo sel) with
  | Ok (Some _) => true
  | _ => false
  end.

(** The selectors of a rule and of the rules nested in it. *)
Fixpoint selectors_in (r : rule) : list string :=
  match r with
  | StyleRule sels _ => sels
  | ContainerRule _ rs => flat_map selectors_in rs
  | _ => []
  end.

(** The rule pruner in the words of the specification: a style rule
    keeps the selectors that match and is deleted when none is left; a
    font-face rule is left as it is; a container has its children pruned
    first and is deleted when none is left. *)
Fixpoint pruned (m : string -> bool) (r : rule) : option rule :=
  match r with
  | StyleRule sels decls =>
      match List.filter m sels with
      | [] => None
      | sels' => Some (StyleRule sels' decls)
      end
  | FontFaceRule _ => Some r
  | ContainerRule h rs =>
      match omap (pruned m) rs with
      | [] => None
      | rs' => Some (ContainerRule h rs')
      end
  | OtherRule _ => Some r
  end.

(** The font corpus in the words of the specification: the values of
    the font declarations of the retained style rules, in walk order. *)
Fixpoint corpus (m : string -> bool) (r : rule) (criticalFonts : string) : string :=
  match r with
  | StyleRule sels decls =>
      match List.filter m sels with
      | [] => criticalFonts
      | _ => collect_fonts decls criticalFonts
      end
  | ContainerRule _ rs => fold_left (fun acc r0 => corpus m r0 acc) rs criticalFonts
  | _ => criticalFonts
  end.

(** The selector engine answers for the stripped selector. *)
Definition answers (querySelector : document -> string -> result (option node_id))
    (d : document) (sel : string) : Prop :=
  exists o, querySelector d (strip_pseudo sel) = Ok o.

(** The URL the second walk reads from a font-face rule. *)
Definition font_src (decls : list declaration) : option string :=
  snd (family_and_src decls None None).

Section font_statements.
Variable options : Options.

(** The URLs the rules ask to preload, in walk order. *)
Fixpoint preload_urls (r : rule) : list string :=
  match r with
  | FontFaceRule decls =>
      if truthy (font_src decls) && shouldPreloadFonts options
      then [default "" (font_src decls)] else []
  | ContainerRule _ rs => flat_map preload_urls rs
  | _ => []
  end.

(** Line 268: a URL is pushed unless the array holds it. *)
Definition add_once (seen : list string) (url : string) : list string :=
  if is_preloaded url seen then seen else (seen ++ [url])%list.

Definition distinct_urls (ast : stylesheet) : list string :=
  fold_left add_once (flat_map preload_urls ast) [].

(** The element of lines 270-276, once appended to [head]. *)
Definition preload_link (head : node_id) (src : string) : node :=
  Node (Element "link"
          ([("rel", "preload"); ("as", "font")]
           ++ (if has_scheme src then [("crossorigin", "anonymous")] else [])
           ++ [("href", trim src)]) [])
       (Some head) None.

(** What the second walk leaves of a rule. *)
Fixpoint font_kept (criticalFonts : string) (r : rule) : option rule :=
  match r with
  | FontFaceRule decls =>
      let (family, src) := family_and_src decls None None in
      if font_dropped options criticalFonts family src then None else Some r
  | ContainerRule h rs => Some (ContainerRule h (omap (font_kept criticalFonts) rs))
  | _ => Some r
  end.

(** The document after the links of [urls] were appended to [head]. *)
Definition with_preloads (ns : list node) (r : node_id) (h : node_id)
    (ht : string) (ha : list (string * string)) (hcs : list node_id)
    (hp : option node_id) (hnm : option string) (urls : list string) : document :=
  Document
    (<[h := Node (Element ht ha (hcs ++ seq (length ns) (length urls))) hp hnm]> ns
     ++ map (preload_link h) urls) r.
End font_statements.

(** The state of the second walk once the URLs [urls] were preloaded. *)
Definition preloaded_state (ns : list node) (r : node_id) (h : node_id)
    (ht : string) (ha : list (string * string)) (hcs : list node_id)
    (hp : option node_id) (hnm : option string) (urls : list string) : font_state :=
  FontState urls (with_preloads ns r h ht ha hcs hp hnm urls).


(** The string held by a text node. *)
Definition text_of (d : document) (i : node_id) : option string :=
  match nodes d !! i with
  | Some (Node (Text (Str s)) _ _) => Some s
  | _ => None
  end.

(** The child list of an element. *)
Definition children_of (d : document) (i : node_id) : list node_id :=
  match nodes d !! i with
  | Some (Node (Element _ _ cs) _ _) => cs
  | _ => []
  end.

(** The text nodes of the document that define the loader. *)
Definition loader_definitions (d : document) : list node_id :=
  List.filter (fun i => includes "function $loadcss(" (default "" (text_of d i)))
    (all_nodes d).

(** The font preloads of the document for a URL. *)
Definition font_preloads (d : document) (url : string) : list node_id :=
  List.filter (fun i => has_tag d "link" i && has_attr d "rel" "preload" i
                        && has_attr d "as" "font" i && has_attr d "href" url i)
    (all_nodes d).

(** The child list of a node of any kind. *)
Definition kids (k : node_kind) : list node_id :=
  match k with
  | Element _ _ cs => cs
  | _ => []
  end.

(** [style] is a child of [p] and not one of its own children. *)
Definition anchored (style p : node_id) (d : document) : Prop :=
  exists k nm, nodes d !! style = Some (Node k (Some p) nm) /\ style ∉ kids k.

(** [style] has no parent: it was removed from the tree. *)
Definition detached (style : node_id) (d : document) : Prop :=
  exists k nm, nodes d !! style = Some (Node k None nm).

(** The selector engine raises on the stripped selector. *)
Definition raises (querySelector : document -> string -> result (option node_id))
    (d : document) (sel : string) : Prop :=
  exists e, querySelector d (strip_pseudo sel) = Throw e.

(** The node with its text replaced, when it is a text node. *)
Definition set_data (v : js_value) (n : node) : node :=
  match kind n with
  | Text _ => Node (Text v) (parentNode n) (sourceName n)
  | _ => n
  end.

(** The document in which the text node [i] holds [v]. *)
Definition retext (i : node_id) (v : js_value) (d : document) : document :=
  Document (alter (set_data v) i (nodes d)) (root d).

Definition map_state {A} (f : document -> document) (r : result (A * document))
  : result (A * document) :=
  match r with
  | Ok (a, d) => Ok (a, f d)
  | Throw e => Throw e
  end.

(** What follows the creation of the text node in lines 136-188. *)
Definition after_text (options : Options) (link : node_id) (href media : option string)
    (style text : node_id) : M unit :=
  (appendChild style text ;;
   insert_after link style ;;
   set_sourceName style href) ;;
  match preload options with
  | PreloadFalse => ret tt
  | _ =>
      let lazy := preload_is (preload options) "js-lazy" in
      let* fallback :=
        rewrite_link options link href media (if lazy then lazy_loader else loader) lazy in
      if is_not_false (noscriptFallback options) && fallback
      then add_noscript link href media
      else ret tt
  end.

(** A postcondition of the runs of [m] that end without an exception. *)
Definition hoare {S A} (P : S -> Prop) (m : St S A) (Q : A -> S -> Prop) : Prop :=
  forall s a s', P s -> m s = Ok (a, s') -> Q a s'.

(** [m] does not look at the text held by node [i]: it runs alike on a
    document and on the document with that text replaced. *)
Definition commutes (i : node_id) (v : js_value) {A} (m : M A) : Prop :=
  forall d, i < length (nodes d) ->
    m (retext i v d) = map_state (retext i v) (m d)
    /\ (forall a d', m d = Ok (a, d') -> i < length (nodes d')).

(** *** Vocabulary of the further properties *)

(** The text of the script of lines 154-156. *)
Definition loader_call (lazy : bool) (href media : option string) : string :=
  (if lazy then lazy_loader else loader) ++ "$loadcss(" ++ json_stringify href
  ++ (if lazy then "," ++ json_stringify (Some (or_else media "all")) else "")
  ++ ")".

(** The attributes of the link after lines 150-151 and 163-166. *)
Definition media_attrs (media : option string) (attrs : list (string * string))
  : list (string * string) :=
  attr_set "onload" ("this.media='" ++ or_else media "all" ++ "'")
    (attr_set "media" "only x"
       (attr_remove "as"
          (attr_set "rel" "stylesheet"
             (attr_set "as" "style" (attr_set "rel" "preload" attrs))))).

(** The attributes of the link appended to the body (lines 173-175). *)
Definition body_link_attrs (href media : option string) : list (string * string) :=
  [("rel", "stylesheet")]
  ++ (if truthy media then [("media", default "" media)] else [])
  ++ [("href", to_String href)].

(** The strategy of the last branch of lines 147-178. *)
Definition default_strategy (mode : preload_value) : bool :=
  match mode with
  | PreloadUnset => true
  | PreloadFalse => false
  | PreloadString s =>
      negb (existsb (String.eqb s) ["body"; "js"; "js-lazy"; "media"; "swap"])
  end.

(** Node [i] is an element whose tag and attributes satisfy [Q]. *)
Definition element_with (Q : string -> list (string * string) -> Prop)
    (i : node_id) (d : document) : Prop :=
  exists t a cs p nm, nodes d !! i = Some (Node (Element t a cs) p nm) /\ Q t a.

(** Every code unit of the string passes the test. *)
Fixpoint all_chars (f : ascii -> bool) (s : string) : bool :=
  match s with
  | String c s' => f c && all_chars f s'
  | EmptyString => true
  end.

(** A selector without a colon. *)
Definition colon_free (s : string) : bool :=
  all_chars (fun c => negb (Ascii.eqb c ":")) s.

(** A non-empty run of the characters of [[a-z-]] under the [i] flag. *)
Definition is_name (n : string) : bool :=
  match n with
  | EmptyString => false
  | String _ _ => all_chars is_name_char n
  end.

(** A possibly empty run of [\s]. *)
Definition blank (s : string) : bool := all_chars is_space s.

(** A code unit that is not a blank, a quote or a closing parenthesis. *)
Definition url_char (c : ascii) : bool :=
  negb (is_space c) && negb (is_quote c) && negb (Ascii.eqb c ")").

(** A non-empty URL made of such code units. *)
Definition is_url (u : string) : bool :=
  match u with
  | EmptyString => false
  | String _ _ => all_chars url_char u
  end.

(** Every selector left in the rule matches, no style rule is left
    without a selector and no container without a rule. *)
Fixpoint well_pruned (m : string -> bool) (r : rule) : bool :=
  match r with
  | StyleRule sels _ => negb (Nat.eqb (length sels) 0) && forallb m sels
  | ContainerRule _ rs => negb (Nat.eqb (length rs) 0) && forallb (well_pruned m) rs
  | _ => true
  end.

(** A rule and the rules nested in it. *)
Fixpoint rules_of (r : rule) : list rule :=
  r :: match r with
       | ContainerRule _ rs => flat_map rules_of rs
       | _ => []
       end.

(** The style of lines 135-137 in a document: [style] is a [style]
    element whose only child is [text], a text node created from [v],
    and no other node has [style] as its parent. *)
Definition holds_text (style text : node_id) (v : js_value) (d : document) : Prop :=
  (exists a p nm, nodes d !! style = Some (Node (Element "style" a [text]) p nm))
  /\ (exists nm, nodes d !! text = Some (Node (Text v) (Some style) nm))
  /\ (forall j n, nodes d !! j = Some n -> parentNode n = Some style -> j = text).

End Statements.

(** ** Providers and pages for the examples *)

Module Examples.
Import JsString Regex Dom Css Critters Statements.

Definition element (tag : string) (attrs : list (string * string))
    (cs : list node_id) (p : option node_id) : node :=
  Node (Element tag attrs cs) p None.

Definition text_node (s : string) (p : node_id) : node :=
  Node (Text (Str s)) (Some p) None.

(** A selector engine for type selectors: the first element with that
    tag name; like the engines behind [querySelector] it raises on the
    empty selector. *)
Definition tag_engine (d : document) (sel : string) : result (option node_id) :=
  if String.eqb sel "" then Throw SyntaxError else Ok (first_by_tag sel d).

Definition print_declaration (decl : declaration) : option string :=
  Some (property decl ++ ":" ++ value decl).

Definition print_block (decls : list declaration) : string :=
  "{" ++ join ";" (map print_declaration decls) ++ "}".

Fixpoint print_rule (r : rule) : string :=
  match r with
  | StyleRule sels decls => join "," (map Some sels) ++ print_block decls
  | FontFaceRule decls => "@font-face" ++ print_block decls
  | ContainerRule h rs =>
      h ++ "{"
      ++ (fix print_all (rs : list rule) : string :=
            match rs with
            | [] => ""
            | r0 :: rest => print_rule r0 ++ print_all rest
            end) rs
      ++ "}"
  | OtherRule t => t
  end.

(** A serialiser that prints the compact form whatever the flag. *)
Definition print_stylesheet (ast : stylesheet) (compress : bool) : string :=
  fold_right (fun r acc => print_rule r ++ acc) "" ast.

Definition red_blue : string := "p{color:red}.unused{color:blue}".
Definition font_sheet : string := "@font-face{font-family:X;src:url(x.woff2)}p{font-family:X}".
Definition font_only : string := "@font-face{font-family:X;src:url(x.woff2)}".
Definition hover_sheet : string := ":hover{color:red}".
Definition q_sheet : string := "q{color:blue}".

Definition font_face_X : rule :=
  FontFaceRule [Declaration "font-family" "X"; Declaration "src" "url(x.woff2)"].

(** A parser that knows the stylesheets of the examples. *)
Definition parse_known (css : string) : result stylesheet :=
  if String.eqb css red_blue then
    Ok [StyleRule ["p"] [Declaration "color" "red"];
        StyleRule [".unused"] [Declaration "color" "blue"]]
  else if String.eqb css font_sheet then
    Ok [font_face_X; StyleRule ["p"] [Declaration "font-family" "X"]]
  else if String.eqb css font_only then Ok [font_face_X]
  else if String.eqb css hover_sheet then
    Ok [StyleRule [":hover"] [Declaration "color" "red"]]
  else if String.eqb css q_sheet then
    Ok [StyleRule ["q"] [Declaration "color" "blue"]]
  else Throw ParseError.

(** [<html><head><link rel="stylesheet" href="/a.css"><link
    rel="stylesheet" href="/b.css" media="print"></head><body><p></p>
    </body></html>] *)
Definition two_links : document :=
  Document
    [ element "#document" [] [1] None;
      element "html" [] [2; 5] (Some 0);
      element "head" [] [3; 4] (Some 1);
      element "link" [("rel", "stylesheet"); ("href", "/a.css")] [] (Some 2);
      element "link" [("rel", "stylesheet"); ("href", "/b.css"); ("media", "print")]
        [] (Some 2);
      element "body" [] [6] (Some 1);
      element "p" [] [] (Some 5) ]
    0.

(** A page whose stylesheet is on another host. *)
Definition cdn_link : document :=
  Document
    [ element "#document" [] [1] None;
      element "html" [] [2; 4] (Some 0);
      element "head" [] [3] (Some 1);
      element "link" [("rel", "stylesheet"); ("href", "https://cdn.example/x.css")]
        [] (Some 2);
      element "body" [] [] (Some 1) ]
    0.

Definition css_files : gmap string string :=
  <["/a.css" := red_blue]> (<["/b.css" := q_sheet]> ∅).

(** A page with one inline style. *)
Definition one_style (css : string) : document :=
  Document
    [ element "#document" [] [1] None;
      element "html" [] [2; 5] (Some 0);
      element "head" [] [3] (Some 1);
      element "style" [] [4] (Some 2);
      text_node css 3;
      element "body" [] [6] (Some 1);
      element "p" [] [] (Some 5) ]
    0.

Definition two_styles (css1 css2 : string) : document :=
  Document
    [ element "#document" [] [1] None;
      element "html" [] [2; 7] (Some 0);
      element "head" [] [3; 5] (Some 1);
      element "style" [] [4] (Some 2);
      text_node css1 3;
      element "style" [] [6] (Some 2);
      text_node css2 5;
      element "body" [] [8] (Some 1);
      element "p" [] [] (Some 7) ]
    0.

(** A page whose stylesheet is not in [css_files]. *)
Definition missing_link : document :=
  Document
    [ element "#document" [] [1] None;
      element "html" [] [2; 4] (Some 0);
      element "head" [] [3] (Some 1);
      element "link" [("rel", "stylesheet"); ("href", "/c.css")] [] (Some 2);
      element "body" [] [] (Some 1) ]
    0.

(** A page with a [style] element without child nodes. *)
Definition empty_style : document :=
  Document
    [ element "#document" [] [1] None;
      element "html" [] [2; 4] (Some 0);
      element "head" [] [3] (Some 1);
      element "style" [] [] (Some 2);
      element "body" [] [] (Some 1) ]
    0.

Definition with_preload (mode : preload_value) : Options :=
  {| external := None; preload := mode; noscriptFallback := None;
     inlineFonts := None; preloadFonts := None; fonts := None;
     compress := None; filter := None |}.

Definition with_preloadFonts : Options :=
  {| external := None; preload := PreloadUnset; noscriptFallback := None;
     inlineFonts := None; preloadFonts := Some true; fonts := None;
     compress := None; filter := None |}.

Definition run_process (options : Options) (cssFiles : gmap string string)
    (d : document) : result (unit * document) :=
  process_document tag_engine parse_known print_stylesheet options cssFiles d.

(** [preload: "swap"] with [noscriptFallback: false]. *)
Definition swap_without_noscript : Options :=
  {| external := None; preload := PreloadString "swap"; noscriptFallback := Some false;
     inlineFonts := None; preloadFonts := None; fonts := None;
     compress := None; filter := None |}.

(** [external: false] *)
Definition external_off : Options :=
  {| external := Some false; preload := PreloadUnset; noscriptFallback := None;
     inlineFonts := None; preloadFonts := None; fonts := None;
     compress := None; filter := None |}.

(** A page whose stylesheet link has no [href]. *)
Definition bare_link : document :=
  Document
    [ element "#document" [] [1] None;
      element "html" [] [2; 4] (Some 0);
      element "head" [] [3] (Some 1);
      element "link" [("rel", "stylesheet")] [] (Some 2);
      element "body" [] [] (Some 1) ]
    0.

(** The tag names of the elements of a page, in document order. *)
Definition outline (d : document) : string :=
  join " "
    (map (fun i => match nodes d !! i with
                   | Some (Node (Element t _ _) _ _) => Some t
                   | _ => None
                   end) (all_nodes d)).

Definition two_links_html : string :=
  "<html><head><link rel=stylesheet href=/a.css><link rel=stylesheet href=/b.css media=print></head><body><p></p></body></html>".

(** An HTML parser that knows the page [two_links]. *)
Definition parse_page (html : string) : document :=
  if String.eqb html two_links_html then two_links
  else Document [element "#document" [] [] None] 0.

(** The document a run ends with. *)
Definition outcome (run : result (unit * document)) : document :=
  match run with
  | Ok (_, d) => d
  | Throw _ => Document [] 0
  end.

(** [<html><head><link rel="stylesheet" href="/a.css" media="screen">
    </head><body><p></p></body></html>] *)
Definition one_link : document :=
  Document
    [ element "#document" [] [1] None;
      element "html" [] [2; 4] (Some 0);
      element "head" [] [3] (Some 1);
      element "link" [("rel", "stylesheet"); ("href", "/a.css"); ("media", "screen")]
        [] (Some 2);
      element "body" [] [5] (Some 1);
      element "p" [] [] (Some 4) ]
    0.

(** A page whose stylesheet link names a member of [Object.prototype]. *)
Definition prototype_link : document :=
  Document
    [ element "#document" [] [1] None;
      element "html" [] [2; 4] (Some 0);
      element "head" [] [3] (Some 1);
      element "link" [("rel", "stylesheet"); ("href", "toString")] [] (Some 2);
      element "body" [] [] (Some 1) ]
    0.

End Examples.

(** * Properties *)

(** ** The regular expressions on the selectors, properties and values
    of the documentation and the specification *)

Section regex_examples.
Import JsString Regex.

Example strip_hover : strip_pseudo "a:hover" = "a".
Proof. reflexivity. Qed.

Example strip_before : strip_pseudo "li::before" = "li".
Proof. reflexivity. Qed.

Example strip_focus_attr : strip_pseudo "input:focus[type=text]" = "input[type=text]".
Proof. reflexivity. Qed.

Example strip_keeps_second : strip_pseudo "a:hover:focus" = "a:focus".
Proof. reflexivity. Qed.

Example strip_descendant : strip_pseudo "a:hover b" = "a b".
Proof. reflexivity. Qed.

Example strip_paren : strip_pseudo "li:nth-child(2)" = "li:nth-child(2)".
Proof. reflexivity. Qed.

Example strip_only_pseudo : strip_pseudo ":hover" = "".
Proof. reflexivity. Qed.

Example font_family_is_font : is_font_property "font-family" = true.
Proof. reflexivity. Qed.

Example font_upper_is_font : is_font_property "FONT" = true.
Proof. reflexivity. Qed.

Example fontsize_is_not_font : is_font_property "fontsize" = false.
Proof. reflexivity. Qed.

Example color_is_not_font : is_font_property "color" = false.
Proof. reflexivity. Qed.

Example url_plain : url_src "url(x.woff2)" = Some "x.woff2".
Proof. reflexivity. Qed.

Example url_quoted_format :
  url_src "url('a.woff') format('woff')" = Some "a.woff".
Proof. reflexivity. Qed.

Example url_unclosed_quote : url_src "url('a)" = Some "'a".
Proof. reflexivity. Qed.

Example url_blank : url_src "url(  )" = Some " ".
Proof. reflexivity. Qed.

Example url_local : url_src "local(Arial)" = None.
Proof. reflexivity. Qed.

Example network_https : network_url "https://cdn.example/x.css" = true.
Proof. reflexivity. Qed.

Example network_relative : network_url "/styles.css" = false.
Proof. reflexivity. Qed.

Example stringify_href :
  json_stringify (Some "/a.css") = dquote ++ "/a.css" ++ dquote.
Proof. reflexivity. Qed.

Example trim_both : trim "  a b  " = "a b".
Proof. reflexivity. Qed.

End regex_examples.

(** ** The rule walker *)

Module CssFacts.
Import Css.

(** Structural induction through the nested rule lists. *)
Lemma rule_nested_ind (P : rule -> Prop) :
  (forall sels decls, P (StyleRule sels decls)) ->
  (forall decls, P (FontFaceRule decls)) ->
  (forall h rs, Forall P rs -> P (ContainerRule h rs)) ->
  (forall t, P (OtherRule t)) ->
  forall r, P r.
Proof.
  intros HS HF HC HO.
  fix IH 1.
  intros [sels decls | decls | h rs | t].
  - apply HS.
  - apply HF.
  - apply HC.
    induction rs as [| r rs IHrs].
    + constructor.
    + constructor; [apply IH | apply IHrs].
  - apply HO.
Qed.


Section walker_facts.
Context {S : Type}.
Variable iterator : rule -> St S (bool * rule).

Lemma walk_rule_container h rs :
  walk_rule iterator (ContainerRule h rs) =
  (let* rs' := walk_list iterator rs in visit iterator (ContainerRule h rs')).
Proof. reflexivity. Qed.


End walker_facts.

End CssFacts.

(** ** Running the DOM operations on a known store *)

Module DomFacts.
Import JsString Regex Dom Critters Statements.

Lemma bind_ok {S A B} (m : St S A) (k : A -> St S B) s a s' :
  m s = Ok (a, s') -> bind m k s = k a s'.
Proof. intros H. unfold bind. rewrite H. reflexivity. Qed.

Lemma bind_throw {S A B} (m : St S A) (k : A -> St S B) s e :
  m s = Throw e -> bind m k s = Throw e.
Proof. intros H. unfold bind. rewrite H. reflexivity. Qed.


Lemma run_node_at ns r i n :
  ns !! i = Some n -> node_at i (Document ns r) = Ok (n, Document ns r).
Proof. intros H. unfold node_at. simpl. rewrite H. reflexivity. Qed.

Ltac run_with lem := erewrite bind_ok; [| eapply lem; eassumption].

Lemma run_set_kind ns r i k0 p nm k :
  ns !! i = Some (Node k0 p nm) ->
  set_kind i k (Document ns r) = Ok (tt, Document (<[i := Node k p nm]> ns) r).
Proof. intros H. unfold set_kind. run_with run_node_at. reflexivity. Qed.

Lemma run_set_parent ns r i k p0 nm p :
  ns !! i = Some (Node k p0 nm) ->
  set_parent i p (Document ns r) = Ok (tt, Document (<[i := Node k p nm]> ns) r).
Proof. intros H. unfold set_parent. run_with run_node_at. reflexivity. Qed.

Lemma run_set_sourceName ns r i k p nm0 nm :
  ns !! i = Some (Node k p nm0) ->
  set_sourceName i nm (Document ns r) = Ok (tt, Document (<[i := Node k p nm]> ns) r).
Proof. intros H. unfold set_sourceName. run_with run_node_at. reflexivity. Qed.

Lemma run_getAttribute ns r i t a cs p nm name :
  ns !! i = Some (Node (Element t a cs) p nm) ->
  getAttribute i name (Document ns r) = Ok (attr_get name a, Document ns r).
Proof. intros H. unfold getAttribute. run_with run_node_at. reflexivity. Qed.

Lemma run_setAttribute ns r i t a cs p nm name v :
  ns !! i = Some (Node (Element t a cs) p nm) ->
  setAttribute i name v (Document ns r) =
  Ok (tt, Document (<[i := Node (Element t (attr_set name v a) cs) p nm]> ns) r).
Proof.
  intros H. unfold setAttribute. run_with run_node_at. simpl.
  eapply run_set_kind. exact H.
Qed.

Lemma run_removeAttribute ns r i t a cs p nm name :
  ns !! i = Some (Node (Element t a cs) p nm) ->
  removeAttribute i name (Document ns r) =
  Ok (tt, Document (<[i := Node (Element t (attr_remove name a) cs) p nm]> ns) r).
Proof.
  intros H. unfold removeAttribute. run_with run_node_at. simpl.
  eapply run_set_kind. exact H.
Qed.

Lemma run_get_parentNode ns r i n :
  ns !! i = Some n ->
  get_parentNode i (Document ns r) = Ok (parentNode n, Document ns r).
Proof. intros H. unfold get_parentNode. run_with run_node_at. reflexivity. Qed.

Lemma run_get_childNodes ns r i t a cs p nm :
  ns !! i = Some (Node (Element t a cs) p nm) ->
  get_childNodes i (Document ns r) = Ok (cs, Document ns r).
Proof. intros H. unfold get_childNodes. run_with run_node_at. reflexivity. Qed.

Lemma run_get_nextSibling ns r i k p nm t a cs pp pnm :
  ns !! i = Some (Node k (Some p) nm) ->
  ns !! p = Some (Node (Element t a cs) pp pnm) ->
  get_nextSibling i (Document ns r) = Ok (next_in i cs, Document ns r).
Proof.
  intros Hi Hp. unfold get_nextSibling.
  run_with run_get_parentNode. simpl.
  run_with run_get_childNodes. reflexivity.
Qed.

Lemma run_detach_orphan ns r i k nm :
  ns !! i = Some (Node k None nm) ->
  detach i (Document ns r) = Ok (tt, Document ns r).
Proof. intros H. unfold detach. run_with run_get_parentNode. reflexivity. Qed.

Lemma run_appendChild_orphan ns r p c k nm t a cs pp pnm :
  ns !! c = Some (Node k None nm) ->
  ns !! p = Some (Node (Element t a cs) pp pnm) ->
  p <> c ->
  appendChild p c (Document ns r) =
  Ok (tt, Document (<[c := Node k (Some p) nm]>
                      (<[p := Node (Element t a (cs ++ [c])) pp pnm]> ns)) r).
Proof.
  intros Hc Hp Hne. unfold appendChild.
  run_with run_detach_orphan. run_with run_node_at. simpl.
  run_with run_set_kind.
  eapply run_set_parent. rewrite list_lookup_insert_ne by exact Hne. exact Hc.
Qed.

Lemma is_child_middle x pre post : is_child x (pre ++ x :: post) = true.
Proof.
  unfold is_child. apply existsb_exists. exists x. split.
  - apply in_or_app. right. left. reflexivity.
  - apply Nat.eqb_refl.
Qed.

Lemma next_in_middle l pre post :
  l ∉ pre -> next_in l (pre ++ l :: post) = head post.
Proof.
  induction pre as [| c pre IH]; intros Hn; simpl.
  - rewrite Nat.eqb_refl. reflexivity.
  - destruct (Nat.eqb_spec c l) as [-> | Hne].
    + exfalso. apply Hn. left.
    + apply IH. intros Hin. apply Hn. right. exact Hin.
Qed.

Lemma insert_before_middle x y pre post :
  y ∉ pre -> insert_before x y (pre ++ y :: post) = (pre ++ x :: y :: post)%list.
Proof.
  induction pre as [| c pre IH]; intros Hn; simpl.
  - rewrite Nat.eqb_refl. reflexivity.
  - destruct (Nat.eqb_spec c y) as [-> | Hne].
    + exfalso. apply Hn. left.
    + f_equal. apply IH. intros Hin. apply Hn. right. exact Hin.
Qed.

(** [link.parentNode.insertBefore(x, link.nextSibling)] puts a fresh
    node right after the link. *)
Lemma run_insert_after ns r l x k nm lk lnm p t a pre post pp pnm :
  ns !! l = Some (Node lk (Some p) lnm) ->
  ns !! p = Some (Node (Element t a (pre ++ l :: post)) pp pnm) ->
  NoDup (pre ++ l :: post) ->
  ns !! x = Some (Node k None nm) ->
  p <> x ->
  insert_after l x (Document ns r) =
  Ok (tt, Document (<[x := Node k (Some p) nm]>
                      (<[p := Node (Element t a (pre ++ l :: x :: post)) pp pnm]> ns)) r).
Proof.
  intros Hl Hp Hnd Hx Hne. unfold insert_after.
  run_with run_get_parentNode. simpl.
  run_with run_get_nextSibling.
  apply NoDup_app in Hnd as (Hpre & Hdisj & Hpost).
  assert (Hlpre : l ∉ pre).
  { intros Hin. apply (Hdisj l Hin). left. }
  rewrite next_in_middle by exact Hlpre.
  destruct post as [| y post']; simpl.
  - rewrite (run_appendChild_orphan _ _ _ _ _ _ _ _ _ _ _ Hx Hp Hne).
    rewrite <- app_assoc. reflexivity.
  - unfold insertBefore.
    run_with run_detach_orphan. run_with run_node_at. simpl.
    replace (pre ++ l :: y :: post')%list with ((pre ++ [l]) ++ y :: post')%list
      by (rewrite <- app_assoc; reflexivity).
    rewrite is_child_middle.
    assert (Hy : y ∉ (pre ++ [l])%list).
    { intros Hin. apply elem_of_app in Hin as [Hin | Hin].
      - apply (Hdisj y Hin). right. left.
      - apply list_elem_of_singleton in Hin. subst y.
        apply NoDup_cons in Hpost as [Hl' _]. apply Hl'. left. }
    rewrite insert_before_middle by exact Hy.
    erewrite bind_ok; [| eapply run_set_kind; exact Hp].
    rewrite <- app_assoc. simpl.
    eapply run_set_parent. rewrite list_lookup_insert_ne by exact Hne. exact Hx.
Qed.

Lemma attr_get_set_eq name v attrs : attr_get name (attr_set name v attrs) = Some v.
Proof.
  induction attrs as [| [k x] rest IH]; simpl.
  - rewrite String.eqb_refl. reflexivity.
  - destruct (String.eqb k name) eqn:Hk; simpl; rewrite Hk; [reflexivity | exact IH].
Qed.

Lemma attr_get_set_ne name name' v attrs :
  name <> name' -> attr_get name' (attr_set name v attrs) = attr_get name' attrs.
Proof.
  intros Hne. induction attrs as [| [k x] rest IH]; simpl.
  - destruct (String.eqb name name') eqn:Hn; [| reflexivity].
    apply String.eqb_eq in Hn. contradiction.
  - destruct (String.eqb k name) eqn:Hk; simpl.
    + apply String.eqb_eq in Hk. subst k.
      destruct (String.eqb name name') eqn:Hn; [| reflexivity].
      apply String.eqb_eq in Hn. contradiction.
    + rewrite IH. reflexivity.
Qed.

Lemma run_skipped options href d :
  not_skipped options href -> skipped options href d = Ok (false, d).
Proof.
  unfold not_skipped, skipped. destruct (urlFilter options) as [f |].
  - intros ->. reflexivity.
  - intros (h & -> & ->). reflexivity.
Qed.

Lemma run_createElement ns r tag :
  createElement tag (Document ns r) =
  Ok (length ns, Document (ns ++ [Node (Element tag [] []) None None]) r).
Proof. reflexivity. Qed.

Lemma run_createTextNode ns r v :
  createTextNode v (Document ns r) =
  Ok (length ns, Document (ns ++ [Node (Text v) None None]) r).
Proof. reflexivity. Qed.

Lemma lookup_snoc {A} (l : list A) (x : A) : (l ++ [x])%list !! length l = Some x.
Proof. apply list_lookup_middle. reflexivity. Qed.


Ltac len :=
  repeat (rewrite length_app || rewrite length_insert); simpl length; lia.

Ltac fix_index :=
  repeat match goal with
  | |- context [?a - ?b] =>
      first [ replace (a - b) with 0 by len
            | replace (a - b) with 1 by len
            | replace (a - b) with 2 by len
            | replace (a - b) with 3 by len
            | replace (a - b) with 4 by len
            | replace (a - b) with 5 by len ]
  end.

Ltac lookup_step :=
  first [ rewrite list_lookup_insert_eq by len
        | rewrite list_lookup_insert_ne by len
        | rewrite lookup_app_l by len
        | rewrite lookup_app_r by len ].

Ltac solve_lookup :=
  repeat lookup_step; fix_index; first [eassumption | reflexivity].

Ltac norm_step :=
  first [ rewrite <- app_assoc
        | rewrite insert_app_l by len
        | rewrite insert_app_r_alt by len
        | rewrite list_insert_insert_eq ].

Ltac norm := repeat norm_step; fix_index; simpl.

Lemma bind_assoc {S A B C} (m : St S A) (f : A -> St S B) (g : B -> St S C) s :
  bind (bind m f) g s = bind m (fun x => bind (f x) g) s.
Proof. unfold bind. destruct (m s) as [[a s'] | e]; reflexivity. Qed.

Lemma bind_ret {S A B} (a : A) (k : A -> St S B) s : bind (ret a) k s = k a s.
Proof. reflexivity. Qed.

Lemma bind_ext {S A B} (m : St S A) (k1 k2 : A -> St S B) s :
  (forall a s', k1 a s' = k2 a s') -> bind m k1 s = bind m k2 s.
Proof. intros H. unfold bind. destruct (m s) as [[a s'] | e]; [apply H | reflexivity]. Qed.

Lemma bind_get {S B} (k : S -> St S B) s : bind get k s = k s s.
Proof. reflexivity. Qed.

Ltac finish_state :=
  norm;
  repeat (rewrite length_app || rewrite length_insert); simpl length;
  rewrite ?Nat.add_succ_r, ?Nat.add_0_r.

Ltac run lem :=
  rewrite ?bind_assoc;
  erewrite bind_ok; [| eapply lem; first [solve_lookup | len | eassumption]]; norm.


(** Lines 134-140 on a link that sits in its parent's child list. *)
Lemma run_inline_style ns r l lk lnm p ptag pattrs pre post pp pnm sheet href :
  ns !! l = Some (Node lk (Some p) lnm) ->
  ns !! p = Some (Node (Element ptag pattrs (pre ++ l :: post)) pp pnm) ->
  NoDup (pre ++ l :: post) ->
  inline_style l sheet href (Document ns r) =
  Ok (tt,
      Document (<[p := Node (Element ptag pattrs (pre ++ l :: length ns :: post)) pp pnm]> ns
                ++ [Node (Element "style" [] [S (length ns)]) (Some p) href;
                    Node (Text sheet) (Some (length ns)) None]) r).
Proof.
  intros Hl Hp Hnd.
  pose proof (lookup_lt_Some _ _ _ Hl) as Hll.
  pose proof (lookup_lt_Some _ _ _ Hp) as Hpl.
  unfold inline_style.
  rewrite (bind_ok _ _ _ _ _ (run_createElement _ _ _)).
  rewrite (bind_ok _ _ _ _ _ (run_createTextNode _ _ _)).
  rewrite length_app. simpl length. rewrite Nat.add_1_r. norm.
  run run_appendChild_orphan.
  run run_insert_after.
  erewrite run_set_sourceName by solve_lookup. norm.
  reflexivity.
Qed.

End DomFacts.

(** ** The delivery rewriter: [embedLinkedStylesheet] *)

Module Delivery.
Import JsString Regex Dom Critters Statements DomFacts.

Section delivery.
Variable options : Options.
Variable cssFiles : gmap string string.

(** C8: a link whose [href] is selected by the filter, or, without a
    filter, matches [^(https?:)?//], is skipped: the call returns and
    the document is the one it was given, without a new [style] and
    with every attribute of the link as it was. *)
Theorem skipped_link_untouched d link tag attrs cs p nm :
  nodes d !! link = Some (Node (Element tag attrs cs) p nm) ->
  match urlFilter options with
  | Some f => f (attr_get "href" attrs) = true
  | None => exists h, attr_get "href" attrs = Some h /\ network_url h = true
  end ->
  embedLinkedStylesheet options link cssFiles d = Ok (tt, d).
Proof.
  intros Hlink Hskip. destruct d as [ns r]. simpl in Hlink.
  unfold embedLinkedStylesheet.
  run run_getAttribute. run run_getAttribute.
  unfold skipped.
  destruct (urlFilter options) as [f |].
  - unfold bind, ret. rewrite Hskip. reflexivity.
  - destruct Hskip as (h & -> & Hnet). unfold bind, ret. rewrite Hnet. reflexivity.
Qed.

(** C9: with [preload: false] a link that is not skipped gets a new
    [style] right after it, holding the text found in [cssFiles]; that
    is the whole effect: the only old node that changes is the parent
    (its child list), the only new nodes are the style and its text. *)
Theorem preload_false_only_inlines ns r l ltag lattrs lcs lnm p ptag pattrs pre post pp pnm :
  preload options = PreloadFalse ->
  ns !! l = Some (Node (Element ltag lattrs lcs) (Some p) lnm) ->
  ns !! p = Some (Node (Element ptag pattrs (pre ++ l :: post)) pp pnm) ->
  NoDup (pre ++ l :: post) ->
  not_skipped options (attr_get "href" lattrs) ->
  embedLinkedStylesheet options l cssFiles (Document ns r) =
  Ok (tt,
      Document (<[p := Node (Element ptag pattrs (pre ++ l :: length ns :: post)) pp pnm]> ns
                ++ [Node (Element "style" [] [S (length ns)]) (Some p) (attr_get "href" lattrs);
                    Node (Text (read_property cssFiles (to_String (attr_get "href" lattrs))))
                         (Some (length ns)) None]) r).
Proof.
  intros Hmode Hl Hp Hnd Hns.
  unfold embedLinkedStylesheet.
  run run_getAttribute. run run_getAttribute.
  rewrite (bind_ok _ _ _ _ _ (run_skipped _ _ _ Hns)).
  erewrite bind_ok; [| eapply run_inline_style; eassumption].
  rewrite Hmode. reflexivity.
Qed.


Lemma NoDup_insert_fresh (x l : node_id) pre post :
  NoDup (pre ++ l :: post) -> x ∉ (pre ++ l :: post)%list ->
  NoDup (pre ++ l :: x :: post).
Proof.
  intros Hnd Hx.
  apply NoDup_app in Hnd as (Hpre & Hdisj & Hpost).
  apply NoDup_cons in Hpost as [Hl Hpost].
  apply NoDup_app. split; [exact Hpre |]. split.
  - intros y Hy Hin. apply elem_of_cons in Hin as [-> | Hin].
    + apply (Hdisj l Hy). left.
    + apply elem_of_cons in Hin as [-> | Hin].
      * apply Hx. apply elem_of_app. left. exact Hy.
      * apply (Hdisj y Hy). right. exact Hin.
  - apply NoDup_cons. split.
    + intros Hin. apply elem_of_cons in Hin as [-> | Hin].
      * apply Hx. apply elem_of_app. right. left.
      * apply Hl. exact Hin.
    + apply NoDup_cons. split; [| exact Hpost].
      intros Hin. apply Hx. apply elem_of_app. right. right. exact Hin.
Qed.

(** Lines 180-188 after a link that sits in its parent's child list. *)
Lemma run_add_noscript ns r l lk lnm p ptag pattrs pre post pp pnm href media :
  ns !! l = Some (Node lk (Some p) lnm) ->
  ns !! p = Some (Node (Element ptag pattrs (pre ++ l :: post)) pp pnm) ->
  NoDup (pre ++ l :: post) ->
  add_noscript l href media (Document ns r) =
  Ok (tt,
      Document (<[p := Node (Element ptag pattrs (pre ++ l :: length ns :: post)) pp pnm]> ns
                ++ [Node (Element "noscript" [] [S (length ns)]) (Some p) None;
                    Node (Element "link" (noscript_attrs href media) [])
                         (Some (length ns)) None]) r).
Proof.
  intros Hl Hp Hnd.
  pose proof (lookup_lt_Some _ _ _ Hl) as Hll.
  pose proof (lookup_lt_Some _ _ _ Hp) as Hpl.
  unfold add_noscript, noscript_attrs.
  rewrite (bind_ok _ _ _ _ _ (run_createElement _ _ _)).
  rewrite (bind_ok _ _ _ _ _ (run_createElement _ _ _)).
  rewrite length_app. simpl length. rewrite Nat.add_1_r. norm.
  run run_setAttribute. run run_setAttribute.
  destruct (truthy media).
  - run run_setAttribute.
    run run_appendChild_orphan.
    erewrite run_insert_after by first [solve_lookup | len | eassumption].
    norm. reflexivity.
  - rewrite (bind_ok _ _ _ _ _ eq_refl).
    run run_appendChild_orphan.
    erewrite run_insert_after by first [solve_lookup | len | eassumption].
    norm. reflexivity.
Qed.

(** Lines 134-188 under [preload: "swap"] with the fallback not
    disabled, on a link that sits in the child list of its parent: the
    document the call returns. *)
Lemma swap_rewrites_link ns r l ltag lattrs lcs lnm p ptag pattrs pre post pp pnm :
  preload options = PreloadString "swap" ->
  noscriptFallback options <> Some false ->
  ns !! l = Some (Node (Element ltag lattrs lcs) (Some p) lnm) ->
  ns !! p = Some (Node (Element ptag pattrs (pre ++ l :: post)) pp pnm) ->
  NoDup (pre ++ l :: post) ->
  length ns ∉ (pre ++ l :: post)%list ->
  l <> p ->
  not_skipped options (attr_get "href" lattrs) ->
  let href := attr_get "href" lattrs in
  let media := attr_get "media" lattrs in
  let n := length ns in
  let rewritten :=
    attr_set "onload" "this.rel='stylesheet'"
      (attr_set "as" "style" (attr_set "rel" "preload" lattrs)) in
  embedLinkedStylesheet options l cssFiles (Document ns r) =
    Ok (tt,
        Document
          (<[l := Node (Element ltag rewritten lcs) (Some p) lnm]>
             (<[p := Node (Element ptag pattrs (pre ++ l :: (n + 2) :: n :: post)) pp pnm]> ns)
           ++ [Node (Element "style" [] [n + 1]) (Some p) href;
               Node (Text (read_property cssFiles (to_String href))) (Some n) None;
               Node (Element "noscript" [] [n + 3]) (Some p) None;
               Node (Element "link" (noscript_attrs href media) []) (Some (n + 2)) None]) r)
  /\ attr_get "rel" rewritten = Some "preload"
  /\ attr_get "as" rewritten = Some "style"
  /\ attr_get "onload" rewritten = Some "this.rel='stylesheet'"
  /\ attr_get "href" rewritten = href.
Proof.
  intros Hmode Hfb Hl Hp Hnd Hfresh Hne Hns href media n rewritten.
  subst href media n rewritten.
  split; [| split; [| split; [| split]]];
    [| rewrite !attr_get_set_ne by discriminate; apply attr_get_set_eq
     | rewrite attr_get_set_ne by discriminate; apply attr_get_set_eq
     | apply attr_get_set_eq
     | rewrite !attr_get_set_ne by discriminate; reflexivity].
  pose proof (lookup_lt_Some _ _ _ Hl) as Hll.
  pose proof (lookup_lt_Some _ _ _ Hp) as Hpl.
  unfold embedLinkedStylesheet.
  run run_getAttribute. run run_getAttribute.
  rewrite (bind_ok _ _ _ _ _ (run_skipped _ _ _ Hns)).
  erewrite bind_ok; [| eapply run_inline_style; eassumption].
  rewrite Hmode. unfold rewrite_link. rewrite Hmode. simpl.
  run run_setAttribute. run run_setAttribute. run run_setAttribute.
  rewrite bind_ret.
  destruct (noscriptFallback options) as [[|] |]; try congruence; simpl.
  - erewrite run_add_noscript; [| solve_lookup | solve_lookup | ].
    + finish_state.
      rewrite (list_insert_insert_ne _ p l) by lia.
      rewrite list_insert_insert_eq. reflexivity.
    + apply NoDup_insert_fresh; assumption.
  - erewrite run_add_noscript; [| solve_lookup | solve_lookup | ].
    + finish_state.
      rewrite (list_insert_insert_ne _ p l) by lia.
      rewrite list_insert_insert_eq. reflexivity.
    + apply NoDup_insert_fresh; assumption.
Qed.

End delivery.

End Delivery.

(** ** The rule pruner: the first walk of [processStyle] *)

Module Pruner.
Import JsString Regex Dom Css Critters Statements CssFacts DomFacts.

Section pruner.
Variable querySelector : document -> string -> result (option node_id).
Variable d : document.

Local Abbreviation answers := (Statements.answers querySelector d).

Lemma selector_matches_answers sel :
  answers sel ->
  selector_matches querySelector d sel = Ok (matches querySelector d sel).
Proof.
  intros [o Ho]. unfold selector_matches, matches. rewrite Ho.
  destruct o; reflexivity.
Qed.

Lemma filter_selectors sels (cf : string) :
  Forall answers sels ->
  filter_st (fun sel => pure_of (selector_matches querySelector d sel)) sels cf =
  Ok (List.filter (matches querySelector d) sels, cf).
Proof.
  induction 1 as [| sel sels Hsel _ IH]; simpl; [reflexivity |].
  unfold bind at 1. unfold pure_of at 1.
  rewrite (selector_matches_answers _ Hsel).
  rewrite (bind_ok _ _ _ _ _ IH). unfold ret.
  destruct (matches querySelector d sel); reflexivity.
Qed.

Lemma walk_rule_pruned r :
  forall cf, Forall answers (selectors_in r) ->
  walk_rule (prune_iterator querySelector d) r cf =
  Ok (pruned (matches querySelector d) r, corpus (matches querySelector d) r cf).
Proof.
  induction r as [sels decls | decls | h rs IH | t] using rule_nested_ind;
    intros cf Hans.
  - simpl in Hans. simpl. unfold visit, prune_iterator.
    rewrite bind_assoc.
    rewrite (bind_ok _ _ _ _ _ (filter_selectors _ _ Hans)).
    destruct (List.filter (matches querySelector d) sels) as [| s0 rest]; reflexivity.
  - reflexivity.
  - rewrite walk_rule_container.
    assert (Hlist : forall cf0,
      Forall answers (flat_map selectors_in rs) ->
      walk_list (prune_iterator querySelector d) rs cf0 =
      Ok (omap (pruned (matches querySelector d)) rs,
          fold_left (fun acc r0 => corpus (matches querySelector d) r0 acc) rs cf0)).
    { clear Hans cf. induction IH as [| r rs Hr _ IHrs]; intros cf0 Hans.
      - reflexivity.
      - simpl in Hans. apply Forall_app in Hans as [Hans1 Hans2].
        simpl. rewrite (bind_ok _ _ _ _ _ (Hr _ Hans1)).
        rewrite (bind_ok _ _ _ _ _ (IHrs _ Hans2)).
        unfold ret. destruct (pruned (matches querySelector d) r); reflexivity. }
    rewrite (bind_ok _ _ _ _ _ (Hlist _ Hans)).
    simpl.
    destruct (omap (pruned (matches querySelector d)) rs); reflexivity.
  - reflexivity.
Qed.

(** The pruner of the specification, case by case. *)
Lemma pruned_no_match m sels decls :
  Forall (fun sel => m sel = false) sels -> pruned m (StyleRule sels decls) = None.
Proof.
  intros Hall. simpl.
  replace (List.filter m sels) with (@nil string); [reflexivity |].
  induction Hall as [| sel sels Hsel _ IH]; simpl; [reflexivity |].
  rewrite Hsel. exact IH.
Qed.

Lemma pruned_some_match m sels decls :
  Exists (fun sel => m sel = true) sels ->
  pruned m (StyleRule sels decls) = Some (StyleRule (List.filter m sels) decls).
Proof.
  intros Hex. simpl.
  destruct (List.filter m sels) as [| s0 rest] eqn:Hf; [| reflexivity].
  exfalso. apply Exists_exists in Hex as (sel & Hin & Hsel).
  assert (Hmem : In sel (List.filter m sels)).
  { apply filter_In. split; [apply list_elem_of_In; exact Hin | exact Hsel]. }
  rewrite Hf in Hmem. destruct Hmem.
Qed.

Lemma pruned_empty_container m h rs :
  omap (pruned m) rs = [] -> pruned m (ContainerRule h rs) = None.
Proof. intros Hempty. simpl. rewrite Hempty. reflexivity. Qed.

(** C5: when the selector engine answers for every selector of the
    stylesheet, the first walk returns the stylesheet pruned as the
    specification says: a style rule keeps exactly its matching
    selectors, in order, and is absent when none matches; a container is
    pruned inside first and is absent when no child is left. *)
Theorem prune_meets_spec (ast : stylesheet) :
  Forall answers (flat_map selectors_in ast) ->
  prune querySelector d ast =
  Ok (omap (pruned (matches querySelector d)) ast,
      fold_left (fun acc r => corpus (matches querySelector d) r acc) ast "").
Proof.
  unfold prune, walkStyleRules. generalize "" as cf.
  induction ast as [| r rs IH]; intros cf Hans.
  - reflexivity.
  - simpl in Hans. apply Forall_app in Hans as [Hans1 Hans2].
    simpl. rewrite (bind_ok _ _ _ _ _ (walk_rule_pruned _ _ Hans1)).
    rewrite (bind_ok _ _ _ _ _ (IH _ Hans2)).
    unfold ret. destruct (pruned (matches querySelector d) r); reflexivity.
Qed.

End pruner.
End Pruner.

(** ** The font analyser: the second walk of [processStyle] *)

Module Fonts.
Import JsString Regex Dom Css Critters Statements CssFacts DomFacts.
Section fonts.
Variable options : Options.
Variables (ns : list node) (r h : node_id) (ht : string) (ha : list (string * string))
  (hcs : list node_id) (hp : option node_id) (hnm : option string).
Hypothesis Hhead : ns !! h = Some (Node (Element ht ha hcs) hp hnm).

Local Abbreviation st := (preloaded_state ns r h ht ha hcs hp hnm).

Lemma lift_dom_ok {A} (m : M A) s a d' :
  m (dom s) = Ok (a, d') -> lift_dom m s = Ok (a, FontState (preloadedFonts s) d').
Proof. intros H. unfold lift_dom. rewrite H. reflexivity. Qed.

Lemma append_preload (L : list node) (src : string) cs :
  L !! h = Some (Node (Element ht ha cs) hp hnm) ->
  (let* preload := createElement "link" in
   setAttribute preload "rel" "preload" ;;
   setAttribute preload "as" "font" ;;
   (if has_scheme src then setAttribute preload "crossorigin" "anonymous"
    else ret tt) ;;
   setAttribute preload "href" (trim src) ;;
   appendChild h preload) (Document L r) =
  Ok (tt, Document (<[h := Node (Element ht ha (cs ++ [length L])) hp hnm]> L
                    ++ [preload_link h src]) r).
Proof.
  intros HL. pose proof (lookup_lt_Some _ _ _ HL) as Hlt.
  rewrite (bind_ok _ _ _ _ _ (run_createElement _ _ _)).
  run run_setAttribute. run run_setAttribute.
  unfold preload_link.
  destruct (has_scheme src).
  - run run_setAttribute. run run_setAttribute.
    erewrite run_appendChild_orphan by first [solve_lookup | len].
    finish_state. reflexivity.
  - rewrite bind_ret. run run_setAttribute.
    erewrite run_appendChild_orphan by first [solve_lookup | len].
    finish_state. reflexivity.
Qed.

Lemma preload_font_run us src :
  preload_font (Some h) src (st us) = Ok (tt, st (us ++ [src])).
Proof.
  pose proof (lookup_lt_Some _ _ _ Hhead) as Hlt.
  unfold preload_font. rewrite (bind_ok _ _ _ _ _ eq_refl).
  rewrite (bind_ok _ _ _ _ _ eq_refl).
  erewrite lift_dom_ok; cycle 1.
  { simpl dom. unfold with_preloads. apply append_preload.
    rewrite lookup_app_l by len.
    rewrite list_lookup_insert_eq by lia. reflexivity. }
  unfold preloaded_state, with_preloads. simpl. f_equal. f_equal. f_equal.
  rewrite insert_app_l by len. rewrite list_insert_insert_eq.
  rewrite length_app, length_insert, length_map.
  rewrite map_app, length_app. simpl. rewrite seq_app. simpl.
  rewrite <- !app_assoc. reflexivity.
Qed.


Lemma font_iterator_run cf rl us :
  font_iterator options (Some h) cf rl (st us) =
  Ok ((match font_kept options cf rl with
       | Some _ => true
       | None => false
       end, rl),
      st (fold_left add_once
            (match rl with FontFaceRule _ => preload_urls options rl | _ => [] end) us)).
Proof.
  destruct rl as [sels decls | decls | hd rs | t]; try reflexivity.
  unfold font_iterator, font_kept, preload_urls, font_src.
  destruct (family_and_src decls None None) as [family src]. simpl snd.
  rewrite (bind_ok _ _ _ _ _ eq_refl). simpl preloadedFonts.
  destruct (truthy src && shouldPreloadFonts options) eqn:Hpre; simpl.
  - unfold add_once.
    destruct (is_preloaded (default "" src) us); simpl.
    + rewrite bind_ret. unfold ret.
      destruct (font_dropped options cf family src); reflexivity.
    + rewrite (bind_ok _ _ _ _ _ (preload_font_run _ _)). unfold ret.
      destruct (font_dropped options cf family src); reflexivity.
  - rewrite bind_ret. unfold ret.
    destruct (font_dropped options cf family src); reflexivity.
Qed.

Lemma visit_font_leaf cf rl us :
  match rl with ContainerRule _ _ => False | _ => True end ->
  visit (font_iterator options (Some h) cf) rl (st us) =
  Ok (font_kept options cf rl, st (fold_left add_once (preload_urls options rl) us)).
Proof.
  intros Hleaf. unfold visit.
  rewrite (bind_ok _ _ _ _ _ (font_iterator_run _ _ _)). unfold ret.
  destruct rl as [sels decls | decls | hd rs | t]; try reflexivity.
  - destruct (font_kept options cf (FontFaceRule decls)) eqn:Hk.
    + unfold font_kept in Hk.
      destruct (family_and_src decls None None).
      destruct (font_dropped options cf o o0); congruence.
    + reflexivity.
  - destruct Hleaf.
Qed.

Lemma walk_rule_fonts cf rl :
  forall us,
  walk_rule (font_iterator options (Some h) cf) rl (st us) =
  Ok (font_kept options cf rl, st (fold_left add_once (preload_urls options rl) us)).
Proof.
  induction rl as [sels decls | decls | hd rs IH | t] using rule_nested_ind; intros us.
  - apply (visit_font_leaf cf (StyleRule sels decls)). exact I.
  - apply (visit_font_leaf cf (FontFaceRule decls)). exact I.
  - rewrite walk_rule_container.
    assert (Hlist : forall us0,
      walk_list (font_iterator options (Some h) cf) rs (st us0) =
      Ok (omap (font_kept options cf) rs,
          st (fold_left add_once (flat_map (preload_urls options) rs) us0))).
    { induction IH as [| r0 rs Hr _ IHrs]; intros us0.
      - reflexivity.
      - simpl. rewrite (bind_ok _ _ _ _ _ (Hr _)).
        rewrite (bind_ok _ _ _ _ _ (IHrs _)).
        rewrite fold_left_app. unfold ret.
        destruct (font_kept options cf r0); reflexivity. }
    rewrite (bind_ok _ _ _ _ _ (Hlist _)). reflexivity.
  - apply (visit_font_leaf cf (OtherRule t)). exact I.
Qed.

Lemma walk_list_fonts cf rs :
  forall us,
  walk_list (font_iterator options (Some h) cf) rs (st us) =
  Ok (omap (font_kept options cf) rs,
      st (fold_left add_once (flat_map (preload_urls options) rs) us)).
Proof.
  induction rs as [| r0 rs IH]; intros us.
  - reflexivity.
  - simpl. rewrite (bind_ok _ _ _ _ _ (walk_rule_fonts _ _ _)).
    rewrite (bind_ok _ _ _ _ _ (IH _)).
    rewrite fold_left_app. unfold ret.
    destruct (font_kept options cf r0); reflexivity.
Qed.

End fonts.

Lemma is_preloaded_spec url seen : is_preloaded url seen = true <-> url ∈ seen.
Proof.
  unfold is_preloaded. rewrite existsb_exists. split.
  - intros (x & Hin & Heq). apply String.eqb_eq in Heq. subst x.
    apply list_elem_of_In. exact Hin.
  - intros Hin. exists url. split.
    + apply list_elem_of_In. exact Hin.
    + apply String.eqb_refl.
Qed.

Lemma add_once_NoDup urls : forall seen,
  NoDup seen -> NoDup (fold_left add_once urls seen).
Proof.
  induction urls as [| u urls IH]; intros seen Hnd; simpl; [exact Hnd |].
  apply IH. unfold add_once.
  destruct (is_preloaded u seen) eqn:Hp; [exact Hnd |].
  apply NoDup_app. split; [exact Hnd |]. split.
  - intros x Hx Hin. apply list_elem_of_singleton in Hin. subst x.
    apply is_preloaded_spec in Hx. congruence.
  - apply NoDup_singleton.
Qed.

Lemma add_once_elem urls : forall seen u,
  u ∈ fold_left add_once urls seen <-> u ∈ seen \/ u ∈ urls.
Proof.
  induction urls as [| v urls IH]; intros seen u; simpl.
  - split; [intros H; left; exact H | intros [H | H]; [exact H |]].
    apply elem_of_nil in H. destruct H.
  - rewrite IH. unfold add_once.
    destruct (is_preloaded v seen) eqn:Hp.
    + apply is_preloaded_spec in Hp. rewrite elem_of_cons.
      split; [intros [H | H]; auto | intros [H | [-> | H]]; auto].
    + rewrite elem_of_app, list_elem_of_singleton, elem_of_cons.
      split; [intros [[H | H] | H]; auto | intros [H | [H | H]]; auto].
Qed.

(** C7, amended: within one call of [processStyle] (one stylesheet) each
    distinct URL the font-face rules ask to preload gets exactly one
    [link rel="preload" as="font"], appended to the head in order of
    first occurrence, with [crossorigin="anonymous"] exactly when the
    URL contains [://]. The array of preloaded URLs is local to the
    call. *)
Theorem font_pass_preloads_once options ns r h ht ha hcs hp hnm cf (ast : stylesheet) :
  ns !! h = Some (Node (Element ht ha hcs) hp hnm) ->
  let urls := distinct_urls options ast in
  font_pass options (Some h) cf ast (Document ns r) =
    Ok (omap (font_kept options cf) ast,
        with_preloads ns r h ht ha hcs hp hnm urls)
  /\ NoDup urls
  /\ (forall u, u ∈ urls <-> u ∈ flat_map (preload_urls options) ast).
Proof.
  intros Hhead urls. split; [| split].
  - unfold font_pass, walkStyleRules.
    assert (Hstart : FontState [] (Document ns r) =
                     preloaded_state ns r h ht ha hcs hp hnm []).
    { unfold preloaded_state, with_preloads. simpl. rewrite !app_nil_r.
      rewrite list_insert_id by exact Hhead. reflexivity. }
    rewrite Hstart.
    rewrite (walk_list_fonts options ns r h ht ha hcs hp hnm Hhead cf ast []).
    reflexivity.
  - apply add_once_NoDup. apply NoDup_nil_2.
  - intros u. unfold urls, distinct_urls. rewrite add_once_elem.
    split; [intros [H | H]; [apply elem_of_nil in H; destruct H | exact H] | auto].
Qed.

End Fonts.


(** ** What [processStyle] leaves in place *)

Module Hoare.
Import JsString Regex Dom Css Critters Statements CssFacts DomFacts.

Lemma hoare_bind {S A B} (P : S -> Prop) (Q : A -> S -> Prop) (R : B -> S -> Prop)
    (m : St S A) (k : A -> St S B) :
  hoare P m Q -> (forall a, hoare (Q a) (k a) R) -> hoare P (bind m k) R.
Proof.
  intros Hm Hk s b s' HP Hrun. unfold bind in Hrun.
  destruct (m s) as [[a s1] | e] eqn:Hms; [| discriminate].
  eapply Hk; [| exact Hrun]. eapply Hm; eauto.
Qed.

Lemma hoare_ret {S A} (P : S -> Prop) (a : A) : hoare P (ret a) (fun _ => P).
Proof. intros s a' s' HP Hrun. inversion Hrun. subst. exact HP. Qed.

Lemma hoare_throw {S A} (P : S -> Prop) (Q : A -> S -> Prop) e : hoare P (throw e) Q.
Proof. intros s a s' _ Hrun. discriminate Hrun. Qed.

Lemma hoare_weaken {S A} (P : S -> Prop) (Q Q' : A -> S -> Prop) (m : St S A) :
  hoare P m Q -> (forall a s, Q a s -> Q' a s) -> hoare P m Q'.
Proof. intros Hm HQ s a s' HP Hrun. apply HQ. eapply Hm; eauto. Qed.

Section anchor.
Variables (style p : node_id).

Local Abbreviation Inv := (anchored style p).

(** The node read is the node of the store. *)
Lemma hoare_node_at i :
  hoare Inv (node_at i) (fun n d => Inv d /\ nodes d !! i = Some n).
Proof.
  intros d n d' HI Hrun. unfold node_at in Hrun.
  destruct (nodes d !! i) as [n0 |] eqn:Hi; [| discriminate].
  inversion Hrun. subst. auto.
Qed.

Lemma inv_set_node d i n n0 :
  Inv d -> nodes d !! i = Some n0 ->
  parentNode n = parentNode n0 ->
  (i = style -> style ∉ kids (kind n)) ->
  Inv (Document (<[i := n]> (nodes d)) (root d)).
Proof.
  intros (k & nm & Hs & Hk) Hi Hpar Hkids.
  destruct (decide (i = style)) as [-> | Hne].
  - rewrite Hs in Hi. inversion Hi. subst n0. destruct n as [k' p' nm'].
    simpl in Hpar. subst p'. exists k', nm'. split.
    + simpl. apply list_lookup_insert_eq. eapply lookup_lt_Some. exact Hs.
    + apply Hkids. reflexivity.
  - exists k, nm. split; [| exact Hk]. simpl.
    rewrite list_lookup_insert_ne by exact Hne. exact Hs.
Qed.

Lemma inv_set_other d i n :
  Inv d -> i <> style -> Inv (Document (<[i := n]> (nodes d)) (root d)).
Proof.
  intros (k & nm & Hs & Hk) Hne. exists k, nm. split; [| exact Hk]. simpl.
  rewrite list_lookup_insert_ne by exact Hne. exact Hs.
Qed.

Lemma hoare_set_kind i k :
  (i = style -> style ∉ kids k) ->
  hoare Inv (set_kind i k) (fun _ => Inv).
Proof.
  intros Hk. unfold set_kind.
  eapply hoare_bind; [apply hoare_node_at |].
  intros n d a d' [HI Hn] Hrun. inversion Hrun. subst.
  eapply inv_set_node; eauto.
Qed.

Lemma hoare_set_parent i q :
  i <> style -> hoare Inv (set_parent i q) (fun _ => Inv).
Proof.
  intros Hne. unfold set_parent.
  eapply hoare_bind; [apply hoare_node_at |].
  intros n d a d' [HI Hn] Hrun. inversion Hrun. subst.
  apply inv_set_other; assumption.
Qed.

Lemma inv_kids d n :
  Inv d -> nodes d !! style = Some n -> style ∉ kids (kind n).
Proof.
  intros (k & nm & Hs & Hk) Hn. rewrite Hs in Hn. inversion Hn. exact Hk.
Qed.

Lemma hoare_alloc k :
  hoare Inv (alloc k) (fun a d => Inv d /\ a <> style).
Proof.
  intros d a d' (k0 & nm & Hs & Hk) Hrun. inversion Hrun. subst.
  pose proof (lookup_lt_Some _ _ _ Hs) as Hlt. split; [| lia].
  exists k0, nm. split; [| exact Hk]. simpl.
  rewrite lookup_app_l by exact Hlt. exact Hs.
Qed.

Lemma hoare_setAttribute i name v :
  hoare Inv (setAttribute i name v) (fun _ => Inv).
Proof.
  unfold setAttribute.
  eapply hoare_bind; [apply hoare_node_at |].
  intros n. destruct (kind n) as [t a cs | |] eqn:Hkind;
    try apply hoare_throw.
  intros d x d' [HI Hn] Hrun.
  eapply (hoare_set_kind i (Element t (attr_set name v a) cs)); [| exact HI | exact Hrun].
  intros ->. pose proof (inv_kids _ _ HI Hn) as Hk.
  rewrite Hkind in Hk. exact Hk.
Qed.

Lemma not_in_without c cs : style ∉ cs -> style ∉ without c cs.
Proof.
  intros Hn Hin. apply Hn. unfold without in Hin.
  apply list_elem_of_In in Hin. apply filter_In in Hin as [Hin _].
  apply list_elem_of_In. exact Hin.
Qed.

Lemma hoare_detach c :
  c <> style -> hoare Inv (detach c) (fun _ => Inv).
Proof.
  intros Hne. unfold detach, get_parentNode.
  eapply hoare_bind.
  { eapply hoare_bind; [apply hoare_node_at |].
    intros n. eapply hoare_weaken; [apply hoare_ret |].
    intros a s H. exact (proj1 H). }
  intros [q |]; [| apply hoare_ret].
  eapply hoare_bind; [apply hoare_node_at |].
  intros n. destruct (kind n) as [t a cs | |] eqn:Hkind.
  - intros d x d' [HI Hn] Hrun.
    refine (hoare_bind Inv (fun _ => Inv) (fun _ => Inv) _ _ _ _ d x d' HI Hrun).
    + apply hoare_set_kind. intros ->.
      pose proof (inv_kids _ _ HI Hn) as Hk. rewrite Hkind in Hk.
      simpl. apply not_in_without. exact Hk.
    + intros _. apply hoare_set_parent. exact Hne.
  - intros d x d' [HI _]. apply hoare_set_parent; assumption.
  - intros d x d' [HI _]. apply hoare_set_parent; assumption.
Qed.

Lemma hoare_appendChild q c :
  c <> style -> hoare Inv (appendChild q c) (fun _ => Inv).
Proof.
  intros Hne. unfold appendChild.
  eapply hoare_bind; [apply hoare_detach; exact Hne |].
  intros u. eapply hoare_bind; [apply hoare_node_at |].
  intros n. destruct (kind n) as [t a cs | |] eqn:Hkind; try apply hoare_throw.
  intros d x d' [HI Hn] Hrun.
  refine (hoare_bind Inv (fun _ => Inv) (fun _ => Inv) _ _ _ _ d x d' HI Hrun).
  - apply hoare_set_kind. intros ->.
    pose proof (inv_kids _ _ HI Hn) as Hk. rewrite Hkind in Hk. simpl in *.
    intros Hin. apply elem_of_app in Hin as [Hin | Hin]; [exact (Hk Hin) |].
    apply list_elem_of_singleton in Hin. congruence.
  - intros _. apply hoare_set_parent. exact Hne.
Qed.

Lemma hoare_removeChild q c :
  c <> style -> hoare Inv (removeChild q c) (fun _ => Inv).
Proof.
  intros Hne. unfold removeChild.
  eapply hoare_bind; [apply hoare_node_at |].
  intros n. destruct (kind n) as [t a cs | |] eqn:Hkind; try apply hoare_throw.
  destruct (is_child c cs); [| apply hoare_throw].
  intros d x d' [HI Hn] Hrun.
  refine (hoare_bind Inv (fun _ => Inv) (fun _ => Inv) _ _ _ _ d x d' HI Hrun).
  - apply hoare_set_kind. intros ->.
    pose proof (inv_kids _ _ HI Hn) as Hk. rewrite Hkind in Hk.
    simpl. apply not_in_without. exact Hk.
  - intros _. apply hoare_set_parent. exact Hne.
Qed.

Lemma last_elem (cs : list node_id) c : last cs = Some c -> c ∈ cs.
Proof.
  intros H. apply last_Some in H as [l' ->].
  apply elem_of_app. right. left.
Qed.

Lemma hoare_lastChild_of_style :
  hoare Inv (get_lastChild style)
    (fun c d => Inv d /\ match c with Some c => c <> style | None => True end).
Proof.
  unfold get_lastChild, get_childNodes.
  intros d c d' HI Hrun. unfold bind, node_at in Hrun.
  destruct (nodes d !! style) as [n |] eqn:Hn; [| discriminate].
  pose proof (inv_kids _ _ HI Hn) as Hk.
  destruct (kind n) as [t a cs | |]; simpl in Hrun; inversion Hrun; subst;
    split; auto.
  destruct (last cs) as [c |] eqn:Hl; [| exact I].
  intros ->. apply Hk. simpl. apply last_elem. exact Hl.
Qed.

Lemma hoare_remove_children turns :
  hoare Inv (remove_children turns style) (fun _ => Inv).
Proof.
  induction turns as [| n IH]; simpl; [apply hoare_ret |].
  eapply hoare_bind; [apply hoare_lastChild_of_style |].
  intros [c |].
  - intros d x d' [HI Hc] Hrun.
    refine (hoare_bind Inv (fun _ => Inv) (fun _ => Inv) _ _ _ _ d x d' HI Hrun).
    + apply hoare_removeChild. exact Hc.
    + intros _. exact IH.
  - intros d x d' [HI _] Hrun. inversion Hrun. subst. exact HI.
Qed.


Lemma hoare_lift_dom {A} (P : document -> Prop) (Q : A -> document -> Prop) (m : M A) :
  hoare P m Q ->
  hoare (fun s => P (dom s)) (lift_dom m) (fun a s => Q a (dom s)).
Proof.
  intros Hm s a s' HP Hrun. unfold lift_dom in Hrun.
  destruct (m (dom s)) as [[a0 d0] | e] eqn:Hms; [| discriminate].
  inversion Hrun. subst. simpl. eapply Hm; eauto.
Qed.

Lemma hoare_preload_font head src :
  hoare (fun s => Inv (dom s)) (preload_font head src) (fun _ s => Inv (dom s)).
Proof.
  unfold preload_font.
  intros s a s' HI Hrun. unfold bind at 1 in Hrun. simpl in Hrun.
  unfold bind at 1 in Hrun. simpl in Hrun.
  revert Hrun.
  apply (hoare_lift_dom Inv (fun _ => Inv)); [| exact HI].
  eapply hoare_bind; [apply (hoare_alloc (Element "link" [] [])) |].
  intros preload d0 x d1 [HI0 Hne] Hrun.
  refine (hoare_bind Inv (fun _ => Inv) (fun _ => Inv) _ _ _ _ d0 x d1 HI0 Hrun);
    [apply hoare_setAttribute |].
  intros u. eapply hoare_bind; [apply hoare_setAttribute |].
  intros u0. eapply hoare_bind.
  { destruct (has_scheme src); [apply hoare_setAttribute | apply hoare_ret]. }
  intros u1. eapply hoare_bind; [apply hoare_setAttribute |].
  intros u2. destruct head as [h |]; [| apply hoare_throw].
  apply hoare_appendChild. exact Hne.
Qed.

Lemma hoare_font_iterator options head cf rl :
  hoare (fun s => Inv (dom s)) (font_iterator options head cf rl)
    (fun _ s => Inv (dom s)).
Proof.
  destruct rl as [sels decls | decls | hd rs | t]; try apply hoare_ret.
  unfold font_iterator.
  destruct (family_and_src decls None None) as [family src].
  intros s a s' HI Hrun. unfold bind at 1 in Hrun. simpl in Hrun.
  revert Hrun.
  apply (hoare_bind (fun s => Inv (dom s)) (fun _ s => Inv (dom s))
           (fun _ s => Inv (dom s))); [| | exact HI].
  - destruct (truthy src && shouldPreloadFonts options
              && negb (is_preloaded (default "" src) (preloadedFonts s)));
      [apply hoare_preload_font | apply hoare_ret].
  - intros u. apply hoare_ret.
Qed.

End anchor.

Section walks.
Context {S : Type}.
Variable I : S -> Prop.
Variable iterator : rule -> St S (bool * rule).
Hypothesis Hiter : forall rl, hoare I (iterator rl) (fun _ => I).

Lemma hoare_visit rl : hoare I (visit iterator rl) (fun _ => I).
Proof.
  unfold visit. eapply hoare_bind; [apply Hiter |].
  intros [keep r']. apply hoare_ret.
Qed.

Lemma hoare_walk_rule rl : hoare I (walk_rule iterator rl) (fun _ => I).
Proof.
  induction rl as [sels decls | decls | hd rs IH | t] using rule_nested_ind;
    try apply hoare_visit.
  rewrite walk_rule_container.
  assert (Hlist : hoare I (walk_list iterator rs) (fun _ => I)).
  { induction IH as [| r0 rs Hr _ IHrs]; simpl; [apply hoare_ret |].
    eapply hoare_bind; [exact Hr |]. intros o.
    eapply hoare_bind; [exact IHrs |]. intros rest. apply hoare_ret. }
  intros s a s' HI Hrun.
  refine (hoare_bind I (fun _ => I) (fun _ => I) _ _ Hlist _ s a s' HI Hrun).
  intros rs'. apply hoare_visit.
Qed.

Lemma hoare_walk_list rs : hoare I (walk_list iterator rs) (fun _ => I).
Proof.
  induction rs as [| r0 rs IH]; simpl; [apply hoare_ret |].
  eapply hoare_bind; [apply hoare_walk_rule |]. intros o.
  eapply hoare_bind; [exact IH |]. intros rest. apply hoare_ret.
Qed.

End walks.

Lemma hoare_font_pass style p options head cf ast :
  hoare (anchored style p) (font_pass options head cf ast) (fun _ => anchored style p).
Proof.
  intros d a d' HI Hrun. unfold font_pass, walkStyleRules in Hrun.
  destruct (walk_list (font_iterator options head cf) ast (FontState [] d))
    as [[ast' s] | e] eqn:Hwalk; [| discriminate].
  inversion Hrun. subst.
  eapply (hoare_walk_list (fun s => anchored style p (dom s))); [| | exact Hwalk].
  - intros rl. apply hoare_font_iterator.
  - exact HI.
Qed.

(** Reading the text of a style changes nothing. *)
Lemma get_nodeValue_pure c d v d' :
  get_nodeValue c d = Ok (v, d') -> d' = d.
Proof.
  unfold get_nodeValue, bind, node_at. intros Hrun.
  destruct (nodes d !! c) as [n |]; [| discriminate].
  destruct (kind n); inversion Hrun; reflexivity.
Qed.

Lemma map_nodeValue_pure cs : forall d vs d',
  map_st get_nodeValue cs d = Ok (vs, d') -> d' = d.
Proof.
  induction cs as [| c cs IH]; intros d vs d' Hrun; simpl in Hrun.
  - inversion Hrun. reflexivity.
  - unfold bind at 1 in Hrun.
    destruct (get_nodeValue c d) as [[y d0] | e] eqn:Hc; [| discriminate].
    apply get_nodeValue_pure in Hc. subst d0.
    unfold bind in Hrun.
    destruct (map_st get_nodeValue cs d) as [[ys d0] | e] eqn:Hrest; [| discriminate].
    inversion Hrun. subst. eapply IH. exact Hrest.
Qed.

Lemma style_text_pure style d v d' :
  style_text style d = Ok (v, d') -> d' = d.
Proof.
  unfold style_text, get_childNodes. unfold bind at 1. unfold bind at 1.
  unfold node_at. intros Hrun.
  destruct (nodes d !! style) as [n |]; [| discriminate].
  assert (Hcs : forall cs,
    (if Nat.ltb 0 (length cs)
     then let* values := map_st get_nodeValue cs in
          ret (Some (join newline (map joined values)))
     else ret None) d = Ok (v, d') -> d' = d).
  { intros cs H. destruct (Nat.ltb 0 (length cs)).
    - unfold bind in H.
      destruct (map_st get_nodeValue cs d) as [[ys d0] | e] eqn:Hmap; [| discriminate].
      inversion H. subst. eapply map_nodeValue_pure. exact Hmap.
    - inversion H. reflexivity. }
  destruct (kind n) as [t a cs | v0 | c]; simpl in Hrun.
  - apply (Hcs cs). exact Hrun.
  - apply (Hcs []). exact Hrun.
  - apply (Hcs []). exact Hrun.
Qed.


Lemma hoare_replace_text style p v :
  hoare (anchored style p)
    (let* cs := get_childNodes style in
     remove_children (length cs) style ;;
     let* text := createTextNode v in
     appendChild style text)
    (fun _ => anchored style p).
Proof.
  eapply hoare_bind.
  { unfold get_childNodes. eapply hoare_bind; [apply hoare_node_at |].
    intros n. apply hoare_weaken with (Q := fun _ d => anchored style p d /\ nodes d !! style = Some n).
    - destruct (kind n); intros d a d' H Hrun; inversion Hrun; subst; exact H.
    - intros a d H. exact (proj1 H). }
  intros cs. eapply hoare_bind; [apply hoare_remove_children |].
  intros u. eapply hoare_bind; [apply hoare_alloc |].
  intros text d x d' [HI Hne].
  apply (hoare_appendChild style p style text Hne d x d' HI).
Qed.

Lemma anchored_not_detached style p d : anchored style p d -> detached style d -> False.
Proof.
  intros (k & nm & Hs & _) (k' & nm' & Hs'). rewrite Hs in Hs'. discriminate Hs'.
Qed.

Section style.
Variable querySelector : document -> string -> result (option node_id).
Variable parseStylesheet : string -> result stylesheet.
Variable serializeStylesheet : stylesheet -> bool -> string.
Variable options : Options.

Local Abbreviation processStyle :=
  (Critters.processStyle querySelector parseStylesheet serializeStylesheet options).

(** C10: a [style] element without child nodes is left alone:
    [processStyle] returns and the document is unchanged. And a style
    that had a parent and has none afterwards had a non-empty text whose
    stylesheet, after both walks, serialises to a string that is empty
    once trimmed. *)
Theorem empty_style_is_left_alone style d tag attrs cs pp nm :
  nodes d !! style = Some (Node (Element tag attrs cs) pp nm) ->
  (cs = [] -> processStyle style d = Ok (tt, d))
  /\ (style ∉ cs ->
      forall p d', pp = Some p ->
      processStyle style d = Ok (tt, d') ->
      detached style d' ->
      exists text ast ast1 criticalFonts ast2 d1,
        style_text style d = Ok (Some text, d)
        /\ text <> ""
        /\ parseStylesheet text = Ok ast
        /\ prune querySelector d ast = Ok (ast1, criticalFonts)
        /\ font_pass options (first_by_tag "head" d) criticalFonts ast1 d = Ok (ast2, d1)
        /\ trim (serializeStylesheet ast2 (is_not_false (compress options))) = "").
Proof.
  intros Hstyle. split.
  - intros ->. destruct d as [ns r]. simpl in Hstyle.
    unfold Critters.processStyle. rewrite bind_get.
    unfold style_text.
    rewrite bind_assoc.
    erewrite bind_ok; [| eapply run_get_childNodes; exact Hstyle].
    reflexivity.
  - intros Hself p d' -> Hrun Hdet.
    assert (HI : anchored style p d).
    { exists (Element tag attrs cs), nm. split; [exact Hstyle | exact Hself]. }
    unfold Critters.processStyle in Hrun. rewrite bind_get in Hrun.
    unfold bind at 1 in Hrun.
    destruct (style_text style d) as [[sheet d0] | e] eqn:Htext; [| discriminate].
    pose proof (style_text_pure _ _ _ _ Htext) as ->.
    destruct sheet as [[| c text] |]; simpl in Hrun;
      try (inversion Hrun; subst d'; exfalso;
           exact (anchored_not_detached _ _ _ HI Hdet)).
    unfold bind at 1 in Hrun. unfold pure_of at 1 in Hrun.
    destruct (parseStylesheet (String c text)) as [ast | e] eqn:Hparse; [| discriminate].
    unfold bind at 1 in Hrun. unfold pure_of at 1 in Hrun.
    destruct (prune querySelector d ast) as [[ast1 cf] | e] eqn:Hprune; [| discriminate].
    unfold bind at 1 in Hrun.
    destruct (font_pass options (first_by_tag "head" d) cf ast1 d) as [[ast2 d1] | e]
      eqn:Hfont; [| discriminate].
    pose proof (hoare_font_pass style p _ _ _ _ _ _ _ HI Hfont) as HI1.
    destruct (Nat.eqb (String.length
                (trim (serializeStylesheet ast2 (is_not_false (compress options))))) 0)
      eqn:Hempty.
    + exists (String c text), ast, ast1, cf, ast2, d1.
      repeat split; try assumption; try discriminate.
      apply Nat.eqb_eq in Hempty.
      destruct (trim (serializeStylesheet ast2 (is_not_false (compress options))));
        [reflexivity | discriminate Hempty].
    + exfalso.
      pose proof (hoare_replace_text style p _ _ _ _ HI1 Hrun) as HI'.
      exact (anchored_not_detached _ _ _ HI' Hdet).
Qed.

End style.

End Hoare.


(** ** The selector matcher: errors of the selector engine *)

Module Matcher.
Import JsString Regex Dom Css Critters Statements CssFacts DomFacts Pruner.
Section matcher.
Variable querySelector : document -> string -> result (option node_id).
Variable d : document.

Local Abbreviation raises := (Statements.raises querySelector d).
Local Abbreviation iterator := (prune_iterator querySelector d).

Lemma filter_raises sels (cf : string) :
  Exists raises sels ->
  exists e,
    filter_st (fun sel => pure_of (selector_matches querySelector d sel)) sels cf = Throw e.
Proof.
  induction sels as [| sel sels IH]; intros Hex.
  - inversion Hex.
  - simpl. unfold bind at 1. unfold pure_of at 1, selector_matches.
    destruct (querySelector d (strip_pseudo sel)) as [o | e] eqn:Hq.
    + assert (Hrest : Exists raises sels).
      { inversion Hex as [x l [e He] | x l Hl]; subst; [congruence | exact Hl]. }
      destruct (IH Hrest) as [e He].
      exists e. destruct o; rewrite (bind_throw _ _ _ _ He); reflexivity.
    + exists e. reflexivity.
Qed.

Lemma walk_rule_raises rl :
  forall cf, Exists raises (selectors_in rl) ->
  exists e, walk_rule iterator rl cf = Throw e.
Proof.
  induction rl as [sels decls | decls | hd rs IH | t] using rule_nested_ind;
    intros cf Hex; simpl in Hex; try (inversion Hex; fail).
  - destruct (filter_raises sels cf Hex) as [e He]. exists e.
    simpl. unfold visit, prune_iterator. rewrite bind_assoc.
    apply bind_throw. exact He.
  - rewrite walk_rule_container.
    assert (Hlist : forall cf0, Exists raises (flat_map selectors_in rs) ->
              exists e, walk_list iterator rs cf0 = Throw e).
    { clear cf Hex. induction IH as [| r0 rs Hr _ IHrs]; intros cf0 Hex.
      - inversion Hex.
      - simpl in Hex. simpl. unfold bind at 1.
        destruct (walk_rule iterator r0 cf0) as [[o cf1] | e] eqn:Hw;
          [| exists e; reflexivity].
        apply Exists_app in Hex as [Hex | Hex].
        + destruct (Hr cf0 Hex) as [e He]. congruence.
        + destruct (IHrs cf1 Hex) as [e He]. exists e.
          apply bind_throw. exact He. }
    destruct (Hlist cf Hex) as [e He]. exists e. apply bind_throw. exact He.
Qed.

Lemma prune_raises (ast : stylesheet) :
  Exists raises (flat_map selectors_in ast) ->
  exists e, prune querySelector d ast = Throw e.
Proof.
  unfold prune, walkStyleRules. generalize "" as cf.
  induction ast as [| r0 rs IH]; intros cf Hex.
  - inversion Hex.
  - simpl in Hex. simpl. unfold bind at 1.
    destruct (walk_rule iterator r0 cf) as [[o cf1] | e] eqn:Hw;
      [| exists e; reflexivity].
    apply Exists_app in Hex as [Hex | Hex].
    + destruct (walk_rule_raises r0 cf Hex) as [e He]. congruence.
    + destruct (IH cf1 Hex) as [e He]. exists e. apply bind_throw. exact He.
Qed.

End matcher.

(** C4, amended: the matcher has no handler. When the selector engine
    raises on the stripped form of a selector of the stylesheet, the
    first walk raises and so does [processStyle]; a selector is taken as
    non-matching when the engine returns [null] for its stripped
    form. *)
Theorem selector_error_is_not_caught querySelector parseStylesheet serializeStylesheet
    options d style text (ast : stylesheet) :
  style_text style d = Ok (Some text, d) ->
  text <> "" ->
  parseStylesheet text = Ok ast ->
  Exists (raises querySelector d) (flat_map selectors_in ast) ->
  (exists e, prune querySelector d ast = Throw e)
  /\ (exists e,
        processStyle querySelector parseStylesheet serializeStylesheet options style d
        = Throw e)
  /\ (forall sel, querySelector d (strip_pseudo sel) = Ok None ->
        selector_matches querySelector d sel = Ok false).
Proof.
  intros Htext Hne Hparse Hex.
  destruct (prune_raises querySelector d ast Hex) as [e He].
  split; [exists e; exact He |]. split.
  - exists e. unfold processStyle. rewrite bind_get.
    rewrite (bind_ok _ _ _ _ _ Htext).
    destruct text as [| c text]; [congruence |]. simpl.
    unfold bind at 1. unfold pure_of at 1. rewrite Hparse.
    unfold bind at 1. unfold pure_of at 1. rewrite He. reflexivity.
  - intros sel Hq. unfold selector_matches. rewrite Hq. reflexivity.
Qed.

End Matcher.


(** ** A stylesheet that is missing from [cssFiles] *)

Module Missing.
Import JsString Regex Dom Css Critters Statements CssFacts DomFacts.

Section commute.
Variables (i : node_id) (v : js_value).

Local Abbreviation T := (retext i v).

Local Abbreviation commutes := (Statements.commutes i v).

Lemma commutes_ret {A} (a : A) : commutes (ret a).
Proof. intros d Hi. split; [reflexivity |]. intros a' d' H. inversion H. subst. exact Hi. Qed.

Lemma commutes_throw {A} e : commutes (@throw document A e).
Proof. intros d Hi. split; [reflexivity |]. intros a' d' H. discriminate H. Qed.

Lemma commutes_bind {A B} (m : M A) (k : A -> M B) :
  commutes m -> (forall a, commutes (k a)) -> commutes (bind m k).
Proof.
  intros Hm Hk d Hi. destruct (Hm d Hi) as [Hrun Hlen].
  unfold bind. rewrite Hrun.
  destruct (m d) as [[a d1] | e]; simpl.
  - destruct (Hk a d1 (Hlen a d1 eq_refl)) as [Hrun1 Hlen1].
    split; [exact Hrun1 | exact Hlen1].
  - split; [reflexivity | intros a d' H; discriminate H].
Qed.

Lemma set_data_kind_element n t a cs :
  kind n = Element t a cs -> set_data v n = n.
Proof. intros H. unfold set_data. rewrite H. reflexivity. Qed.

Lemma lookup_retext d j :
  nodes (T d) !! j = (if decide (i = j) then set_data v <$> nodes d !! i else nodes d !! j).
Proof. simpl. apply list_lookup_alter. Qed.

Lemma insert_alter_commute {A} (f : A -> A) (l : list A) i0 j (n' n : A) :
  (j = i0 -> n' = f n) -> (j <> i0 -> n' = n) ->
  <[j := n']> (alter f i0 l) = alter f i0 (<[j := n]> l).
Proof.
  intros Heq Hne.
  destruct (decide (j = i0)) as [-> | Hji].
  - rewrite (Heq eq_refl). rewrite !list_insert_alter.
    rewrite !list_alter_alter_eq. apply list_alter_ext; [| reflexivity].
    intros x _. reflexivity.
  - rewrite (Hne Hji). rewrite !list_insert_alter.
    apply list_alter_alter_ne. exact Hji.
Qed.

(** Writing a node that is its own retexting, or another node. *)
Lemma set_node_retext d j n' n :
  (j = i -> n' = set_data v n) -> (j <> i -> n' = n) ->
  Document (<[j := n']> (nodes (T d))) (root (T d)) =
  T (Document (<[j := n]> (nodes d)) (root d)).
Proof.
  intros Heq Hne. unfold retext. simpl. f_equal.
  apply insert_alter_commute; assumption.
Qed.

(** Reading a node and going on by its kind only. *)
Lemma commutes_by_kind {A} j (k : node -> M A) :
  (forall n, commutes (k n)) ->
  (forall n, k (set_data v n) = k n) ->
  commutes (bind (node_at j) k).
Proof.
  intros Hk Hsame d Hi. unfold bind, node_at. rewrite lookup_retext.
  destruct (decide (i = j)) as [<- | Hne].
  - destruct (nodes d !! i) as [n |] eqn:Hn; simpl.
    + rewrite Hsame. apply Hk. exact Hi.
    + split; [reflexivity | intros a d' H; discriminate H].
  - destruct (nodes d !! j) as [n |] eqn:Hn; simpl.
    + apply Hk. exact Hi.
    + split; [reflexivity | intros a d' H; discriminate H].
Qed.

Lemma commutes_set_node_after j (mk : node -> node) :
  (forall n, mk (set_data v n) = set_data v (mk n)) ->
  commutes (let* n := node_at j in set_node j (mk n)).
Proof.
  intros Hmk d Hi. unfold bind, node_at. rewrite lookup_retext.
  destruct (decide (i = j)) as [<- | Hne].
  - destruct (nodes d !! i) as [n |] eqn:Hn; simpl.
    + split.
      * unfold set_node. f_equal. f_equal.
        apply set_node_retext; [intros _; apply Hmk | congruence].
      * intros a d' H. inversion H. subst. simpl. rewrite length_insert. exact Hi.
    + split; [reflexivity | intros a d' H; discriminate H].
  - destruct (nodes d !! j) as [n |] eqn:Hn; simpl.
    + split.
      * unfold set_node. f_equal. f_equal.
        apply set_node_retext; [congruence | reflexivity].
      * intros a d' H. inversion H. subst. simpl. rewrite length_insert. exact Hi.
    + split; [reflexivity | intros a d' H; discriminate H].
Qed.

Lemma commutes_set_kind j t a cs : commutes (set_kind j (Element t a cs)).
Proof.
  apply (commutes_set_node_after j
           (fun n => Node (Element t a cs) (parentNode n) (sourceName n))).
  intros [[t0 a0 cs0 | v0 | c0] p0 nm0]; reflexivity.
Qed.

Lemma commutes_set_parent j q : commutes (set_parent j q).
Proof.
  apply (commutes_set_node_after j (fun n => Node (kind n) q (sourceName n))).
  intros [[t0 a0 cs0 | v0 | c0] p0 nm0]; reflexivity.
Qed.

Lemma commutes_set_sourceName j nm : commutes (set_sourceName j nm).
Proof.
  apply (commutes_set_node_after j (fun n => Node (kind n) (parentNode n) nm)).
  intros [[t0 a0 cs0 | v0 | c0] p0 nm0]; reflexivity.
Qed.

Lemma commutes_alloc k : commutes (alloc k).
Proof.
  intros d Hi. split.
  - unfold alloc, retext. simpl. rewrite length_alter.
    rewrite alter_app_l by exact Hi. reflexivity.
  - intros a d' H. inversion H. subst. simpl. rewrite length_app. lia.
Qed.


Ltac by_kind :=
  apply commutes_by_kind;
  [ intros [[t0 a0 cs0 | v0 | c0] p0 nm0]; simpl
  | intros [[t0 a0 cs0 | v0 | c0] p0 nm0]; reflexivity ].

Lemma commutes_getAttribute j name : commutes (getAttribute j name).
Proof. unfold getAttribute. by_kind; first [apply commutes_ret | apply commutes_throw]. Qed.

Lemma commutes_setAttribute j name x : commutes (setAttribute j name x).
Proof.
  unfold setAttribute. by_kind; first [apply commutes_set_kind | apply commutes_throw].
Qed.

Lemma commutes_removeAttribute j name : commutes (removeAttribute j name).
Proof.
  unfold removeAttribute. by_kind; first [apply commutes_set_kind | apply commutes_throw].
Qed.

Lemma commutes_get_parentNode j : commutes (get_parentNode j).
Proof. unfold get_parentNode. by_kind; apply commutes_ret. Qed.

Lemma commutes_get_childNodes j : commutes (get_childNodes j).
Proof. unfold get_childNodes. by_kind; apply commutes_ret. Qed.

Lemma commutes_get_nextSibling j : commutes (get_nextSibling j).
Proof.
  unfold get_nextSibling. apply commutes_bind; [apply commutes_get_parentNode |].
  intros [q |]; [| apply commutes_ret].
  apply commutes_bind; [apply commutes_get_childNodes |].
  intros cs. apply commutes_ret.
Qed.

Lemma commutes_detach j : commutes (detach j).
Proof.
  unfold detach. apply commutes_bind; [apply commutes_get_parentNode |].
  intros [q |]; [| apply commutes_ret].
  by_kind; try apply commutes_set_parent.
  apply commutes_bind; [apply commutes_set_kind |].
  intros u. apply commutes_set_parent.
Qed.

Lemma commutes_appendChild q c : commutes (appendChild q c).
Proof.
  unfold appendChild. apply commutes_bind; [apply commutes_detach |].
  intros u. by_kind; try apply commutes_throw.
  apply commutes_bind; [apply commutes_set_kind |].
  intros u0. apply commutes_set_parent.
Qed.

Lemma commutes_insertBefore q c ref : commutes (insertBefore q c ref).
Proof.
  unfold insertBefore. destruct ref as [r0 |]; [| apply commutes_appendChild].
  apply commutes_bind; [apply commutes_detach |].
  intros u. by_kind; try apply commutes_throw.
  destruct (is_child r0 cs0); [| apply commutes_throw].
  apply commutes_bind; [apply commutes_set_kind |].
  intros u0. apply commutes_set_parent.
Qed.

Lemma commutes_createElement tag : commutes (createElement tag).
Proof. apply commutes_alloc. Qed.

Lemma commutes_createTextNode x : commutes (createTextNode x).
Proof. apply commutes_alloc. Qed.

Lemma commutes_insert_after l x : commutes (insert_after l x).
Proof.
  unfold insert_after. apply commutes_bind; [apply commutes_get_parentNode |].
  intros [q |]; [| apply commutes_throw].
  apply commutes_bind; [apply commutes_get_nextSibling |].
  intros next. apply commutes_insertBefore.
Qed.

Lemma descendants_step fuel ns j :
  descendants (S fuel) ns j =
  match ns !! j with
  | Some (Node (Element _ _ cs) _ _) =>
      flat_map (fun c => c :: descendants fuel ns c) cs
  | _ => []
  end.
Proof. reflexivity. Qed.

(** The tree is the same whatever the text nodes hold. *)
Lemma descendants_retext fuel : forall d j,
  descendants fuel (nodes (T d)) j = descendants fuel (nodes d) j.
Proof.
  induction fuel as [| f IH]; intros d j; [reflexivity |].
  rewrite !descendants_step. rewrite lookup_retext.
  assert (Hsame : forall cs,
    flat_map (fun c => c :: descendants f (nodes (T d)) c) cs =
    flat_map (fun c => c :: descendants f (nodes d) c) cs).
  { intros cs. apply flat_map_ext. intros c. rewrite IH. reflexivity. }
  destruct (decide (i = j)) as [<- | Hne].
  - destruct (nodes d !! i) as [[[t0 a0 cs0 | v0 | c0] p0 nm0] |];
      try reflexivity.
    apply Hsame.
  - destruct (nodes d !! j) as [[[t0 a0 cs0 | v0 | c0] p0 nm0] |];
      try reflexivity.
    apply Hsame.
Qed.

Lemma has_tag_retext d tag j : has_tag (T d) tag j = has_tag d tag j.
Proof.
  unfold has_tag. rewrite lookup_retext.
  destruct (decide (i = j)) as [<- | Hne]; [| reflexivity].
  destruct (nodes d !! i) as [[[t0 a0 cs0 | v0 | c0] p0 nm0] |]; reflexivity.
Qed.

Lemma body_retext d : body (T d) = body d.
Proof.
  unfold body, first_by_tag, elements_by_tag, all_nodes. f_equal.
  replace (length (nodes (T d))) with (length (nodes d))
    by (simpl; rewrite length_alter; reflexivity).
  rewrite descendants_retext. simpl root.
  apply filter_ext. intros j. apply has_tag_retext.
Qed.

Lemma commutes_with_body {A} (k : option node_id -> M A) :
  (forall o, commutes (k o)) -> commutes (let* d := get in k (body d)).
Proof.
  intros Hk d Hi. rewrite !bind_get. rewrite body_retext. apply Hk. exact Hi.
Qed.

Lemma commutes_inject_script l href media preamble lazy :
  commutes (inject_script l href media preamble lazy).
Proof.
  unfold inject_script. apply commutes_bind; [apply commutes_createElement |].
  intros script. apply commutes_bind; [apply commutes_createTextNode |].
  intros text. apply commutes_bind; [apply commutes_appendChild |].
  intros u. apply commutes_insert_after.
Qed.

Lemma commutes_append_body_link href media : commutes (append_body_link href media).
Proof.
  unfold append_body_link. apply commutes_bind; [apply commutes_createElement |].
  intros bodyLink. apply commutes_bind; [apply commutes_setAttribute |].
  intros u. apply commutes_bind.
  { destruct (truthy media); [apply commutes_setAttribute | apply commutes_ret]. }
  intros u0. apply commutes_bind; [apply commutes_setAttribute |].
  intros u1.
  apply (commutes_with_body
           (fun o => match o with
                     | Some b => appendChild b bodyLink
                     | None => throw TypeError
                     end)).
  intros [b |]; [apply commutes_appendChild | apply commutes_throw].
Qed.

Lemma commutes_add_noscript l href media : commutes (add_noscript l href media).
Proof.
  unfold add_noscript. apply commutes_bind; [apply commutes_createElement |].
  intros noscript. apply commutes_bind; [apply commutes_createElement |].
  intros noscriptLink. apply commutes_bind; [apply commutes_setAttribute |].
  intros u. apply commutes_bind; [apply commutes_setAttribute |].
  intros u0. apply commutes_bind.
  { destruct (truthy media); [apply commutes_setAttribute | apply commutes_ret]. }
  intros u1. apply commutes_bind; [apply commutes_appendChild |].
  intros u2. apply commutes_insert_after.
Qed.

Lemma commutes_rewrite_link options l href media preamble lazy :
  commutes (rewrite_link options l href media preamble lazy).
Proof.
  unfold rewrite_link.
  destruct (preload_is (preload options) "body").
  { apply (commutes_with_body
             (fun o => match o with
                       | Some b => appendChild b l ;; ret false
                       | None => throw TypeError
                       end)).
    intros [b |]; [| apply commutes_throw].
    apply commutes_bind; [apply commutes_appendChild |].
    intros u. apply commutes_ret. }
  apply commutes_bind; [apply commutes_setAttribute |]. intros u.
  apply commutes_bind; [apply commutes_setAttribute |]. intros u0.
  destruct (preload_is (preload options) "js" || preload_is (preload options) "js-lazy").
  { apply commutes_bind; [apply commutes_inject_script |].
    intros u1. apply commutes_ret. }
  destruct (preload_is (preload options) "media").
  { apply commutes_bind; [apply commutes_setAttribute |]. intros u1.
    apply commutes_bind; [apply commutes_removeAttribute |]. intros u2.
    apply commutes_bind; [apply commutes_setAttribute |]. intros u3.
    apply commutes_bind; [apply commutes_setAttribute |]. intros u4.
    apply commutes_ret. }
  destruct (preload_is (preload options) "swap").
  { apply commutes_bind; [apply commutes_setAttribute |]. intros u1.
    apply commutes_ret. }
  apply commutes_bind; [apply commutes_append_body_link |]. intros u1.
  apply commutes_ret.
Qed.


End commute.

Lemma retext_out_of_range i v d : length (nodes d) <= i -> retext i v d = d.
Proof.
  intros Hge. destruct d as [ns r]. unfold retext. simpl in *. f_equal.
  apply list_eq. intros j. rewrite list_lookup_alter.
  destruct (decide (i = j)) as [<- | Hne]; [| reflexivity].
  rewrite (lookup_ge_None_2 ns i) by exact Hge. reflexivity.
Qed.

Lemma commutes_after_text i v options link href media style text :
  commutes i v (after_text options link href media style text).
Proof.
  unfold after_text. apply commutes_bind.
  { apply commutes_bind; [apply commutes_appendChild |]. intros u.
    apply commutes_bind; [apply commutes_insert_after |]. intros u0.
    apply commutes_set_sourceName. }
  intros u.
  assert (Htail : commutes i v
    (let lazy := preload_is (preload options) "js-lazy" in
     let* fallback :=
       rewrite_link options link href media (if lazy then lazy_loader else loader) lazy in
     if is_not_false (noscriptFallback options) && fallback
     then add_noscript link href media
     else ret tt)).
  { apply commutes_bind; [apply commutes_rewrite_link |].
    intros fallback.
    destruct (is_not_false (noscriptFallback options) && fallback);
      [apply commutes_add_noscript | apply commutes_ret]. }
  destruct (preload options); [exact Htail | apply commutes_ret | exact Htail].
Qed.

Lemma embed_not_skipped options link (sheet : js_value) href media d :
  (let* skip := skipped options href in
   if skip then ret tt
   else
     let lazy := preload_is (preload options) "js-lazy" in
     let cssLoaderPreamble := if lazy then lazy_loader else loader in
     inline_style link sheet href ;;
     match preload options with
     | PreloadFalse => ret tt
     | _ =>
         let* fallback := rewrite_link options link href media cssLoaderPreamble lazy in
         if is_not_false (noscriptFallback options) && fallback
         then add_noscript link href media
         else ret tt
     end) d =
  (let* skip := skipped options href in
   if skip then ret tt
   else
     let* style := createElement "style" in
     let* text := createTextNode sheet in
     after_text options link href media style text) d.
Proof.
  apply bind_ext. intros [|] d0; [reflexivity |].
  unfold inline_style, after_text. rewrite bind_assoc.
  apply bind_ext. intros style d1. rewrite bind_assoc.
  apply bind_ext. intros text d2. reflexivity.
Qed.

(** A key that is neither an own key of [cssFiles] nor a property name
    of [Object.prototype] reads [undefined]; the call then has the
    outcome it has when the key is present with any text [s] (the same
    nodes, the same mutations of the link, the same exception if any),
    except that the text node of the new [style] holds [undefined]. *)
Lemma missing_sheet_outcome options cssFiles d link tag attrs cs p nm s :
  nodes d !! link = Some (Node (Element tag attrs cs) p nm) ->
  cssFiles !! to_String (attr_get "href" attrs) = None ->
  inherited (to_String (attr_get "href" attrs)) = false ->
  embedLinkedStylesheet options link cssFiles d =
  map_state (retext (S (length (nodes d))) Undefined)
    (embedLinkedStylesheet options link
       (<[to_String (attr_get "href" attrs) := s]> cssFiles) d).
Proof.
  intros Hlink Hmiss Hown. destruct d as [ns r]. simpl in Hlink. simpl nodes.
  unfold embedLinkedStylesheet.
  pose proof (fun name => run_getAttribute ns r link tag attrs cs p nm name Hlink) as Hget.
  rewrite !(fun name k => bind_ok (getAttribute link name) k _ _ _ (Hget name)).
  rewrite !embed_not_skipped. unfold read_property.
  rewrite Hmiss, Hown, lookup_insert_eq.
  unfold bind at 1 3. unfold skipped.
  assert (Hgo :
    (let* style := createElement "style" in
     let* text := createTextNode Undefined in
     after_text options link (attr_get "href" attrs) (attr_get "media" attrs) style text)
      (Document ns r) =
    map_state (retext (S (length ns)) Undefined)
      ((let* style := createElement "style" in
        let* text := createTextNode (Str s) in
        after_text options link (attr_get "href" attrs) (attr_get "media" attrs)
          style text) (Document ns r))).
  { rewrite !(bind_ok _ _ _ _ _ (run_createElement _ _ _)).
    rewrite !(bind_ok _ _ _ _ _ (run_createTextNode _ _ _)).
    pose proof (commutes_after_text (S (length ns)) Undefined options link
                  (attr_get "href" attrs) (attr_get "media" attrs) (length ns)
                  (length (ns ++ [Node (Element "style" [] []) None None]))
                  (Document ((ns ++ [Node (Element "style" [] []) None None])
                             ++ [Node (Text (Str s)) None None]) r)) as [Hc _].
    { simpl. rewrite !length_app. simpl. lia. }
    rewrite <- Hc. f_equal. unfold retext. simpl. f_equal.
    replace (S (length ns))
      with (length (ns ++ [Node (Element "style" [] []) None None]) + 0)
      by (rewrite length_app; simpl; lia).
    rewrite alter_app_r. reflexivity. }
  assert (Hskip : @Ok (unit * document) (tt, Document ns r) =
                  map_state (retext (S (length ns)) Undefined) (Ok (tt, Document ns r))).
  { simpl. rewrite retext_out_of_range by (simpl; lia). reflexivity. }
  destruct (urlFilter options) as [f |].
  - unfold ret. destruct (f (attr_get "href" attrs)); [exact Hskip | exact Hgo].
  - destruct (attr_get "href" attrs) as [h |]; [| reflexivity].
    unfold ret. destruct (network_url h); [exact Hskip | exact Hgo].
Qed.

End Missing.


(** ** The other delivery strategies of [embedLinkedStylesheet] *)

Module Strategies.
Import JsString Regex Dom Css Critters Statements CssFacts DomFacts Delivery.

Lemma attr_get_remove_eq name attrs : attr_get name (attr_remove name attrs) = None.
Proof.
  induction attrs as [| [k x] rest IH]; simpl; [reflexivity |].
  destruct (String.eqb k name) eqn:Hk; simpl; [exact IH |].
  rewrite Hk. exact IH.
Qed.

Lemma attr_get_remove_ne name name' attrs :
  name <> name' -> attr_get name' (attr_remove name attrs) = attr_get name' attrs.
Proof.
  intros Hne. induction attrs as [| [k x] rest IH]; simpl; [reflexivity |].
  destruct (String.eqb k name) eqn:Hk; simpl.
  - apply String.eqb_eq in Hk. subst k.
    destruct (String.eqb name name') eqn:Hn; [| exact IH].
    apply String.eqb_eq in Hn. contradiction.
  - rewrite IH. reflexivity.
Qed.

(** Lines 153-158 after a link that sits in its parent's child list. *)
Lemma run_inject_script ns r l lk lnm p ptag pattrs pre post pp pnm href media
    preamble lazy :
  ns !! l = Some (Node lk (Some p) lnm) ->
  ns !! p = Some (Node (Element ptag pattrs (pre ++ l :: post)) pp pnm) ->
  NoDup (pre ++ l :: post) ->
  inject_script l href media preamble lazy (Document ns r) =
  Ok (tt,
      Document (<[p := Node (Element ptag pattrs (pre ++ l :: length ns :: post)) pp pnm]> ns
                ++ [Node (Element "script" [] [S (length ns)]) (Some p) None;
                    Node (Text (Str (preamble ++ "$loadcss(" ++ json_stringify href
                                      ++ (if lazy
                                          then "," ++ json_stringify (Some (or_else media "all"))
                                          else "")
                                      ++ ")")))
                         (Some (length ns)) None]) r).
Proof.
  intros Hl Hp Hnd.
  pose proof (lookup_lt_Some _ _ _ Hl) as Hll.
  pose proof (lookup_lt_Some _ _ _ Hp) as Hpl.
  unfold inject_script.
  rewrite (bind_ok _ _ _ _ _ (run_createElement _ _ _)).
  rewrite (bind_ok _ _ _ _ _ (run_createTextNode _ _ _)).
  rewrite length_app. simpl length. rewrite Nat.add_1_r. norm.
  run run_appendChild_orphan.
  erewrite run_insert_after by first [solve_lookup | len | eassumption].
  norm. reflexivity.
Qed.

Lemma without_absent l (cs : list node_id) : l ∉ cs -> without l cs = cs.
Proof.
  unfold without. induction cs as [| c cs IH]; intros Hn; [reflexivity |].
  simpl. destruct (Nat.eqb_spec c l) as [-> | Hne].
  - exfalso. apply Hn. left.
  - simpl. f_equal. apply IH. intros H. apply Hn. right. exact H.
Qed.

Lemma without_app l (xs ys : list node_id) :
  without l (xs ++ ys) = (without l xs ++ without l ys)%list.
Proof. unfold without. apply List.filter_app. Qed.

Lemma without_head l (cs : list node_id) : without l (l :: cs) = without l cs.
Proof. unfold without. simpl. rewrite Nat.eqb_refl. reflexivity. Qed.

Lemma without_other l x (cs : list node_id) :
  x <> l -> without l (x :: cs) = x :: without l cs.
Proof.
  intros Hne. unfold without. simpl.
  destruct (Nat.eqb_spec x l) as [-> | _]; [contradiction | reflexivity].
Qed.

Lemma without_middle l x pre post :
  l ∉ pre -> l ∉ post -> x <> l ->
  without l (pre ++ l :: x :: post) = (pre ++ x :: post)%list.
Proof.
  intros Hpre Hpost Hx.
  rewrite without_app, without_head, (without_other _ _ _ Hx).
  rewrite (without_absent _ _ Hpre), (without_absent _ _ Hpost). reflexivity.
Qed.

(** [document.body] is an element with the tag [body]. *)
Lemma body_is_element d b :
  body d = Some b ->
  exists a cs p nm, nodes d !! b = Some (Node (Element "body" a cs) p nm).
Proof.
  unfold body, first_by_tag, elements_by_tag. intros H.
  assert (Hin : In b (List.filter (has_tag d "body") (all_nodes d))).
  { destruct (List.filter (has_tag d "body") (all_nodes d)) as [| x xs];
      [discriminate H |]. inversion H. left. reflexivity. }
  apply filter_In in Hin as [_ Htag]. unfold has_tag in Htag.
  destruct (nodes d !! b) as [[[t a cs | v | c] p nm] |]; try discriminate Htag.
  apply String.eqb_eq in Htag. subst t. eauto.
Qed.

Section strategies.
Variable options : Options.
Variable cssFiles : gmap string string.

(** X1: with [preload: "media"] and the fallback not disabled, the link
    keeps its place and its [href]; its [rel] is [stylesheet] again,
    [as] is removed, [media] is [only x] and [onload] restores the
    media the link had, or [all]; the [noscript] with a plain
    stylesheet link and the new [style] follow the link. *)
Theorem media_rewrites_link ns r l ltag lattrs lcs lnm p ptag pattrs pre post pp pnm :
  preload options = PreloadString "media" ->
  noscriptFallback options <> Some false ->
  ns !! l = Some (Node (Element ltag lattrs lcs) (Some p) lnm) ->
  ns !! p = Some (Node (Element ptag pattrs (pre ++ l :: post)) pp pnm) ->
  NoDup (pre ++ l :: post) ->
  length ns ∉ (pre ++ l :: post)%list ->
  l <> p ->
  not_skipped options (attr_get "href" lattrs) ->
  let href := attr_get "href" lattrs in
  let media := attr_get "media" lattrs in
  let n := length ns in
  let rewritten := media_attrs media lattrs in
  embedLinkedStylesheet options l cssFiles (Document ns r) =
    Ok (tt,
        Document
          (<[l := Node (Element ltag rewritten lcs) (Some p) lnm]>
             (<[p := Node (Element ptag pattrs (pre ++ l :: (n + 2) :: n :: post)) pp pnm]> ns)
           ++ [Node (Element "style" [] [n + 1]) (Some p) href;
               Node (Text (read_property cssFiles (to_String href))) (Some n) None;
               Node (Element "noscript" [] [n + 3]) (Some p) None;
               Node (Element "link" (noscript_attrs href media) []) (Some (n + 2)) None]) r)
  /\ attr_get "rel" rewritten = Some "stylesheet"
  /\ attr_get "as" rewritten = None
  /\ attr_get "media" rewritten = Some "only x"
  /\ attr_get "onload" rewritten = Some ("this.media='" ++ or_else media "all" ++ "'")
  /\ attr_get "href" rewritten = href.
Proof.
  intros Hmode Hfb Hl Hp Hnd Hfresh Hne Hns href media n rewritten.
  subst href media n rewritten. unfold media_attrs.
  split; [| split; [| split; [| split; [| split]]]];
    [| rewrite !attr_get_set_ne by discriminate;
       rewrite attr_get_remove_ne by discriminate; apply attr_get_set_eq
     | rewrite !attr_get_set_ne by discriminate; apply attr_get_remove_eq
     | rewrite attr_get_set_ne by discriminate; apply attr_get_set_eq
     | apply attr_get_set_eq
     | rewrite !attr_get_set_ne by discriminate;
       rewrite attr_get_remove_ne by discriminate;
       rewrite !attr_get_set_ne by discriminate; reflexivity].
  pose proof (lookup_lt_Some _ _ _ Hl) as Hll.
  pose proof (lookup_lt_Some _ _ _ Hp) as Hpl.
  unfold embedLinkedStylesheet.
  run run_getAttribute. run run_getAttribute.
  rewrite (bind_ok _ _ _ _ _ (run_skipped _ _ _ Hns)).
  erewrite bind_ok; [| eapply run_inline_style; eassumption].
  rewrite Hmode. unfold rewrite_link. rewrite Hmode. simpl.
  run run_setAttribute. run run_setAttribute. run run_setAttribute.
  run run_removeAttribute. run run_setAttribute. run run_setAttribute.
  rewrite bind_ret.
  assert (Hfb' : is_not_false (noscriptFallback options) = true).
  { destruct (noscriptFallback options) as [[|] |]; try reflexivity. congruence. }
  rewrite Hfb'. simpl.
  erewrite run_add_noscript; [| solve_lookup | solve_lookup | ].
  - finish_state.
    rewrite (list_insert_insert_ne _ p l) by lia.
    rewrite list_insert_insert_eq. reflexivity.
  - apply NoDup_insert_fresh; assumption.
Qed.


(** X2: with [preload: "js"] or ["js-lazy"] and the fallback not
    disabled, the link becomes a preload and three nodes follow it: the
    [noscript], a [script] whose text is the loader followed by the call
    [$loadcss(href)] (under ["js-lazy"] the lazy loader and the call
    with the media of the link, or [all], as second argument), and the
    new [style]. *)
Theorem script_strategy_injects_loader mode ns r l ltag lattrs lcs lnm p ptag pattrs
    pre post pp pnm :
  preload options = PreloadString mode ->
  mode = "js" \/ mode = "js-lazy" ->
  noscriptFallback options <> Some false ->
  ns !! l = Some (Node (Element ltag lattrs lcs) (Some p) lnm) ->
  ns !! p = Some (Node (Element ptag pattrs (pre ++ l :: post)) pp pnm) ->
  NoDup (pre ++ l :: post) ->
  length ns ∉ (pre ++ l :: post)%list ->
  S (S (length ns)) ∉ (pre ++ l :: post)%list ->
  l <> p ->
  not_skipped options (attr_get "href" lattrs) ->
  let href := attr_get "href" lattrs in
  let media := attr_get "media" lattrs in
  let n := length ns in
  embedLinkedStylesheet options l cssFiles (Document ns r) =
    Ok (tt,
        Document
          (<[l := Node (Element ltag (attr_set "as" "style" (attr_set "rel" "preload" lattrs))
                          lcs) (Some p) lnm]>
             (<[p := Node (Element ptag pattrs
                             (pre ++ l :: (n + 4) :: (n + 2) :: n :: post)) pp pnm]> ns)
           ++ [Node (Element "style" [] [n + 1]) (Some p) href;
               Node (Text (read_property cssFiles (to_String href))) (Some n) None;
               Node (Element "script" [] [n + 3]) (Some p) None;
               Node (Text (Str (loader_call (String.eqb mode "js-lazy") href media)))
                    (Some (n + 2)) None;
               Node (Element "noscript" [] [n + 5]) (Some p) None;
               Node (Element "link" (noscript_attrs href media) []) (Some (n + 4)) None]) r).
Proof.
  intros Hmode Hjs Hfb Hl Hp Hnd Hfresh Hfresh2 Hne Hns href media n.
  subst href media n. unfold loader_call.
  pose proof (lookup_lt_Some _ _ _ Hl) as Hll.
  pose proof (lookup_lt_Some _ _ _ Hp) as Hpl.
  assert (Hfb' : is_not_false (noscriptFallback options) = true).
  { destruct (noscriptFallback options) as [[|] |]; try reflexivity. congruence. }
  assert (Hnd1 : NoDup (pre ++ l :: length ns :: post)).
  { apply NoDup_insert_fresh; assumption. }
  assert (Hnd2 : NoDup (pre ++ l :: S (S (length ns)) :: length ns :: post)).
  { apply NoDup_insert_fresh; [exact Hnd1 |].
    intros Hin. apply elem_of_app in Hin as [Hin | Hin].
    - apply Hfresh2. apply elem_of_app. left. exact Hin.
    - apply elem_of_cons in Hin as [Heq | Hin].
      + apply Hfresh2. apply elem_of_app. right. rewrite Heq. left.
      + apply elem_of_cons in Hin as [Heq | Hin]; [lia |].
        apply Hfresh2. apply elem_of_app. right. right. exact Hin. }
  unfold embedLinkedStylesheet.
  run run_getAttribute. run run_getAttribute.
  rewrite (bind_ok _ _ _ _ _ (run_skipped _ _ _ Hns)).
  erewrite bind_ok; [| eapply run_inline_style; eassumption].
  rewrite Hmode. unfold rewrite_link. rewrite Hmode.
  assert (Hbody : preload_is (PreloadString mode) "body" = false).
  { destruct Hjs as [-> | ->]; reflexivity. }
  assert (Hscript : preload_is (PreloadString mode) "js"
                    || preload_is (PreloadString mode) "js-lazy" = true).
  { destruct Hjs as [-> | ->]; reflexivity. }
  rewrite Hbody, Hscript. unfold preload_is at 1 2.
  run run_setAttribute. run run_setAttribute.
  rewrite ?bind_assoc.
  erewrite bind_ok; cycle 1.
  { eapply run_inject_script; [solve_lookup | solve_lookup | exact Hnd1]. }
  rewrite bind_ret. rewrite Hfb'. simpl.
  erewrite run_add_noscript; [| solve_lookup | solve_lookup | ].
  - finish_state.
    rewrite ?list_insert_insert_eq.
    rewrite (list_insert_insert_ne _ p l) by lia.
    rewrite ?list_insert_insert_eq. reflexivity.
  - finish_state. exact Hnd2.
Qed.

(** X3: [noscriptFallback: false] under [preload: "swap"]: the link is
    rewritten to a preload with its [onload] handler, the new [style]
    follows it, and no [noscript] is added. *)
Theorem swap_without_fallback ns r l ltag lattrs lcs lnm p ptag pattrs pre post pp pnm :
  preload options = PreloadString "swap" ->
  noscriptFallback options = Some false ->
  ns !! l = Some (Node (Element ltag lattrs lcs) (Some p) lnm) ->
  ns !! p = Some (Node (Element ptag pattrs (pre ++ l :: post)) pp pnm) ->
  NoDup (pre ++ l :: post) ->
  l <> p ->
  not_skipped options (attr_get "href" lattrs) ->
  let href := attr_get "href" lattrs in
  let n := length ns in
  embedLinkedStylesheet options l cssFiles (Document ns r) =
    Ok (tt,
        Document
          (<[l := Node (Element ltag
                          (attr_set "onload" "this.rel='stylesheet'"
                             (attr_set "as" "style" (attr_set "rel" "preload" lattrs)))
                          lcs) (Some p) lnm]>
             (<[p := Node (Element ptag pattrs (pre ++ l :: n :: post)) pp pnm]> ns)
           ++ [Node (Element "style" [] [n + 1]) (Some p) href;
               Node (Text (read_property cssFiles (to_String href))) (Some n) None]) r).
Proof.
  intros Hmode Hfb Hl Hp Hnd Hne Hns href n. subst href n.
  pose proof (lookup_lt_Some _ _ _ Hl) as Hll.
  pose proof (lookup_lt_Some _ _ _ Hp) as Hpl.
  unfold embedLinkedStylesheet.
  run run_getAttribute. run run_getAttribute.
  rewrite (bind_ok _ _ _ _ _ (run_skipped _ _ _ Hns)).
  erewrite bind_ok; [| eapply run_inline_style; eassumption].
  rewrite Hmode. unfold rewrite_link. rewrite Hmode. simpl.
  run run_setAttribute. run run_setAttribute. run run_setAttribute.
  rewrite bind_ret. rewrite Hfb. simpl. unfold ret.
  finish_state. reflexivity.
Qed.

(** X4: without a filter, a link that has no [href] makes
    [embedLinkedStylesheet] throw a [TypeError]: line 121 calls [match]
    on [null]. *)
Theorem link_without_href_throws d l ltag lattrs lcs lp lnm :
  urlFilter options = None ->
  nodes d !! l = Some (Node (Element ltag lattrs lcs) lp lnm) ->
  attr_get "href" lattrs = None ->
  embedLinkedStylesheet options l cssFiles d = Throw TypeError.
Proof.
  intros Hf Hl Hhref. destruct d as [ns r]. simpl in Hl.
  unfold embedLinkedStylesheet.
  run run_getAttribute. run run_getAttribute.
  rewrite Hhref. unfold skipped. rewrite Hf. reflexivity.
Qed.

(** X5: with [preload: "body"] the link is taken out of the child list
    of its parent, where the new [style] stays, and becomes the last
    child of the body, with its attributes as they were; no [noscript]
    is added whatever [noscriptFallback] says. [document.body] is read
    on the document in which the style was inserted; without a body the
    call throws a [TypeError]. *)
Theorem body_strategy_moves_the_link (ns : list node) r l ltag lattrs lcs lnm
    p ptag pattrs pre post pp pnm :
  preload options = PreloadString "body" ->
  ns !! l = Some (Node (Element ltag lattrs lcs) (Some p) lnm) ->
  ns !! p = Some (Node (Element ptag pattrs (pre ++ l :: post)) pp pnm) ->
  NoDup (pre ++ l :: post) ->
  l <> p -> ltag <> "body" ->
  not_skipped options (attr_get "href" lattrs) ->
  let href := attr_get "href" lattrs in
  let n := length ns in
  let new := [Node (Element "style" [] [n + 1]) (Some p) href;
              Node (Text (read_property cssFiles (to_String href))) (Some n) None] in
  let inlined :=
    (<[p := Node (Element ptag pattrs (pre ++ l :: n :: post)) pp pnm]> ns ++ new)%list in
  let taken :=
    (<[l := Node (Element ltag lattrs lcs) None lnm]>
       (<[p := Node (Element ptag pattrs (pre ++ n :: post)) pp pnm]> ns) ++ new)%list in
  match body (Document inlined r) with
  | Some b =>
      exists ba bcs bp bnm,
        taken !! b = Some (Node (Element "body" ba bcs) bp bnm)
        /\ embedLinkedStylesheet options l cssFiles (Document ns r) =
           Ok (tt, Document
                     (<[l := Node (Element ltag lattrs lcs) (Some b) lnm]>
                        (<[b := Node (Element "body" ba (bcs ++ [l])) bp bnm]> taken)) r)
  | None => embedLinkedStylesheet options l cssFiles (Document ns r) = Throw TypeError
  end.
Proof.
  intros Hmode Hl Hp Hnd Hne Htag Hns href n new inlined taken.
  pose proof (lookup_lt_Some _ _ _ Hl) as Hll.
  pose proof (lookup_lt_Some _ _ _ Hp) as Hpl.
  assert (Hrun : embedLinkedStylesheet options l cssFiles (Document ns r)
                 = (let* fallback := rewrite_link options l href (attr_get "media" lattrs)
                                       loader false in
                    if is_not_false (noscriptFallback options) && fallback
                    then add_noscript l href (attr_get "media" lattrs)
                    else ret tt) (Document inlined r)).
  { unfold embedLinkedStylesheet.
    run run_getAttribute. run run_getAttribute.
    rewrite (bind_ok _ _ _ _ _ (run_skipped _ _ _ Hns)).
    erewrite bind_ok; [| eapply run_inline_style; eassumption].
    rewrite Hmode. simpl. subst inlined new n href.
    rewrite !Nat.add_1_r. reflexivity. }
  rewrite Hrun. unfold rewrite_link. rewrite Hmode. simpl preload_is. cbv iota.
  rewrite bind_assoc, bind_get.
  destruct (body (Document inlined r)) as [b |] eqn:Hbody; [| reflexivity].
  destruct (body_is_element _ _ Hbody) as (ba & bcs & bp & bnm & Hb).
  simpl in Hb.
  apply NoDup_app in Hnd as (Hpre & Hdisj & Hpost).
  apply NoDup_cons in Hpost as [Hlpost Hpost].
  assert (Hlpre : l ∉ pre) by (intros Hin; apply (Hdisj l Hin); left).
  assert (Hil : inlined !! l = Some (Node (Element ltag lattrs lcs) (Some p) lnm)).
  { subst inlined. rewrite lookup_app_l by len.
    rewrite list_lookup_insert_ne by auto. exact Hl. }
  assert (Hip : inlined !! p
                = Some (Node (Element ptag pattrs (pre ++ l :: n :: post)) pp pnm)).
  { subst inlined. rewrite lookup_app_l by len.
    rewrite list_lookup_insert_eq by exact Hpl. reflexivity. }
  assert (Hbl : b <> l).
  { intros ->. rewrite Hil in Hb. inversion Hb. contradiction. }
  assert (Hdetach : detach l (Document inlined r) = Ok (tt, Document taken r)).
  { unfold detach.
    rewrite (bind_ok _ _ _ _ _ (run_get_parentNode _ _ _ _ Hil)). simpl.
    rewrite (bind_ok _ _ _ _ _ (run_node_at _ _ _ _ Hip)). simpl.
    rewrite (bind_ok _ _ _ _ _ (run_set_kind _ _ _ _ _ _ _ Hip)).
    erewrite run_set_parent; cycle 1.
    { rewrite list_lookup_insert_ne by auto. exact Hil. }
    rewrite without_middle by (try assumption; subst n; lia).
    subst taken inlined. f_equal. f_equal. f_equal.
    rewrite !insert_app_l by len. rewrite list_insert_insert_eq. reflexivity. }
  assert (Htl : taken !! l = Some (Node (Element ltag lattrs lcs) None lnm)).
  { subst taken. rewrite lookup_app_l by len.
    rewrite list_lookup_insert_eq by len. reflexivity. }
  assert (Htb : exists ba' bcs',
            taken !! b = Some (Node (Element "body" ba' bcs') bp bnm)).
  { destruct (decide (b = p)) as [-> | Hbp].
    - rewrite Hip in Hb. inversion Hb. subst.
      exists ba, (pre ++ length ns :: post)%list. subst taken.
      rewrite lookup_app_l by len. rewrite list_lookup_insert_ne by auto.
      rewrite list_lookup_insert_eq by exact Hpl. reflexivity.
    - exists ba, bcs. rewrite <- Hb. subst taken inlined.
      pose proof (lookup_lt_Some _ _ _ Hb) as Hblt.
      rewrite length_app, length_insert in Hblt. simpl in Hblt.
      destruct (decide (b < length ns)) as [Hlt | Hge].
      + rewrite !lookup_app_l by len.
        rewrite !list_lookup_insert_ne by auto. reflexivity.
      + rewrite !lookup_app_r by len. rewrite !length_insert. reflexivity. }
  destruct Htb as (ba' & bcs' & Htb).
  exists ba', bcs', bp, bnm. split; [exact Htb |].
  unfold appendChild. rewrite !bind_assoc.
  rewrite (bind_ok _ _ _ _ _ Hdetach). rewrite !bind_assoc.
  rewrite (bind_ok _ _ _ _ _ (run_node_at _ _ _ _ Htb)). simpl.
  rewrite !bind_assoc.
  rewrite (bind_ok _ _ _ _ _ (run_set_kind _ _ _ _ _ _ _ Htb)).
  erewrite bind_ok; cycle 1.
  { eapply run_set_parent. rewrite list_lookup_insert_ne by auto. exact Htl. }
  rewrite bind_ret. rewrite andb_false_r. reflexivity.
Qed.


Lemma default_strategy_branches mode :
  default_strategy mode = true ->
  mode <> PreloadFalse
  /\ preload_is mode "body" = false
  /\ preload_is mode "js" || preload_is mode "js-lazy" = false
  /\ preload_is mode "media" = false
  /\ preload_is mode "swap" = false.
Proof.
  destruct mode as [| | s]; simpl; intros H; try discriminate H;
    repeat split; try discriminate.
  all: apply negb_true_iff in H;
    repeat (apply orb_false_iff in H as [? H]);
    repeat match goal with E : String.eqb _ _ = false |- _ => rewrite E end;
    reflexivity.
Qed.

(** X6: without a [preload] option (or with a string that names no
    strategy) the link becomes [rel="preload" as="style"] and a new
    link with [rel="stylesheet"], the media of the link when it has
    one, and its [href] is appended to the body; no [noscript] is
    added. [document.body] is read once the new link exists; without a
    body the call throws a [TypeError]. *)
Theorem default_strategy_appends_a_body_link (ns : list node) r l ltag lattrs lcs lnm
    p ptag pattrs pre post pp pnm :
  default_strategy (preload options) = true ->
  ns !! l = Some (Node (Element ltag lattrs lcs) (Some p) lnm) ->
  ns !! p = Some (Node (Element ptag pattrs (pre ++ l :: post)) pp pnm) ->
  NoDup (pre ++ l :: post) ->
  l <> p ->
  not_skipped options (attr_get "href" lattrs) ->
  let href := attr_get "href" lattrs in
  let media := attr_get "media" lattrs in
  let n := length ns in
  let preloaded :=
    (<[l := Node (Element ltag (attr_set "as" "style" (attr_set "rel" "preload" lattrs))
                    lcs) (Some p) lnm]>
       (<[p := Node (Element ptag pattrs (pre ++ l :: n :: post)) pp pnm]> ns)
     ++ [Node (Element "style" [] [n + 1]) (Some p) href;
         Node (Text (read_property cssFiles (to_String href))) (Some n) None;
         Node (Element "link" (body_link_attrs href media) []) None None])%list in
  match body (Document preloaded r) with
  | Some b =>
      exists ba bcs bp bnm,
        preloaded !! b = Some (Node (Element "body" ba bcs) bp bnm)
        /\ embedLinkedStylesheet options l cssFiles (Document ns r) =
           Ok (tt, Document
                     (<[n + 2 := Node (Element "link" (body_link_attrs href media) [])
                                   (Some b) None]>
                        (<[b := Node (Element "body" ba (bcs ++ [n + 2])) bp bnm]>
                           preloaded)) r)
  | None => embedLinkedStylesheet options l cssFiles (Document ns r) = Throw TypeError
  end.
Proof.
  intros Hmode Hl Hp Hnd Hne Hns href media n preloaded.
  pose proof (lookup_lt_Some _ _ _ Hl) as Hll.
  pose proof (lookup_lt_Some _ _ _ Hp) as Hpl.
  destruct (default_strategy_branches _ Hmode) as (Hnf & Hbody & Hjs & Hmedia & Hswap).
  assert (Hrun : embedLinkedStylesheet options l cssFiles (Document ns r)
                 = (let* d := get in
                    match body d with
                    | Some b => appendChild b (n + 2)
                    | None => throw TypeError
                    end) (Document preloaded r)).
  { unfold embedLinkedStylesheet.
    run run_getAttribute. run run_getAttribute.
    rewrite (bind_ok _ _ _ _ _ (run_skipped _ _ _ Hns)).
    erewrite bind_ok; [| eapply run_inline_style; eassumption].
    assert (Hgo : forall (k : M unit) s,
              match preload options with PreloadFalse => ret tt | _ => k end s = k s).
    { intros k s. destruct (preload options); try reflexivity. contradiction. }
    rewrite Hgo. unfold rewrite_link. rewrite Hbody, Hjs, Hmedia, Hswap.
    run run_setAttribute. run run_setAttribute.
    unfold append_body_link. rewrite !bind_assoc.
    rewrite (bind_ok _ _ _ _ _ (run_createElement _ _ _)).
    run run_setAttribute.
    assert (Hattrs : forall h,
              attr_set "href" h
                (if truthy media
                 then attr_set "media" (default "" media) [("rel", "stylesheet")]
                 else [("rel", "stylesheet")])
              = ([("rel", "stylesheet")]
                 ++ (if truthy media then [("media", default "" media)] else [])
                 ++ [("href", h)])%list).
    { intros h. destruct (truthy media); reflexivity. }
    fold href media. unfold body_link_attrs in preloaded. subst preloaded.
    rewrite <- Hattrs.
    assert (Htail : forall (m : M unit) s,
              (m ;; let* fallback := ret false in
                    if is_not_false (noscriptFallback options) && fallback
                    then add_noscript l href media
                    else ret tt) s = m s).
    { intros m s. unfold bind at 1. destruct (m s) as [[[] s'] | e]; [| reflexivity].
      rewrite bind_ret, andb_false_r. reflexivity. }
    subst n. rewrite !Nat.add_1_r. replace (length ns + 2) with (S (S (length ns))) by lia.
    destruct (truthy media).
    - run run_setAttribute. run run_setAttribute.
      rewrite !bind_assoc, !bind_get.
      finish_state. rewrite Htail. reflexivity.
    - cbv iota. rewrite !bind_assoc, bind_ret. run run_setAttribute.
      rewrite !bind_assoc, !bind_get.
      finish_state. rewrite Htail. reflexivity. }
  rewrite Hrun. rewrite bind_get.
  destruct (body (Document preloaded r)) as [b |] eqn:Hbody'; [| reflexivity].
  destruct (body_is_element _ _ Hbody') as (ba & bcs & bp & bnm & Hb).
  simpl in Hb. exists ba, bcs, bp, bnm. split; [exact Hb |].
  assert (Hnew : preloaded !! (n + 2)
                 = Some (Node (Element "link" (body_link_attrs href media) []) None None)).
  { subst preloaded n. rewrite lookup_app_r by len.
    rewrite !length_insert.
    replace (length ns + 2 - length ns) with 2 by lia. reflexivity. }
  apply run_appendChild_orphan; [exact Hnew | exact Hb |].
  intros Heq. subst b. pose proof (eq_trans (eq_sym Hnew) Hb) as E. discriminate E.
Qed.

End strategies.
End Strategies.


(** ** What [embedLinkedStylesheet], [processStyle] and [process] never change *)

Module Frames.
Import JsString Regex Dom Css Critters Statements CssFacts DomFacts Hoare Strategies.

Section frame.
Variable Q : string -> list (string * string) -> Prop.
Variable i : node_id.

Local Abbreviation I := (element_with Q i).

Lemma frame_node_at j :
  hoare I (node_at j) (fun n d => I d /\ nodes d !! j = Some n).
Proof.
  intros d n d' HI Hrun. unfold node_at in Hrun.
  destruct (nodes d !! j) as [n0 |] eqn:Hj; [| discriminate].
  inversion Hrun. subst. auto.
Qed.

Lemma frame_set_same_kind d j n0 n :
  I d -> nodes d !! j = Some n0 -> kind n = kind n0 ->
  I (Document (<[j := n]> (nodes d)) (root d)).
Proof.
  intros (t & a & cs & p & nm & Hi & HQ) Hj Hk.
  destruct (decide (j = i)) as [-> | Hne].
  - pose proof (eq_trans (eq_sym Hi) Hj) as Heq. inversion Heq. subst n0.
    destruct n as [k' p' nm'].
    simpl in Hk. subst k'. exists t, a, cs, p', nm'. split; [| exact HQ].
    simpl. apply list_lookup_insert_eq. eapply lookup_lt_Some. exact Hi.
  - exists t, a, cs, p, nm. split; [| exact HQ]. simpl.
    rewrite list_lookup_insert_ne by exact Hne. exact Hi.
Qed.

Lemma frame_set_parent j q : hoare I (set_parent j q) (fun _ => I).
Proof.
  unfold set_parent. eapply hoare_bind; [apply frame_node_at |].
  intros n d a d' [HI Hn] Hrun. inversion Hrun. subst.
  eapply frame_set_same_kind; eauto.
Qed.

Lemma frame_set_sourceName j nm : hoare I (set_sourceName j nm) (fun _ => I).
Proof.
  unfold set_sourceName. eapply hoare_bind; [apply frame_node_at |].
  intros n d a d' [HI Hn] Hrun. inversion Hrun. subst.
  eapply frame_set_same_kind; eauto.
Qed.

(** Writing an element over the node read, with a tag and attributes
    that [Q] accepts when the node is [i]. *)
Lemma frame_set_element j n t a cs d x d' :
  I d -> nodes d !! j = Some n ->
  (j = i -> Q t a) ->
  set_kind j (Element t a cs) d = Ok (x, d') -> I d'.
Proof.
  intros HI Hn HQ Hrun. unfold set_kind, bind, node_at in Hrun.
  rewrite Hn in Hrun. inversion Hrun. subst.
  destruct HI as (t0 & a0 & cs0 & p0 & nm0 & Hi & HQ0).
  destruct (decide (j = i)) as [-> | Hne].
  - pose proof (eq_trans (eq_sym Hi) Hn) as Heq. inversion Heq. subst n. simpl.
    exists t, a, cs, p0, nm0. split; [| apply HQ; reflexivity].
    simpl. apply list_lookup_insert_eq. eapply lookup_lt_Some. exact Hi.
  - exists t0, a0, cs0, p0, nm0. split; [| exact HQ0]. simpl.
    rewrite list_lookup_insert_ne by exact Hne. exact Hi.
Qed.

Lemma frame_Q_of d n t a cs :
  I d -> nodes d !! i = Some n -> kind n = Element t a cs -> Q t a.
Proof.
  intros (t0 & a0 & cs0 & p0 & nm0 & Hi & HQ0) Hn Hk.
  pose proof (eq_trans (eq_sym Hi) Hn) as Heq. inversion Heq. subst n.
  simpl in Hk. inversion Hk. subst. exact HQ0.
Qed.

(** An operation that reads node [j] and, when it is an element, writes
    it back with the same tag and attributes and goes on. *)
Lemma frame_relink {A} j (children : list node_id -> list node_id) (next : M A) (other : M A) :
  hoare I next (fun _ => I) ->
  hoare I other (fun _ => I) ->
  hoare I
    (let* n := node_at j in
     match kind n with
     | Element t a cs => set_kind j (Element t a (children cs)) ;; next
     | _ => other
     end)
    (fun _ => I).
Proof.
  intros Hnext Hother. eapply hoare_bind; [apply frame_node_at |].
  intros n. destruct (kind n) as [t a cs | v | c] eqn:Hk.
  - intros d x d' [HI Hn] Hrun. unfold bind at 1 in Hrun.
    destruct (set_kind j (Element t a (children cs)) d) as [[u d1] | e] eqn:Hset;
      [| discriminate].
    eapply Hnext; [| exact Hrun].
    eapply frame_set_element; [exact HI | exact Hn | | exact Hset].
    intros ->. eapply frame_Q_of; eauto.
  - intros d x d' [HI _]. apply Hother. exact HI.
  - intros d x d' [HI _]. apply Hother. exact HI.
Qed.

Lemma frame_get_parentNode j : hoare I (get_parentNode j) (fun _ => I).
Proof.
  unfold get_parentNode. eapply hoare_bind; [apply frame_node_at |].
  intros n d a d' [HI _] Hrun. inversion Hrun. subst. exact HI.
Qed.

Lemma frame_get_childNodes j : hoare I (get_childNodes j) (fun _ => I).
Proof.
  unfold get_childNodes. eapply hoare_bind; [apply frame_node_at |].
  intros n d a d' [HI _] Hrun.
  destruct (kind n); inversion Hrun; subst; exact HI.
Qed.

Lemma frame_get_nextSibling j : hoare I (get_nextSibling j) (fun _ => I).
Proof.
  unfold get_nextSibling. eapply hoare_bind; [apply frame_get_parentNode |].
  intros [q |]; [| apply hoare_ret].
  eapply hoare_bind; [apply frame_get_childNodes |].
  intros cs. apply hoare_ret.
Qed.

Lemma frame_get_lastChild j : hoare I (get_lastChild j) (fun _ => I).
Proof.
  unfold get_lastChild. eapply hoare_bind; [apply frame_get_childNodes |].
  intros cs. apply hoare_ret.
Qed.

Lemma frame_detach j : hoare I (detach j) (fun _ => I).
Proof.
  unfold detach. eapply hoare_bind; [apply frame_get_parentNode |].
  intros [q |]; [| apply hoare_ret].
  apply (frame_relink q (without j) (set_parent j None) (set_parent j None));
    apply frame_set_parent.
Qed.

Lemma frame_appendChild q c : hoare I (appendChild q c) (fun _ => I).
Proof.
  unfold appendChild. eapply hoare_bind; [apply frame_detach |].
  intros u.
  apply (frame_relink q (fun cs => (cs ++ [c])%list) (set_parent c (Some q))
           (throw TypeError)); [apply frame_set_parent | apply hoare_throw].
Qed.

Lemma frame_removeChild q c : hoare I (removeChild q c) (fun _ => I).
Proof.
  unfold removeChild. eapply hoare_bind; [apply frame_node_at |].
  intros n. destruct (kind n) as [t a cs | v | c0] eqn:Hk; try apply hoare_throw.
  destruct (is_child c cs); [| apply hoare_throw].
  intros d x d' [HI Hn] Hrun. unfold bind at 1 in Hrun.
  destruct (set_kind q (Element t a (without c cs)) d) as [[u d1] | e] eqn:Hset;
    [| discriminate].
  eapply frame_set_parent; [| exact Hrun].
  eapply frame_set_element; [exact HI | exact Hn | | exact Hset].
  intros ->. eapply frame_Q_of; eauto.
Qed.

Lemma frame_insertBefore q c ref : hoare I (insertBefore q c ref) (fun _ => I).
Proof.
  unfold insertBefore. destruct ref as [r0 |]; [| apply frame_appendChild].
  eapply hoare_bind; [apply frame_detach |]. intros u.
  eapply hoare_bind; [apply frame_node_at |].
  intros n. destruct (kind n) as [t a cs | v | c0] eqn:Hk; try apply hoare_throw.
  destruct (is_child r0 cs); [| apply hoare_throw].
  intros d x d' [HI Hn] Hrun. unfold bind at 1 in Hrun.
  destruct (set_kind q (Element t a (insert_before c r0 cs)) d) as [[u0 d1] | e] eqn:Hset;
    [| discriminate].
  eapply frame_set_parent; [| exact Hrun].
  eapply frame_set_element; [exact HI | exact Hn | | exact Hset].
  intros ->. eapply frame_Q_of; eauto.
Qed.

Lemma frame_insert_after l x : hoare I (insert_after l x) (fun _ => I).
Proof.
  unfold insert_after. eapply hoare_bind; [apply frame_get_parentNode |].
  intros [q |]; [| apply hoare_throw].
  eapply hoare_bind; [apply frame_get_nextSibling |].
  intros next. apply frame_insertBefore.
Qed.

(** Setting an attribute of another node, or one that [Q] does not see. *)
Lemma frame_setAttribute j name v :
  (j = i -> forall t a, Q t a -> Q t (attr_set name v a)) ->
  hoare I (setAttribute j name v) (fun _ => I).
Proof.
  intros Hst. unfold setAttribute. eapply hoare_bind; [apply frame_node_at |].
  intros n. destruct (kind n) as [t a cs | v0 | c0] eqn:Hk; try apply hoare_throw.
  intros d x d' [HI Hn] Hrun.
  eapply frame_set_element; [exact HI | exact Hn | | exact Hrun].
  intros ->. apply Hst; [reflexivity |]. eapply frame_Q_of; eauto.
Qed.

Lemma frame_removeAttribute j name :
  (j = i -> forall t a, Q t a -> Q t (attr_remove name a)) ->
  hoare I (removeAttribute j name) (fun _ => I).
Proof.
  intros Hst. unfold removeAttribute. eapply hoare_bind; [apply frame_node_at |].
  intros n. destruct (kind n) as [t a cs | v0 | c0] eqn:Hk; try apply hoare_throw.
  intros d x d' [HI Hn] Hrun.
  eapply frame_set_element; [exact HI | exact Hn | | exact Hrun].
  intros ->. apply Hst; [reflexivity |]. eapply frame_Q_of; eauto.
Qed.

(** A node that is created is not [i]. *)
Lemma frame_alloc {A} k0 (k : node_id -> M A) :
  (forall a, a <> i -> hoare I (k a) (fun _ => I)) ->
  hoare I (bind (alloc k0) k) (fun _ => I).
Proof.
  intros Hk d x d' HI Hrun. unfold bind, alloc in Hrun.
  destruct HI as (t & a & cs & p & nm & Hi & HQ).
  pose proof (lookup_lt_Some _ _ _ Hi) as Hlt.
  eapply (Hk (length (nodes d))); [lia | | exact Hrun].
  exists t, a, cs, p, nm. split; [| exact HQ]. simpl.
  rewrite lookup_app_l by exact Hlt. exact Hi.
Qed.

Lemma frame_with_body {A} (k : option node_id -> M A) :
  (forall o, hoare I (k o) (fun _ => I)) ->
  hoare I (let* d := get in k (body d)) (fun _ => I).
Proof. intros Hk d x d' HI Hrun. rewrite bind_get in Hrun. eapply Hk; eauto. Qed.


Lemma frame_getAttribute j name : hoare I (getAttribute j name) (fun _ => I).
Proof.
  unfold getAttribute. eapply hoare_bind; [apply frame_node_at |].
  intros n d a d' [HI _] Hrun.
  destruct (kind n); inversion Hrun; subst; exact HI.
Qed.

Lemma frame_pure_of {A} (r : result A) : hoare I (pure_of r) (fun _ => I).
Proof.
  intros d a d' HI Hrun. unfold pure_of in Hrun.
  destruct r; inversion Hrun; subst; exact HI.
Qed.

Lemma frame_for_each {A} (body : A -> M unit) xs :
  (forall x, hoare I (body x) (fun _ => I)) ->
  hoare I (for_each body xs) (fun _ => I).
Proof.
  intros Hbody. induction xs as [| x xs IH]; simpl; [apply hoare_ret |].
  eapply hoare_bind; [apply Hbody |]. intros u. exact IH.
Qed.

Lemma frame_inline_style l sheet href : hoare I (inline_style l sheet href) (fun _ => I).
Proof.
  unfold inline_style, createElement. apply frame_alloc. intros style Hs.
  unfold createTextNode. apply frame_alloc. intros text Ht.
  eapply hoare_bind; [apply frame_appendChild |]. intros u.
  eapply hoare_bind; [apply frame_insert_after |]. intros u0.
  apply frame_set_sourceName.
Qed.

Lemma frame_inject_script l href media preamble lazy :
  hoare I (inject_script l href media preamble lazy) (fun _ => I).
Proof.
  unfold inject_script, createElement. apply frame_alloc. intros script Hs.
  unfold createTextNode. apply frame_alloc. intros text Ht.
  eapply hoare_bind; [apply frame_appendChild |]. intros u.
  apply frame_insert_after.
Qed.

Lemma frame_new_attribute j name v :
  j <> i -> hoare I (setAttribute j name v) (fun _ => I).
Proof. intros Hne. apply frame_setAttribute. intros ->. contradiction. Qed.

Lemma frame_append_body_link href media :
  hoare I (append_body_link href media) (fun _ => I).
Proof.
  unfold append_body_link, createElement. apply frame_alloc. intros bodyLink Hb.
  eapply hoare_bind; [apply frame_new_attribute; exact Hb |]. intros u.
  eapply hoare_bind.
  { destruct (truthy media); [apply frame_new_attribute; exact Hb | apply hoare_ret]. }
  intros u0.
  eapply hoare_bind; [apply frame_new_attribute; exact Hb |]. intros u1.
  apply (frame_with_body
           (fun o => match o with
                     | Some b => appendChild b bodyLink
                     | None => throw TypeError
                     end)).
  intros [b |]; [apply frame_appendChild | apply hoare_throw].
Qed.

Lemma frame_add_noscript l href media : hoare I (add_noscript l href media) (fun _ => I).
Proof.
  unfold add_noscript, createElement. apply frame_alloc. intros noscript Hn.
  apply frame_alloc. intros noscriptLink Hl.
  eapply hoare_bind; [apply frame_new_attribute; exact Hl |]. intros u.
  eapply hoare_bind; [apply frame_new_attribute; exact Hl |]. intros u0.
  eapply hoare_bind.
  { destruct (truthy media); [apply frame_new_attribute; exact Hl | apply hoare_ret]. }
  intros u1.
  eapply hoare_bind; [apply frame_appendChild |]. intros u2.
  apply frame_insert_after.
Qed.

(** The attributes [rewrite_link] writes on the link. *)
Hypothesis Hset : forall name v t a,
  In name ["rel"; "as"; "media"; "onload"] -> Q t a -> Q t (attr_set name v a).
Hypothesis Hremove : forall t a, Q t a -> Q t (attr_remove "as" a).

Lemma frame_link_attribute l name v :
  In name ["rel"; "as"; "media"; "onload"] ->
  hoare I (setAttribute l name v) (fun _ => I).
Proof. intros Hin. apply frame_setAttribute. intros _ t a. apply Hset. exact Hin. Qed.

Lemma frame_rewrite_link options l href media preamble lazy :
  hoare I (rewrite_link options l href media preamble lazy) (fun _ => I).
Proof.
  unfold rewrite_link.
  destruct (preload_is (preload options) "body").
  { apply (frame_with_body
             (fun o => match o with
                       | Some b => appendChild b l ;; ret false
                       | None => throw TypeError
                       end)).
    intros [b |]; [| apply hoare_throw].
    eapply hoare_bind; [apply frame_appendChild |]. intros u. apply hoare_ret. }
  eapply hoare_bind; [apply frame_link_attribute; simpl; auto |]. intros u.
  eapply hoare_bind; [apply frame_link_attribute; simpl; auto |]. intros u0.
  destruct (preload_is (preload options) "js" || preload_is (preload options) "js-lazy").
  { eapply hoare_bind; [apply frame_inject_script |]. intros u1. apply hoare_ret. }
  destruct (preload_is (preload options) "media").
  { eapply hoare_bind; [apply frame_link_attribute; simpl; auto |]. intros u1.
    eapply hoare_bind.
    { apply frame_removeAttribute. intros _ t a. apply Hremove. }
    intros u2.
    eapply hoare_bind; [apply frame_link_attribute; simpl; auto |]. intros u3.
    eapply hoare_bind; [apply frame_link_attribute; simpl; auto 6 |]. intros u4.
    apply hoare_ret. }
  destruct (preload_is (preload options) "swap").
  { eapply hoare_bind; [apply frame_link_attribute; simpl; auto 6 |]. intros u1.
    apply hoare_ret. }
  eapply hoare_bind; [apply frame_append_body_link |]. intros u1. apply hoare_ret.
Qed.

Lemma frame_embedLinkedStylesheet options l cssFiles :
  hoare I (embedLinkedStylesheet options l cssFiles) (fun _ => I).
Proof.
  unfold embedLinkedStylesheet.
  eapply hoare_bind; [apply frame_getAttribute |]. intros href.
  eapply hoare_bind; [apply frame_getAttribute |]. intros media.
  eapply hoare_bind.
  { unfold skipped. destruct (urlFilter options) as [f |]; [apply hoare_ret |].
    destruct href; [apply hoare_ret | apply hoare_throw]. }
  intros [|]; [apply hoare_ret |].
  eapply hoare_bind; [apply frame_inline_style |]. intros u.
  assert (Htail : hoare I
    (let* fallback :=
       rewrite_link options l href media
         (if preload_is (preload options) "js-lazy" then lazy_loader else loader)
         (preload_is (preload options) "js-lazy") in
     if is_not_false (noscriptFallback options) && fallback
     then add_noscript l href media
     else ret tt) (fun _ => I)).
  { eapply hoare_bind; [apply frame_rewrite_link |]. intros fallback.
    destruct (is_not_false (noscriptFallback options) && fallback);
      [apply frame_add_noscript | apply hoare_ret]. }
  destruct (preload options); [exact Htail | apply hoare_ret | exact Htail].
Qed.

End frame.

Section style_frame.
Variable Q : string -> list (string * string) -> Prop.
Variable i : node_id.

Local Abbreviation I := (element_with Q i).

Lemma frame_preload_font head src :
  hoare (fun s => I (dom s)) (preload_font head src) (fun _ s => I (dom s)).
Proof.
  unfold preload_font.
  intros s a s' HI Hrun. unfold bind at 1 in Hrun. simpl in Hrun.
  unfold bind at 1 in Hrun. simpl in Hrun.
  revert Hrun.
  apply (hoare_lift_dom I (fun _ => I)); [| exact HI].
  unfold createElement. apply frame_alloc. intros preload Hp.
  eapply hoare_bind; [apply frame_new_attribute; exact Hp |]. intros u.
  eapply hoare_bind; [apply frame_new_attribute; exact Hp |]. intros u0.
  eapply hoare_bind.
  { destruct (has_scheme src); [apply frame_new_attribute; exact Hp | apply hoare_ret]. }
  intros u1.
  eapply hoare_bind; [apply frame_new_attribute; exact Hp |]. intros u2.
  destruct head as [h |]; [apply frame_appendChild | apply hoare_throw].
Qed.

Lemma frame_font_iterator options head cf rl :
  hoare (fun s => I (dom s)) (font_iterator options head cf rl) (fun _ s => I (dom s)).
Proof.
  destruct rl as [sels decls | decls | hd rs | t]; try apply hoare_ret.
  unfold font_iterator.
  destruct (family_and_src decls None None) as [family src].
  intros s a s' HI Hrun. unfold bind at 1 in Hrun. simpl in Hrun.
  revert Hrun.
  apply (hoare_bind (fun s => I (dom s)) (fun _ s => I (dom s))
           (fun _ s => I (dom s))); [| | exact HI].
  - destruct (truthy src && shouldPreloadFonts options
              && negb (is_preloaded (default "" src) (preloadedFonts s)));
      [apply frame_preload_font | apply hoare_ret].
  - intros u. apply hoare_ret.
Qed.

Lemma frame_font_pass options head cf ast :
  hoare I (font_pass options head cf ast) (fun _ => I).
Proof.
  intros d a d' HI Hrun. unfold font_pass, walkStyleRules in Hrun.
  destruct (walk_list (font_iterator options head cf) ast (FontState [] d))
    as [[ast' s] | e] eqn:Hwalk; [| discriminate].
  inversion Hrun. subst.
  eapply (hoare_walk_list (fun s => I (dom s))); [| | exact Hwalk].
  - intros rl. apply frame_font_iterator.
  - exact HI.
Qed.

Lemma frame_remove_children turns style :
  hoare I (remove_children turns style) (fun _ => I).
Proof.
  induction turns as [| n IH]; simpl; [apply hoare_ret |].
  eapply hoare_bind; [apply frame_get_lastChild |].
  intros [c |]; [| apply hoare_ret].
  eapply hoare_bind; [apply frame_removeChild |]. intros u. exact IH.
Qed.

Lemma frame_style_text style : hoare I (style_text style) (fun _ => I).
Proof.
  intros d a d' HI Hrun. apply style_text_pure in Hrun. subst. exact HI.
Qed.

Lemma frame_processStyle querySelector parseStylesheet serializeStylesheet options style :
  hoare I (processStyle querySelector parseStylesheet serializeStylesheet options style)
    (fun _ => I).
Proof.
  unfold processStyle. intros d x d' HI Hrun. rewrite bind_get in Hrun. revert Hrun.
  apply (hoare_bind I (fun _ => I) (fun _ => I)); [apply frame_style_text | | exact HI].
  intros sheet. destruct (negb (truthy sheet)); [apply hoare_ret |].
  eapply hoare_bind; [apply frame_pure_of |]. intros ast.
  eapply hoare_bind; [apply frame_pure_of |]. intros [ast1 cf].
  eapply hoare_bind; [apply frame_font_pass |]. intros ast2.
  destruct (Nat.eqb _ 0).
  - eapply hoare_bind; [apply frame_get_parentNode |].
    intros [p |]; [apply frame_removeChild | apply hoare_ret].
  - eapply hoare_bind; [apply frame_get_childNodes |]. intros cs.
    eapply hoare_bind; [apply frame_remove_children |]. intros u.
    unfold createTextNode. apply frame_alloc. intros text Ht.
    apply frame_appendChild.
Qed.

End style_frame.

Section frame_theorems.
Variable querySelector : document -> string -> result (option node_id).
Variable parseStylesheet : string -> result stylesheet.
Variable serializeStylesheet : stylesheet -> bool -> string.
Variable options : Options.

Lemma other_attribute_set name name' v (a : list (string * string)) x :
  In name ["rel"; "as"; "media"; "onload"] ->
  ~ In name' ["rel"; "as"; "media"; "onload"] ->
  attr_get name' a = x -> attr_get name' (attr_set name v a) = x.
Proof.
  intros Hin Hout <-. apply attr_get_set_ne. intros ->. contradiction.
Qed.

(** X7: whatever the strategy, a call of [embedLinkedStylesheet] that
    returns leaves every element of the document an element with the
    tag it had, and changes no attribute other than [rel], [as],
    [media] and [onload]; in particular the [href] of the link. *)
Theorem embed_keeps_tags_and_other_attributes link cssFiles d d' i t a cs p nm name :
  embedLinkedStylesheet options link cssFiles d = Ok (tt, d') ->
  nodes d !! i = Some (Node (Element t a cs) p nm) ->
  ~ In name ["rel"; "as"; "media"; "onload"] ->
  exists a' cs' p' nm',
    nodes d' !! i = Some (Node (Element t a' cs') p' nm')
    /\ attr_get name a' = attr_get name a.
Proof.
  intros Hrun Hi Hname.
  pose (Q := fun (t0 : string) (a0 : list (string * string)) =>
               t0 = t /\ attr_get name a0 = attr_get name a).
  assert (HI : element_with Q i d).
  { exists t, a, cs, p, nm. split; [exact Hi | split; reflexivity]. }
  assert (HI' : element_with Q i d').
  { eapply (frame_embedLinkedStylesheet Q i); [| | exact HI | exact Hrun].
    - intros name0 v t0 a0 Hin [Ht Ha]. split; [exact Ht |].
      eapply other_attribute_set; eauto.
    - intros t0 a0 [Ht Ha]. split; [exact Ht |].
      rewrite attr_get_remove_ne; [exact Ha |].
      intros <-. apply Hname. simpl. auto. }
  destruct HI' as (t' & a' & cs' & p' & nm' & Hi' & -> & Ha).
  exists a', cs', p', nm'. split; assumption.
Qed.

(** X8: a call of [processStyle] that returns leaves every element of
    the document with its tag and all its attributes: it only moves
    nodes and adds new ones. *)
Theorem processStyle_keeps_tags_and_attributes style d d' i t a cs p nm :
  processStyle querySelector parseStylesheet serializeStylesheet options style d
    = Ok (tt, d') ->
  nodes d !! i = Some (Node (Element t a cs) p nm) ->
  exists cs' p' nm', nodes d' !! i = Some (Node (Element t a cs') p' nm').
Proof.
  intros Hrun Hi.
  pose (Q := fun (t0 : string) (a0 : list (string * string)) => t0 = t /\ a0 = a).
  assert (HI : element_with Q i d).
  { exists t, a, cs, p, nm. split; [exact Hi | split; reflexivity]. }
  pose proof (frame_processStyle Q i _ _ _ _ _ _ _ _ HI Hrun) as HI'.
  destruct HI' as (t' & a' & cs' & p' & nm' & Hi' & -> & ->).
  exists cs', p', nm'. exact Hi'.
Qed.

(** X9: with [external: false] a run of [process] that returns leaves
    every element of the page with its tag and all its attributes: no
    stylesheet link is rewritten. *)
Theorem external_false_keeps_attributes cssFiles d d' i t a cs p nm :
  external options = Some false ->
  process_document querySelector parseStylesheet serializeStylesheet options cssFiles d
    = Ok (tt, d') ->
  nodes d !! i = Some (Node (Element t a cs) p nm) ->
  exists cs' p' nm', nodes d' !! i = Some (Node (Element t a cs') p' nm').
Proof.
  intros Hext Hrun Hi.
  pose (Q := fun (t0 : string) (a0 : list (string * string)) => t0 = t /\ a0 = a).
  assert (HI : element_with Q i d).
  { exists t, a, cs, p, nm. split; [exact Hi | split; reflexivity]. }
  unfold process_document in Hrun. rewrite Hext in Hrun. simpl in Hrun.
  rewrite bind_ret, bind_get in Hrun.
  pose proof (frame_for_each Q i _ _
                (fun x => frame_processStyle Q i querySelector parseStylesheet
                            serializeStylesheet options x) _ _ _ HI Hrun) as HI'.
  destruct HI' as (t' & a' & cs' & p' & nm' & Hi' & -> & ->).
  exists cs', p', nm'. exact Hi'.
Qed.

(** X10: for any options, a run of [process] that returns leaves every
    element of the page with its tag and changes no attribute other
    than [rel], [as], [media] and [onload]. *)
Theorem process_keeps_tags_and_other_attributes cssFiles d d' i t a cs p nm name :
  process_document querySelector parseStylesheet serializeStylesheet options cssFiles d
    = Ok (tt, d') ->
  nodes d !! i = Some (Node (Element t a cs) p nm) ->
  ~ In name ["rel"; "as"; "media"; "onload"] ->
  exists a' cs' p' nm',
    nodes d' !! i = Some (Node (Element t a' cs') p' nm')
    /\ attr_get name a' = attr_get name a.
Proof.
  intros Hrun Hi Hname.
  pose (Q := fun (t0 : string) (a0 : list (string * string)) =>
               t0 = t /\ attr_get name a0 = attr_get name a).
  assert (HI : element_with Q i d).
  { exists t, a, cs, p, nm. split; [exact Hi | split; reflexivity]. }
  assert (Hembed : forall l, hoare (element_with Q i)
                     (embedLinkedStylesheet options l cssFiles)
                     (fun _ => element_with Q i)).
  { intros l. apply frame_embedLinkedStylesheet.
    - intros name0 v t0 a0 Hin [Ht Ha]. split; [exact Ht |].
      eapply other_attribute_set; eauto.
    - intros t0 a0 [Ht Ha]. split; [exact Ht |].
      rewrite attr_get_remove_ne; [exact Ha |].
      intros <-. apply Hname. simpl. auto. }
  assert (HI' : element_with Q i d').
  { revert Hrun. unfold process_document.
    apply (hoare_bind (element_with Q i) (fun _ => element_with Q i)
             (fun _ => element_with Q i)); [| | exact HI].
    - destruct (is_not_false (external options)); [| apply hoare_ret].
      intros d0 x d1 HI0 Hrun0. rewrite bind_get in Hrun0.
      eapply frame_for_each; [| exact HI0 | exact Hrun0]. exact Hembed.
    - intros u d0 x d1 HI0 Hrun0. rewrite bind_get in Hrun0.
      eapply frame_for_each; [| exact HI0 | exact Hrun0].
      intros x0. apply frame_processStyle. }
  destruct HI' as (t' & a' & cs' & p' & nm' & Hi' & -> & Ha).
  exists a', cs', p', nm'. split; assumption.
Qed.

End frame_theorems.
End Frames.

(** ** The patterns of lines 222 and 262 on families of inputs *)

Module RegexFacts.
Import JsString Regex Statements.

Lemma append_cons c (a b : string) : String c a ++ b = String c (a ++ b).
Proof. reflexivity. Qed.

Lemma append_nil (a : string) : "" ++ a = a.
Proof. reflexivity. Qed.

Lemma app_assoc_s (a b c : string) : (a ++ b) ++ c = a ++ (b ++ c).
Proof.
  induction a as [| x a IH]; [reflexivity |].
  rewrite !append_cons, IH. reflexivity.
Qed.

Lemma name_char_plain c :
  is_name_char c = true ->
  is_delimiter c = false /\ is_space c = false /\ Ascii.eqb c ":" = false.
Proof.
  destruct c as [[|] [|] [|] [|] [|] [|] [|] [|]]; vm_compute; intros H;
    try discriminate H; repeat split.
Qed.

Lemma delimiter_not_name c :
  is_delimiter c || is_space c = true -> is_name_char c = false.
Proof.
  intros H. destruct (is_name_char c) eqn:Hn; [| reflexivity].
  apply name_char_plain in Hn as (Hd & Hs & _). rewrite Hd, Hs in H. discriminate H.
Qed.

Lemma replace_colon_free s : colon_free s = true -> replace_pseudo 0 s = s.
Proof.
  induction s as [| c s IH]; simpl; [reflexivity |].
  intros H. apply andb_true_iff in H as [Hc Hs].
  destruct c as [[|] [|] [|] [|] [|] [|] [|] [|]]; try discriminate Hc;
    simpl; rewrite (IH Hs); reflexivity.
Qed.

Lemma all_chars_app f a b : all_chars f (a ++ b) = all_chars f a && all_chars f b.
Proof.
  induction a as [| c a IH]; [reflexivity |].
  rewrite append_cons. simpl. rewrite IH. apply andb_assoc.
Qed.

Lemma pseudo_at_other c s : Ascii.eqb c ":" = false -> pseudo_at (String c s) = None.
Proof.
  destruct c as [[|] [|] [|] [|] [|] [|] [|] [|]]; intros H; try reflexivity.
  discriminate H.
Qed.

Lemma pseudo_at_single c s :
  Ascii.eqb c ":" = false ->
  pseudo_at (String ":" (String c s)) = bump (pseudo_name (String c s)).
Proof.
  destruct c as [[|] [|] [|] [|] [|] [|] [|] [|]]; intros H; try reflexivity.
  discriminate H.
Qed.

Lemma replace_pseudo_head c s :
  replace_pseudo 0 (String c s)
  = match pseudo_at (String c s) with
    | Some (len, g) => g ++ replace_pseudo (pred len) s
    | None => String c (replace_pseudo 0 s)
    end.
Proof. reflexivity. Qed.

Lemma replace_copy x s :
  colon_free x = true -> replace_pseudo 0 (x ++ s) = x ++ replace_pseudo 0 s.
Proof.
  induction x as [| c x IH]; [reflexivity |].
  intros H. apply andb_true_iff in H as [Hc Hx].
  apply negb_true_iff in Hc.
  rewrite !append_cons, replace_pseudo_head.
  rewrite (pseudo_at_other _ _ Hc), (IH Hx). reflexivity.
Qed.

Lemma replace_skip a s : replace_pseudo (String.length a) (a ++ s) = replace_pseudo 0 s.
Proof. induction a as [| c a IH]; [reflexivity |]. rewrite append_cons. exact IH. Qed.

Lemma name_colon_free n : all_chars is_name_char n = true -> colon_free n = true.
Proof.
  induction n as [| c n IH]; [reflexivity |]. simpl.
  intros H. apply andb_true_iff in H as [Hc Hn].
  apply name_char_plain in Hc as (_ & _ & Hc).
  unfold colon_free. simpl. rewrite Hc. exact (IH Hn).
Qed.

(** The name is taken whole when what follows it can close the match. *)
Lemma pseudo_name_closed n rest k g :
  is_name n = true ->
  pseudo_tail rest = Some (k, g) ->
  pseudo_name (n ++ rest) = Some (String.length n + k, g).
Proof.
  intros Hn Htail.
  assert (Hrest : pseudo_name rest = None).
  { destruct rest as [| c r]; [reflexivity |]. simpl in *.
    destruct (is_delimiter c || is_space c) eqn:Hd; [| discriminate Htail].
    rewrite (delimiter_not_name _ Hd). reflexivity. }
  destruct n as [| c n]; [discriminate Hn |]. simpl in Hn.
  revert c Hn. induction n as [| c' n IH]; intros c Hn.
  - apply andb_true_iff in Hn as [Hc _].
    rewrite append_cons, append_nil. simpl. rewrite Hc, Hrest, Htail. reflexivity.
  - apply andb_true_iff in Hn as [Hc Hn].
    rewrite append_cons.
    change (pseudo_name (String c (String c' n ++ rest)))
      with (if is_name_char c
            then match pseudo_name (String c' n ++ rest) with
                 | Some r => bump (Some r)
                 | None => bump (pseudo_tail (String c' n ++ rest))
                 end
            else None).
    rewrite Hc, (IH c' Hn). reflexivity.
Qed.

(** No prefix of the name closes the match when the name is followed by
    a code unit that is neither a name character nor a delimiter. *)
Lemma pseudo_name_open n c r :
  all_chars is_name_char n = true ->
  is_name_char c = false -> is_delimiter c || is_space c = false ->
  pseudo_name (n ++ String c r) = None.
Proof.
  intros Hn Hc Hd. induction n as [| c' n IH].
  - simpl. rewrite Hc. reflexivity.
  - simpl in Hn. apply andb_true_iff in Hn as [Hc' Hn].
    rewrite append_cons.
    change (pseudo_name (String c' (n ++ String c r)))
      with (if is_name_char c'
            then match pseudo_name (n ++ String c r) with
                 | Some r0 => bump (Some r0)
                 | None => bump (pseudo_tail (n ++ String c r))
                 end
            else None).
    rewrite Hc', (IH Hn).
    destruct n as [| c'' n]; simpl.
    + rewrite Hd. reflexivity.
    + simpl in Hn. apply andb_true_iff in Hn as [Hc'' _].
      apply name_char_plain in Hc'' as (Hd'' & Hs'' & _).
      rewrite Hd'', Hs''. reflexivity.
Qed.

Lemma name_head n :
  is_name n = true -> exists c n', n = String c n' /\ Ascii.eqb c ":" = false.
Proof.
  destruct n as [| c n]; [discriminate |]. simpl. intros H.
  apply andb_true_iff in H as [Hc _]. apply name_char_plain in Hc as (_ & _ & Hc).
  eauto.
Qed.

(** One match of the pattern at the head of the input. *)
Lemma replace_match colons n rest k g :
  colons = ":" \/ colons = "::" ->
  is_name n = true ->
  pseudo_tail rest = Some (k, g) ->
  replace_pseudo 0 (colons ++ n ++ rest) = g ++ replace_pseudo k rest.
Proof.
  intros Hcolons Hn Htail.
  pose proof (pseudo_name_closed n rest k g Hn Htail) as Hname.
  destruct (name_head n Hn) as (c & n' & Heq & Hc).
  destruct Hcolons as [-> | ->].
  - rewrite append_cons, append_nil.
    change (replace_pseudo 0 (String ":" (n ++ rest)))
      with (match pseudo_at (String ":" (n ++ rest)) with
            | Some (len, g0) => g0 ++ replace_pseudo (pred len) (n ++ rest)
            | None => String ":" (replace_pseudo 0 (n ++ rest))
            end).
    assert (Hat : pseudo_at (String ":" (n ++ rest))
                  = Some (S (String.length n + k), g)).
    { subst n. rewrite append_cons in Hname |- *.
      rewrite (pseudo_at_single _ _ Hc), Hname. reflexivity. }
    rewrite Hat. simpl pred.
    f_equal. clear. induction n as [| c n IH]; [reflexivity |].
    rewrite append_cons. exact IH.
  - rewrite !append_cons, append_nil.
    change (replace_pseudo 0 (String ":" (String ":" (n ++ rest))))
      with (match pseudo_at (String ":" (String ":" (n ++ rest))) with
            | Some (len, g0) => g0 ++ replace_pseudo (pred len) (String ":" (n ++ rest))
            | None => String ":" (replace_pseudo 0 (String ":" (n ++ rest)))
            end).
    assert (Hat : pseudo_at (String ":" (String ":" (n ++ rest)))
                  = Some (S (S (String.length n + k)), g)).
    { unfold pseudo_at. rewrite Hname. reflexivity. }
    rewrite Hat. simpl pred.
    f_equal. change (replace_pseudo (S (String.length n + k)) (String ":" (n ++ rest)))
      with (replace_pseudo (String.length n + k) (n ++ rest)).
    clear. induction n as [| c n IH]; [reflexivity |].
    rewrite append_cons. exact IH.
Qed.

(** X11: in a selector whose head [x] has no colon, a pseudo-class or
    pseudo-element (one or two colons and a name of letters and
    hyphens) that ends the selector is dropped; when a delimiter or a
    blank follows it, the pseudo is dropped, the delimiter is kept and
    the replacement goes on after the delimiter. *)
Theorem strip_pseudo_drops_the_pseudo x colons n :
  colon_free x = true -> is_name n = true -> colons = ":" \/ colons = "::" ->
  strip_pseudo (x ++ colons ++ n) = x
  /\ forall c r, is_delimiter c || is_space c = true ->
       strip_pseudo (x ++ colons ++ n ++ String c r) = x ++ String c (strip_pseudo r).
Proof.
  intros Hx Hn Hcolons. unfold strip_pseudo. split.
  - rewrite (replace_copy _ _ Hx).
    replace (colons ++ n) with (colons ++ n ++ "").
    + rewrite (replace_match colons n "" 0 "" Hcolons Hn eq_refl).
      clear. induction x as [| c x IH]; [reflexivity |].
      rewrite append_cons, IH. reflexivity.
    + f_equal. clear. induction n as [| c n IH]; [reflexivity |].
      rewrite append_cons, IH. reflexivity.
  - intros c r Hc. rewrite (replace_copy _ _ Hx).
    rewrite (replace_match colons n (String c r) 1 (String c "") Hcolons Hn).
    + reflexivity.
    + simpl. rewrite Hc. reflexivity.
Qed.

(** X12: of two chained pseudo-classes only the first is dropped: the
    colon of the second is consumed as the delimiter of the first
    match, so the search resumes inside the second name. *)
Theorem second_pseudo_class_survives x n1 n2 :
  colon_free x = true -> is_name n1 = true -> is_name n2 = true ->
  strip_pseudo (x ++ ":" ++ n1 ++ ":" ++ n2) = x ++ ":" ++ n2.
Proof.
  intros Hx H1 H2. unfold strip_pseudo. rewrite (replace_copy _ _ Hx).
  rewrite (replace_match ":" n1 (":" ++ n2) 1 ":" (or_introl eq_refl) H1 eq_refl).
  change (replace_pseudo 1 (":" ++ n2)) with (replace_pseudo 0 n2).
  rewrite replace_colon_free; [reflexivity |].
  apply name_colon_free. destruct n2; [discriminate H2 | exact H2].
Qed.

(** X13: a pseudo whose name is followed by any other code unit (an
    opening parenthesis, a digit) is not matched by the pattern and
    stays in the selector handed to the selector engine. *)
Theorem strip_pseudo_keeps_other_pseudo x colons n c r :
  colon_free x = true -> is_name n = true -> colons = ":" \/ colons = "::" ->
  is_name_char c = false -> is_delimiter c || is_space c = false ->
  strip_pseudo (x ++ colons ++ n ++ String c r)
  = x ++ colons ++ n ++ String c (strip_pseudo r).
Proof.
  intros Hx Hn Hcolons Hc Hd. unfold strip_pseudo.
  rewrite (replace_copy _ _ Hx). f_equal.
  assert (Hall : all_chars is_name_char n = true).
  { destruct n; [discriminate Hn | exact Hn]. }
  pose proof (pseudo_name_open n c r Hall Hc Hd) as Hopen.
  destruct (name_head n Hn) as (c0 & n' & Heq & Hc0).
  assert (Hcolon : Ascii.eqb c ":" = false).
  { destruct (Ascii.eqb c ":") eqn:E; [| reflexivity].
    apply Ascii.eqb_eq in E. subst c. discriminate Hd. }
  assert (Hbody : replace_pseudo 0 (n ++ String c r)
                  = n ++ String c (replace_pseudo 0 r)).
  { rewrite (replace_copy _ _ (name_colon_free _ Hall)). f_equal.
    rewrite replace_pseudo_head, (pseudo_at_other _ _ Hcolon). reflexivity. }
  assert (Hone : replace_pseudo 0 (String ":" (n ++ String c r))
                 = String ":" (n ++ String c (replace_pseudo 0 r))).
  { change (replace_pseudo 0 (String ":" (n ++ String c r)))
      with (match pseudo_at (String ":" (n ++ String c r)) with
            | Some (len, g0) => g0 ++ replace_pseudo (pred len) (n ++ String c r)
            | None => String ":" (replace_pseudo 0 (n ++ String c r))
            end).
    assert (Hat : pseudo_at (String ":" (n ++ String c r)) = None).
    { subst n. rewrite append_cons in Hopen |- *.
      rewrite (pseudo_at_single _ _ Hc0), Hopen. reflexivity. }
    rewrite Hat, Hbody. reflexivity. }
  destruct Hcolons as [-> | ->].
  - rewrite !append_cons, !append_nil. exact Hone.
  - rewrite !append_cons, !append_nil.
    change (replace_pseudo 0 (String ":" (String ":" (n ++ String c r))))
      with (match pseudo_at (String ":" (String ":" (n ++ String c r))) with
            | Some (len, g0) =>
                g0 ++ replace_pseudo (pred len) (String ":" (n ++ String c r))
            | None => String ":" (replace_pseudo 0 (String ":" (n ++ String c r)))
            end).
    assert (Hat : pseudo_at (String ":" (String ":" (n ++ String c r))) = None).
    { unfold pseudo_at. rewrite Hopen. reflexivity. }
    rewrite Hat, Hone. reflexivity.
Qed.


(** *** The URL of a [src] declaration *)

Lemma skip_blank b s :
  blank b = true ->
  match s with String c _ => is_space c = false | EmptyString => True end ->
  skip_space (b ++ s) = s.
Proof.
  intros Hb Hs. induction b as [| c b IH].
  - rewrite append_nil. destruct s as [| c s]; [reflexivity |].
    simpl. rewrite Hs. reflexivity.
  - simpl in Hb. apply andb_true_iff in Hb as [Hc Hb].
    rewrite append_cons. simpl. rewrite Hc. exact (IH Hb).
Qed.

Lemma url_char_plain c :
  url_char c = true ->
  is_space c = false /\ is_quote c = false /\ Ascii.eqb c ")" = false
  /\ is_line_terminator c = false.
Proof.
  unfold url_char. intros H.
  apply andb_true_iff in H as [H H3]. apply andb_true_iff in H as [H1 H2].
  apply negb_true_iff in H1, H2, H3. repeat split; try assumption.
  revert H1. unfold is_space, is_line_terminator, in_range.
  destruct (code c =? 10)%N eqn:E10.
  { apply N.eqb_eq in E10. rewrite E10. discriminate. }
  destruct (code c =? 13)%N eqn:E13.
  { apply N.eqb_eq in E13. rewrite E13. discriminate. }
  reflexivity.
Qed.

Lemma strip_prefix_app q s : strip_prefix q (q ++ s) = Some s.
Proof.
  induction q as [| c q IH]; [reflexivity |].
  rewrite append_cons. simpl. rewrite Ascii.eqb_refl. exact IH.
Qed.

(** The lazy run stops at the first place where the quote, blanks and
    the parenthesis follow: the end of [u]. *)
Lemma url_body_run q u b rest :
  q = "" \/ (exists c, q = String c "" /\ is_quote c = true) ->
  is_url u = true -> blank b = true ->
  url_body q (u ++ q ++ b ++ ")" ++ rest) = Some u.
Proof.
  intros Hq Hu Hb.
  destruct u as [| c u]; [discriminate Hu |]. simpl in Hu.
  revert c Hu. induction u as [| c' u IH]; intros c Hu.
  - apply andb_true_iff in Hu as [Hc _].
    apply url_char_plain in Hc as (_ & _ & _ & Hlt).
    rewrite append_cons, append_nil. simpl. rewrite Hlt.
    unfold url_close. rewrite strip_prefix_app.
    rewrite (skip_blank b (")" ++ rest) Hb eq_refl). reflexivity.
  - apply andb_true_iff in Hu as [Hc Hu].
    pose proof Hu as Hu'. simpl in Hu'. apply andb_true_iff in Hu' as [Hc' _].
    apply url_char_plain in Hc as (_ & _ & _ & Hlt).
    apply url_char_plain in Hc' as (Hs' & Hq' & Hp' & _).
    rewrite append_cons.
    change (url_body q (String c (String c' u ++ q ++ b ++ ")" ++ rest)))
      with (if is_line_terminator c then None
            else if url_close q (String c' u ++ q ++ b ++ ")" ++ rest)
                 then Some (String c "")
                 else option_map (String c)
                        (url_body q (String c' u ++ q ++ b ++ ")" ++ rest))).
    rewrite Hlt, (IH c' Hu).
    assert (Hclose : url_close q (String c' u ++ q ++ b ++ ")" ++ rest) = false).
    { rewrite append_cons. unfold url_close.
      destruct Hq as [-> | (qc & -> & Hqc)].
      - simpl. rewrite Hs'.
        destruct c' as [[|] [|] [|] [|] [|] [|] [|] [|]]; try reflexivity.
        discriminate Hp'.
      - simpl. destruct (Ascii.eqb qc c') eqn:E; [| reflexivity].
        apply Ascii.eqb_eq in E. subst c'. congruence. }
    rewrite Hclose. reflexivity.
Qed.

Lemma url_arg_blank b s r :
  blank b = true ->
  match s with String c _ => is_space c = false | EmptyString => False end ->
  url_quoted s = Some r ->
  url_arg (b ++ s) = Some r.
Proof.
  intros Hb Hs Hr. induction b as [| c b IH].
  - rewrite append_nil. destruct s as [| c s]; [destruct Hs |].
    simpl. rewrite Hs. exact Hr.
  - simpl in Hb. apply andb_true_iff in Hb as [Hc Hb].
    rewrite append_cons.
    change (url_arg (String c (b ++ s)))
      with (if is_space c
            then match url_arg (b ++ s) with
                 | Some r0 => Some r0
                 | None => url_quoted (String c (b ++ s))
                 end
            else url_quoted (String c (b ++ s))).
    rewrite Hc, (IH Hb). reflexivity.
Qed.

(** X14: the pattern of line 262 reads the URL of a [url(...)] value:
    with or without blanks around the parentheses, bare or between
    single or double quotes, and whatever follows the closing
    parenthesis, group 2 is the URL itself, for a URL without blanks,
    quotes and closing parentheses. *)
Theorem url_src_reads_the_url q u b0 b1 b2 rest :
  q = "" \/ q = "'" \/ q = dquote ->
  is_url u = true -> blank b0 = true -> blank b1 = true -> blank b2 = true ->
  url_src ("url" ++ b0 ++ "(" ++ b1 ++ q ++ u ++ q ++ b2 ++ ")" ++ rest) = Some u.
Proof.
  intros Hq Hu H0 H1 H2.
  assert (Hq' : q = "" \/ (exists c, q = String c "" /\ is_quote c = true)).
  { destruct Hq as [-> | [-> | ->]]; [left; reflexivity | right | right];
      eexists; split; reflexivity. }
  pose proof (url_body_run q u b2 rest Hq' Hu H2) as Hbody.
  assert (Hquoted : url_quoted (q ++ u ++ q ++ b2 ++ ")" ++ rest) = Some u).
  { destruct Hq' as [-> | (qc & -> & Hqc)].
    - rewrite append_nil in Hbody |- *.
      destruct u as [| c u]; [discriminate Hu |].
      pose proof Hu as Hc. simpl in Hc. apply andb_true_iff in Hc as [Hc _].
      apply url_char_plain in Hc as (_ & Hnq & _ & _).
      rewrite append_cons in Hbody |- *. unfold url_quoted. rewrite Hnq.
      exact Hbody.
    - rewrite append_cons, append_nil. unfold url_quoted. rewrite Hqc, Hbody.
      reflexivity. }
  assert (Harg : url_arg (b1 ++ q ++ u ++ q ++ b2 ++ ")" ++ rest) = Some u).
  { apply url_arg_blank; [exact H1 | | exact Hquoted].
    destruct Hq' as [-> | (qc & -> & Hqc)].
    - rewrite append_nil. destruct u as [| c u]; [discriminate Hu |].
      simpl in Hu. apply andb_true_iff in Hu as [Hc _].
      apply url_char_plain in Hc as (Hs & _). rewrite append_cons. exact Hs.
    - rewrite append_cons. unfold is_quote in Hqc. unfold is_space, in_range.
      apply orb_true_iff in Hqc as [E | E]; apply N.eqb_eq in E; rewrite E;
        reflexivity. }
  assert (Hat : url_at ("url" ++ b0 ++ "(" ++ b1 ++ q ++ u ++ q ++ b2 ++ ")" ++ rest)
                = Some u).
  { unfold url_at. rewrite strip_prefix_app.
    rewrite skip_blank; [| exact H0 | reflexivity].
    rewrite append_cons, append_nil. exact Harg. }
  change ("url" ++ b0 ++ "(" ++ b1 ++ q ++ u ++ q ++ b2 ++ ")" ++ rest)
    with (String "u" ("rl" ++ b0 ++ "(" ++ b1 ++ q ++ u ++ q ++ b2 ++ ")" ++ rest))
    in Hat |- *.
  unfold url_src. fold url_src. rewrite Hat. reflexivity.
Qed.

Lemma url_body_not_empty q s r : url_body q s = Some r -> r <> "".
Proof.
  destruct s as [| c s]; simpl; [discriminate |].
  destruct (is_line_terminator c); [discriminate |].
  destruct (url_close q s).
  - intros H. inversion H. discriminate.
  - destruct (url_body q s); simpl; intros H; inversion H. discriminate.
Qed.

(** The lazy group [(.+?)] takes at least one code unit: the URL read
    from a [src] declaration is never the empty string. *)
Lemma url_src_not_empty value r : url_src value = Some r -> r <> "".
Proof.
  assert (Hquoted : forall s, url_quoted s = Some r -> r <> "").
  { intros s. unfold url_quoted. destruct s as [| c s]; [discriminate |].
    destruct (is_quote c).
    - destruct (url_body (String c "") s) eqn:Hb.
      + intros H. inversion H. subst. eapply url_body_not_empty. exact Hb.
      + apply url_body_not_empty.
    - apply url_body_not_empty. }
  assert (Harg : forall s, url_arg s = Some r -> r <> "").
  { induction s as [| c s IH]; [discriminate |].
    change (url_arg (String c s))
      with (if is_space c
            then match url_arg s with
                 | Some r0 => Some r0
                 | None => url_quoted (String c s)
                 end
            else url_quoted (String c s)).
    destruct (is_space c); [| apply Hquoted].
    destruct (url_arg s) eqn:Hs; [| apply Hquoted].
    intros H. inversion H. subst. apply IH. reflexivity. }
  assert (Hat : forall s, url_at s = Some r -> r <> "").
  { intros s. unfold url_at. destruct (strip_prefix "url" s); [| discriminate].
    destruct (skip_space s0) as [| c s1]; [discriminate |].
    destruct c as [[|] [|] [|] [|] [|] [|] [|] [|]]; try discriminate.
    apply Harg. }
  induction value as [| c v IH].
  - discriminate.
  - change (url_src (String c v))
      with (match url_at (String c v) with
            | Some r0 => Some r0
            | None => url_src v
            end).
    destruct (url_at (String c v)) eqn:H0; [| exact IH].
    intros H. inversion H. subst. eapply Hat. exact H0.
Qed.

End RegexFacts.

(** ** The first walk: what is left, and running it again *)

Module PrunerFacts.
Import JsString Regex Dom Css Critters Statements CssFacts DomFacts Pruner.
Section pruner_facts.
Variable querySelector : document -> string -> result (option node_id).
Variable d : document.

Local Abbreviation answers := (Statements.answers querySelector d).
Local Abbreviation m := (matches querySelector d).
Local Abbreviation iterator := (prune_iterator querySelector d).

(** A filter that returns has had an answer for every selector. *)
Lemma filter_ok_answers sels : forall (cf : string) sels' cf',
  filter_st (fun sel => pure_of (selector_matches querySelector d sel)) sels cf
    = Ok (sels', cf') ->
  Forall answers sels.
Proof.
  induction sels as [| sel sels IH]; intros cf sels' cf' Hrun; [constructor |].
  simpl in Hrun. unfold bind at 1 in Hrun. unfold pure_of at 1 in Hrun.
  unfold selector_matches at 1 in Hrun.
  destruct (querySelector d (strip_pseudo sel)) as [o |] eqn:Hq.
  - constructor; [exists o; exact Hq |].
    unfold bind in Hrun.
    destruct o;
      destruct (filter_st _ sels cf) as [[rest cf0] |] eqn:Hrest;
      try discriminate Hrun; eapply IH; exact Hrest.
  - discriminate Hrun.
Qed.

Lemma visit_ok_answers r (cf : string) o cf' :
  match r with ContainerRule _ _ => False | _ => True end ->
  visit iterator r cf = Ok (o, cf') -> Forall answers (selectors_in r).
Proof.
  intros Hleaf Hrun. destruct r as [sels decls | decls | h rs | t];
    try constructor; [| destruct Hleaf].
  simpl. unfold visit, prune_iterator in Hrun. rewrite bind_assoc in Hrun.
  unfold bind at 1 in Hrun.
  destruct (filter_st _ sels cf) as [[sels' cf0] |] eqn:Hf; [| discriminate Hrun].
  eapply filter_ok_answers. exact Hf.
Qed.

Lemma walk_rule_ok_answers r : forall (cf : string) o cf',
  walk_rule iterator r cf = Ok (o, cf') -> Forall answers (selectors_in r).
Proof.
  induction r as [sels decls | decls | h rs IH | t] using rule_nested_ind;
    intros cf o cf' Hrun.
  - eapply (visit_ok_answers (StyleRule sels decls)); [exact I | exact Hrun].
  - constructor.
  - rewrite walk_rule_container in Hrun. unfold bind at 1 in Hrun.
    destruct (walk_list iterator rs cf) as [[rs' cf0] |] eqn:Hlist;
      [| discriminate Hrun].
    clear Hrun. simpl. revert cf rs' cf0 Hlist.
    induction IH as [| r rs Hr _ IHrs]; intros cf rs' cf0 Hlist; [constructor |].
    simpl in Hlist. unfold bind at 1 in Hlist.
    destruct (walk_rule iterator r cf) as [[o1 cf1] |] eqn:Hw; [| discriminate Hlist].
    unfold bind at 1 in Hlist.
    destruct (walk_list iterator rs cf1) as [[rs1 cf2] |] eqn:Hl; [| discriminate Hlist].
    simpl. apply Forall_app. split; [eapply Hr; exact Hw | eapply IHrs; exact Hl].
  - constructor.
Qed.

Lemma walk_list_ok_answers rs : forall (cf : string) rs' cf',
  walk_list iterator rs cf = Ok (rs', cf') -> Forall answers (flat_map selectors_in rs).
Proof.
  induction rs as [| r rs IH]; intros cf rs' cf' Hrun; [constructor |].
  simpl in Hrun. unfold bind at 1 in Hrun.
  destruct (walk_rule iterator r cf) as [[o1 cf1] |] eqn:Hw; [| discriminate Hrun].
  unfold bind at 1 in Hrun.
  destruct (walk_list iterator rs cf1) as [[rs1 cf2] |] eqn:Hl; [| discriminate Hrun].
  simpl. apply Forall_app. split; [eapply walk_rule_ok_answers; exact Hw | eapply IH; exact Hl].
Qed.

Lemma walk_list_pruned rs : forall (cf : string),
  Forall answers (flat_map selectors_in rs) ->
  walk_list iterator rs cf =
  Ok (omap (pruned m) rs, fold_left (fun acc r => corpus m r acc) rs cf).
Proof.
  induction rs as [| r rs IH]; intros cf Hans; [reflexivity |].
  simpl in Hans. apply Forall_app in Hans as [Hans1 Hans2].
  simpl. rewrite (bind_ok _ _ _ _ _ (walk_rule_pruned querySelector d _ _ Hans1)).
  rewrite (bind_ok _ _ _ _ _ (IH _ Hans2)).
  unfold ret. destruct (pruned m r); reflexivity.
Qed.

End pruner_facts.

Section pruned_facts.
Variable m : string -> bool.

Lemma filter_all (sels : list string) :
  forallb m sels = true -> List.filter m sels = sels.
Proof.
  induction sels as [| s sels IH]; simpl; [reflexivity |].
  intros H. apply andb_true_iff in H as [Hs Hrest]. rewrite Hs, (IH Hrest). reflexivity.
Qed.

Lemma forallb_filter (sels : list string) : forallb m (List.filter m sels) = true.
Proof.
  induction sels as [| s sels IH]; simpl; [reflexivity |].
  destruct (m s) eqn:Hs; simpl; [rewrite Hs |]; exact IH.
Qed.

Lemma pruned_well r : forall r', pruned m r = Some r' -> well_pruned m r' = true.
Proof.
  induction r as [sels decls | decls | h rs IH | t] using rule_nested_ind;
    intros r' Hp; simpl in Hp.
  - pose proof (forallb_filter sels) as Hall.
    destruct (List.filter m sels) as [| s0 rest]; [discriminate Hp |].
    inversion Hp. subst r'. simpl in Hall |- *. exact Hall.
  - inversion Hp. reflexivity.
  - assert (Hall : forallb (well_pruned m) (omap (pruned m) rs) = true).
    { clear Hp. induction IH as [| r rs Hr _ IHrs]; [reflexivity |].
      simpl. destruct (pruned m r) as [r1 |] eqn:Hr1; [| exact IHrs].
      simpl. rewrite (Hr _ eq_refl). exact IHrs. }
    destruct (omap (pruned m) rs) as [| r0 rest]; [discriminate Hp |].
    inversion Hp. subst r'. simpl in Hall |- *. exact Hall.
  - inversion Hp. reflexivity.
Qed.

Lemma pruned_container h rs :
  pruned m (ContainerRule h rs)
  = match omap (pruned m) rs with
    | [] => None
    | rs' => Some (ContainerRule h rs')
    end.
Proof. reflexivity. Qed.

Lemma corpus_container h rs (c : string) :
  corpus m (ContainerRule h rs) c = fold_left (fun acc r0 => corpus m r0 acc) rs c.
Proof. reflexivity. Qed.

Lemma corpus_style sels decls (c : string) :
  corpus m (StyleRule sels decls) c
  = match List.filter m sels with
    | [] => c
    | _ => collect_fonts decls c
    end.
Proof. reflexivity. Qed.

Lemma well_pruned_container h rs :
  well_pruned m (ContainerRule h rs)
  = negb (Nat.eqb (length rs) 0) && forallb (well_pruned m) rs.
Proof. reflexivity. Qed.

(** A rule that is well pruned is a fixed point of the pruner. *)
Lemma well_pruned_fixed r : well_pruned m r = true -> pruned m r = Some r.
Proof.
  induction r as [sels decls | decls | h rs IH | t] using rule_nested_ind;
    intros Hw; try reflexivity.
  - simpl in Hw |- *.
    apply andb_true_iff in Hw as [Hne Hall]. rewrite (filter_all _ Hall).
    destruct sels; [discriminate Hne | reflexivity].
  - rewrite well_pruned_container in Hw. rewrite pruned_container.
    apply andb_true_iff in Hw as [Hne Hall].
    assert (Hfix : omap (pruned m) rs = rs).
    { clear Hne. induction IH as [| r rs Hr _ IHrs]; [reflexivity |].
      simpl in Hall. apply andb_true_iff in Hall as [H1 H2].
      simpl. rewrite (Hr H1). simpl. f_equal. exact (IHrs H2). }
    rewrite Hfix. destruct rs; [discriminate Hne | reflexivity].
Qed.

Lemma omap_pruned_fixed rs :
  forallb (well_pruned m) rs = true -> omap (pruned m) rs = rs.
Proof.
  induction rs as [| r rs IH]; [reflexivity |].
  simpl. intros H. apply andb_true_iff in H as [H1 H2].
  rewrite (well_pruned_fixed _ H1). simpl. f_equal. exact (IH H2).
Qed.

Lemma omap_pruned_well rs : forallb (well_pruned m) (omap (pruned m) rs) = true.
Proof.
  induction rs as [| r rs IH]; [reflexivity |].
  simpl. destruct (pruned m r) as [r1 |] eqn:Hr1; [| exact IH].
  simpl. rewrite (pruned_well _ _ Hr1). exact IH.
Qed.

Lemma corpus_pruned r : forall (c : string),
  corpus m r c = match pruned m r with Some r' => corpus m r' c | None => c end.
Proof.
  induction r as [sels decls | decls | h rs IH | t] using rule_nested_ind;
    intros c; try reflexivity.
  - simpl. pose proof (forallb_filter sels) as Hall.
    destruct (List.filter m sels) as [| s0 rest] eqn:Hf; [reflexivity |].
    rewrite corpus_style, (filter_all _ Hall). reflexivity.
  - rewrite pruned_container, corpus_container.
    assert (Hfold : forall c0,
      fold_left (fun acc r0 => corpus m r0 acc) rs c0
      = fold_left (fun acc r0 => corpus m r0 acc) (omap (pruned m) rs) c0).
    { induction IH as [| r rs Hr _ IHrs]; intros c0; [reflexivity |].
      simpl. rewrite Hr. destruct (pruned m r) as [r1 |] eqn:Hr1; simpl; apply IHrs. }
    rewrite Hfold.
    destruct (omap (pruned m) rs) as [| r0 rest]; [reflexivity |].
    rewrite corpus_container. reflexivity.
Qed.

Lemma fold_corpus_pruned rs : forall (c : string),
  fold_left (fun acc r => corpus m r acc) (omap (pruned m) rs) c
  = fold_left (fun acc r => corpus m r acc) rs c.
Proof.
  induction rs as [| r rs IH]; intros c; [reflexivity |].
  simpl. rewrite (corpus_pruned r c).
  destruct (pruned m r) as [r1 |]; simpl; apply IH.
Qed.

Lemma selectors_pruned (P : string -> Prop) r : forall r',
  pruned m r = Some r' -> Forall P (selectors_in r) -> Forall P (selectors_in r').
Proof.
  induction r as [sels decls | decls | h rs IH | t] using rule_nested_ind;
    intros r' Hp Hall.
  - simpl in Hp.
    destruct (List.filter m sels) as [| s0 rest] eqn:Hf; [discriminate Hp |].
    inversion Hp. subst r'. simpl in Hall |- *. rewrite <- Hf.
    apply Forall_forall. intros x Hx. apply list_elem_of_In in Hx.
    apply filter_In in Hx as [Hx _].
    rewrite Forall_forall in Hall. apply Hall. apply list_elem_of_In. exact Hx.
  - inversion Hp. subst. exact Hall.
  - rewrite pruned_container in Hp.
    assert (Hlist : Forall P (flat_map selectors_in (omap (pruned m) rs))).
    { clear Hp. simpl in Hall. induction IH as [| r rs Hr _ IHrs]; [constructor |].
      simpl in Hall. apply Forall_app in Hall as [H1 H2].
      simpl. destruct (pruned m r) as [r1 |] eqn:Hr1; [| exact (IHrs H2)].
      simpl. apply Forall_app. split; [exact (Hr _ eq_refl H1) | exact (IHrs H2)]. }
    destruct (omap (pruned m) rs) as [| r0 rest]; [discriminate Hp |].
    inversion Hp. subst r'. exact Hlist.
  - inversion Hp. subst. exact Hall.
Qed.

Lemma selectors_omap_pruned (P : string -> Prop) rs :
  Forall P (flat_map selectors_in rs) ->
  Forall P (flat_map selectors_in (omap (pruned m) rs)).
Proof.
  induction rs as [| r rs IH]; [constructor |].
  simpl. intros Hall. apply Forall_app in Hall as [H1 H2].
  destruct (pruned m r) as [r1 |] eqn:Hr1; [| exact (IH H2)].
  simpl. apply Forall_app. split; [exact (selectors_pruned P _ _ Hr1 H1) | exact (IH H2)].
Qed.

End pruned_facts.

Section prune_theorems.
Variable querySelector : document -> string -> result (option node_id).
Variable d : document.

(** X15: whatever the selector engine, when the first walk returns,
    every selector left in the stylesheet matches, no style rule is
    left without a selector and no rule with nested rules is left
    empty, at any depth. *)
Theorem prune_leaves_matching_rules ast ast' cf :
  prune querySelector d ast = Ok (ast', cf) ->
  forallb (well_pruned (matches querySelector d)) ast' = true.
Proof.
  intros Hrun. unfold prune, walkStyleRules in Hrun.
  pose proof (walk_list_ok_answers _ _ _ _ _ _ Hrun) as Hans.
  rewrite (walk_list_pruned _ _ _ _ Hans) in Hrun. inversion Hrun.
  apply omap_pruned_well.
Qed.

(** X16: the first walk is idempotent: run again on its own result
    against the same document, it returns that result unchanged and
    collects the same font corpus. *)
Theorem prune_is_idempotent ast ast' cf :
  prune querySelector d ast = Ok (ast', cf) ->
  prune querySelector d ast' = Ok (ast', cf).
Proof.
  intros Hrun. unfold prune, walkStyleRules in Hrun |- *.
  pose proof (walk_list_ok_answers _ _ _ _ _ _ Hrun) as Hans.
  rewrite (walk_list_pruned _ _ _ _ Hans) in Hrun. inversion Hrun. clear Hrun.
  rewrite walk_list_pruned by (apply selectors_omap_pruned; exact Hans).
  rewrite omap_pruned_fixed by apply omap_pruned_well.
  rewrite fold_corpus_pruned. reflexivity.
Qed.

End prune_theorems.
End PrunerFacts.

(** ** The two walks together: fonts in use *)

Module UsedFonts.
Import JsString Regex Dom Css Critters Statements CssFacts DomFacts Pruner.
Import RegexFacts PrunerFacts.

Lemma append_empty (a : string) : a ++ "" = a.
Proof. induction a as [| c a IH]; [reflexivity |]. rewrite append_cons, IH. reflexivity. Qed.

Lemma starts_with_app p s : starts_with p (p ++ s) = true.
Proof. unfold starts_with. rewrite strip_prefix_app. reflexivity. Qed.

Lemma includes_here p s : starts_with p s = true -> includes p s = true.
Proof. intros H. destruct s; simpl; rewrite H; reflexivity. Qed.

Lemma includes_right p a b : includes p b = true -> includes p (a ++ b) = true.
Proof.
  intros H. induction a as [| c a IH]; [exact H |].
  rewrite append_cons. simpl. rewrite IH. apply orb_true_r.
Qed.

Lemma strip_prefix_left p a b r :
  strip_prefix p a = Some r -> strip_prefix p (a ++ b) = Some (r ++ b).
Proof.
  revert a. induction p as [| x p IH]; intros a H.
  - simpl in H. inversion H. destruct a; reflexivity.
  - destruct a as [| y a]; [discriminate H |].
    rewrite append_cons. simpl in H |- *.
    destruct (Ascii.eqb x y); [apply IH; exact H | discriminate H].
Qed.

Lemma includes_left p a b : includes p a = true -> includes p (a ++ b) = true.
Proof.
  induction a as [| c a IH]; intros H.
  - simpl in H. rewrite orb_false_r in H. unfold starts_with in H.
    destruct p; [| discriminate H]. destruct b; reflexivity.
  - simpl in H. apply orb_true_iff in H as [H | H].
    + apply includes_here. unfold starts_with in H |- *.
      destruct (strip_prefix p (String c a)) as [r |] eqn:Hp; [| discriminate H].
      rewrite (strip_prefix_left _ _ b _ Hp). reflexivity.
    + rewrite append_cons. simpl. rewrite (IH H). apply orb_true_r.
Qed.

Lemma includes_middle p a b : includes p (a ++ p ++ b) = true.
Proof. apply includes_right. apply includes_here. apply starts_with_app. Qed.

Lemma collect_fonts_app decls : forall c,
  collect_fonts decls c = c ++ collect_fonts decls "".
Proof.
  induction decls as [| decl decls IH]; intros c; simpl.
  - rewrite append_empty. reflexivity.
  - destruct (is_font_property (property decl)).
    + rewrite (IH (c ++ " " ++ value decl)), (IH ("" ++ " " ++ value decl)).
      rewrite append_nil, !app_assoc_s. reflexivity.
    + apply IH.
Qed.

Lemma collect_fonts_includes decls decl :
  In decl decls -> is_font_property (property decl) = true ->
  includes (value decl) (collect_fonts decls "") = true.
Proof.
  induction decls as [| d0 decls IH]; intros Hin Hfont; [destruct Hin |].
  simpl. destruct Hin as [-> | Hin].
  - rewrite Hfont, collect_fonts_app.
    apply includes_left. rewrite append_nil.
    replace (value decl) with (value decl ++ "") at 2 by apply append_empty.
    apply (includes_middle (value decl) " " "").
  - rewrite collect_fonts_app. apply includes_right. apply IH; assumption.
Qed.

Section corpus_facts.
Variable m : string -> bool.

Lemma fold_corpus_app rs :
  Forall (fun r => forall c, corpus m r c = c ++ corpus m r "") rs ->
  forall c, fold_left (fun acc r => corpus m r acc) rs c
            = c ++ fold_left (fun acc r => corpus m r acc) rs "".
Proof.
  induction 1 as [| r rs Hr _ IH]; intros c; simpl.
  - rewrite append_empty. reflexivity.
  - rewrite (IH (corpus m r c)), (IH (corpus m r "")), (Hr c).
    rewrite app_assoc_s. reflexivity.
Qed.

Lemma corpus_app r : forall c, corpus m r c = c ++ corpus m r "".
Proof.
  induction r as [sels decls | decls | h rs IH | t] using rule_nested_ind;
    intros c; try (simpl; rewrite append_empty; reflexivity).
  - rewrite !corpus_style. destruct (List.filter m sels).
    + rewrite append_empty. reflexivity.
    + apply collect_fonts_app.
  - rewrite !corpus_container. apply fold_corpus_app. exact IH.
Qed.

Lemma fold_corpus_includes v rs :
  Exists (fun r => includes v (corpus m r "") = true) rs ->
  includes v (fold_left (fun acc r => corpus m r acc) rs "") = true.
Proof.
  induction 1 as [r rs Hr | r rs _ IH]; simpl.
  - rewrite fold_corpus_app by (apply Forall_forall; intros; apply corpus_app).
    apply includes_left. exact Hr.
  - rewrite fold_corpus_app by (apply Forall_forall; intros; apply corpus_app).
    apply includes_right. exact IH.
Qed.

(** The corpus of a well pruned rule holds the font values of the style
    rules in it. *)
Lemma corpus_includes sels decls decl r :
  In (StyleRule sels decls) (rules_of r) ->
  well_pruned m r = true ->
  In decl decls -> is_font_property (property decl) = true ->
  includes (value decl) (corpus m r "") = true.
Proof.
  intros Hin Hw Hdecl Hfont. revert Hin Hw.
  induction r as [sels0 decls0 | decls0 | h rs IH | t] using rule_nested_ind;
    intros Hin Hw.
  - destruct Hin as [Heq | []]. inversion Heq. subst sels0 decls0.
    rewrite corpus_style. simpl in Hw. apply andb_true_iff in Hw as [Hne Hall].
    rewrite (filter_all _ _ Hall).
    destruct sels; [discriminate Hne |].
    apply collect_fonts_includes; assumption.
  - destruct Hin as [Heq | []]. discriminate Heq.
  - destruct Hin as [Heq | Hin]; [discriminate Heq |].
    rewrite well_pruned_container in Hw. apply andb_true_iff in Hw as [_ Hall].
    rewrite corpus_container. apply fold_corpus_includes.
    change (In (StyleRule sels decls) (flat_map rules_of rs)) in Hin.
    apply in_flat_map in Hin as (r0 & Hr0 & Hin0).
    apply Exists_exists. exists r0. split; [apply list_elem_of_In; exact Hr0 |].
    rewrite Forall_forall in IH. apply IH.
    + apply list_elem_of_In. exact Hr0.
    + exact Hin0.
    + rewrite forallb_forall in Hall. apply Hall. exact Hr0.
  - destruct Hin as [Heq | []]. discriminate Heq.
Qed.

End corpus_facts.

Lemma family_and_src_url decls : forall family src family' src',
  family_and_src decls family src = (family', Some src') ->
  src = Some src' \/ src' <> "".
Proof.
  induction decls as [| decl decls IH]; intros family src family' src' H; simpl in H.
  - inversion H. left. reflexivity.
  - destruct (String.eqb (property decl) "src").
    + destruct (IH _ _ _ _ H) as [Hu | Hne]; [| right; exact Hne].
      right. eapply url_src_not_empty. exact Hu.
    + destruct (String.eqb (property decl) "font-family"); eapply IH; exact H.
Qed.

Section used_fonts.
Variable querySelector : document -> string -> result (option node_id).
Variable d : document.
Variable options : Options.

(** X17: the two walks together: the value of a font declaration of a
    style rule that the first walk retains, at any depth, occurs in
    the font corpus; so a font-face rule whose family is that value and
    whose [src] has a URL passes the test of lines 281-287 and is kept,
    as long as font inlining is not disabled. *)
Theorem used_font_face_is_kept ast ast1 cf sels decls decl fdecls src :
  prune querySelector d ast = Ok (ast1, cf) ->
  In (StyleRule sels decls) (flat_map rules_of ast1) ->
  In decl decls -> is_font_property (property decl) = true ->
  value decl <> "" ->
  family_and_src fdecls None None = (Some (value decl), Some src) ->
  shouldInlineFonts options = true ->
  includes (value decl) cf = true
  /\ font_dropped options cf (Some (value decl)) (Some src) = false.
Proof.
  intros Hrun Hin Hdecl Hfont Hfamily Hface Hinline.
  assert (Hcf : includes (value decl) cf = true).
  { unfold prune, walkStyleRules in Hrun.
    pose proof (walk_list_ok_answers _ _ _ _ _ _ Hrun) as Hans.
    rewrite (walk_list_pruned _ _ _ _ Hans) in Hrun. inversion Hrun. subst ast1 cf.
    rewrite <- fold_corpus_pruned.
    apply fold_corpus_includes.
    apply in_flat_map in Hin as (r0 & Hr0 & Hin0).
    apply Exists_exists. exists r0. split; [apply list_elem_of_In; exact Hr0 |].
    eapply corpus_includes; eauto.
    pose proof (omap_pruned_well (matches querySelector d) ast) as Hall.
    rewrite forallb_forall in Hall. apply Hall. exact Hr0. }
  split; [exact Hcf |].
  unfold font_dropped. simpl default. rewrite Hcf, Hinline.
  destruct (family_and_src_url _ _ _ _ _ Hface) as [Hu | Hne]; [discriminate Hu |].
  destruct (value decl); [contradiction |]. destruct src; [contradiction |].
  reflexivity.
Qed.

End used_fonts.
End UsedFonts.

(** ** The second walk without preloads and without a head *)

Module FontFacts.
Import JsString Regex Dom Css Critters Statements CssFacts DomFacts Fonts.
Section font_facts.
Variable options : Options.
Variable head : option node_id.
Variable cf : string.

Local Abbreviation iterator := (font_iterator options head cf).

(** A rule without a URL to preload leaves the state as it is. *)
Lemma visit_quiet rl s :
  match rl with ContainerRule _ _ => False | _ => True end ->
  preload_urls options rl = [] ->
  visit iterator rl s = Ok (font_kept options cf rl, s).
Proof.
  intros Hleaf Hurls.
  destruct rl as [sels decls | decls | hd rs | t]; try reflexivity; [| destruct Hleaf].
  unfold visit, font_iterator, font_kept. unfold preload_urls, font_src in Hurls.
  destruct (family_and_src decls None None) as [family src]. simpl in Hurls.
  destruct (truthy src && shouldPreloadFonts options) eqn:Hpre; [discriminate Hurls |].
  rewrite bind_assoc, bind_get. simpl. rewrite bind_assoc, bind_ret, bind_ret.
  unfold ret. destruct (font_dropped options cf family src); reflexivity.
Qed.

Lemma flat_map_nil {A B} (f : A -> list B) x xs :
  flat_map f (x :: xs) = [] -> f x = [] /\ flat_map f xs = [].
Proof. simpl. intros H. apply app_eq_nil in H. exact H. Qed.

Lemma walk_rule_quiet rl : forall s,
  preload_urls options rl = [] ->
  walk_rule iterator rl s = Ok (font_kept options cf rl, s).
Proof.
  induction rl as [sels decls | decls | hd rs IH | t] using rule_nested_ind;
    intros s Hurls.
  - apply (visit_quiet (StyleRule sels decls)); [exact I | exact Hurls].
  - apply (visit_quiet (FontFaceRule decls)); [exact I | exact Hurls].
  - rewrite walk_rule_container.
    assert (Hlist : walk_list iterator rs s = Ok (omap (font_kept options cf) rs, s)).
    { change (flat_map (preload_urls options) rs = []) in Hurls.
      induction IH as [| r0 rs Hr _ IHrs]; [reflexivity |].
      apply flat_map_nil in Hurls as [H1 H2].
      simpl. rewrite (bind_ok _ _ _ _ _ (Hr _ H1)).
      rewrite (bind_ok _ _ _ _ _ (IHrs H2)).
      unfold ret. destruct (font_kept options cf r0); reflexivity. }
    rewrite (bind_ok _ _ _ _ _ Hlist). reflexivity.
  - apply (visit_quiet (OtherRule t)); [exact I | exact Hurls].
Qed.

Lemma walk_list_quiet rs : forall s,
  flat_map (preload_urls options) rs = [] ->
  walk_list iterator rs s = Ok (omap (font_kept options cf) rs, s).
Proof.
  induction rs as [| r0 rs IH]; intros s Hurls; [reflexivity |].
  apply flat_map_nil in Hurls as [H1 H2].
  simpl. rewrite (bind_ok _ _ _ _ _ (walk_rule_quiet _ _ H1)).
  rewrite (bind_ok _ _ _ _ _ (IH _ H2)).
  unfold ret. destruct (font_kept options cf r0); reflexivity.
Qed.

Lemma no_preload_urls r : shouldPreloadFonts options = false -> preload_urls options r = [].
Proof.
  intros Hoff.
  induction r as [sels decls | decls | hd rs IH | t] using rule_nested_ind;
    try reflexivity.
  - simpl. rewrite Hoff, andb_false_r. reflexivity.
  - change (flat_map (preload_urls options) rs = []).
    induction IH as [| r0 rs Hr _ IHrs]; [reflexivity |].
    simpl. rewrite Hr, IHrs. reflexivity.
Qed.

End font_facts.

(** X18: when font preloading is off ([fonts] and [preloadFonts] are
    not [true]), or no font-face rule has a URL, the second walk does
    not touch the document, with or without a [head] element; it only
    filters the font-face rules. *)
Theorem font_pass_without_preloads options head cf (ast : stylesheet) d :
  shouldPreloadFonts options = false \/ flat_map (preload_urls options) ast = [] ->
  font_pass options head cf ast d = Ok (omap (font_kept options cf) ast, d).
Proof.
  intros H.
  assert (Hurls : flat_map (preload_urls options) ast = []).
  { destruct H as [Hoff | Hnil]; [| exact Hnil].
    induction ast as [| r rs IH]; [reflexivity |].
    simpl. rewrite (no_preload_urls _ _ Hoff), IH. reflexivity. }
  unfold font_pass, walkStyleRules.
  rewrite (walk_list_quiet options head cf ast _ Hurls). reflexivity.
Qed.

Section no_head.
Variable options : Options.
Variable cf : string.

Local Abbreviation iterator := (font_iterator options None cf).

Lemma preload_without_head src s : preload_font None src s = Throw TypeError.
Proof.
  unfold preload_font. rewrite bind_get. unfold bind at 1. simpl.
  unfold lift_dom. simpl. destruct (dom s) as [ns r].
  rewrite (bind_ok _ _ _ _ _ (run_createElement _ _ _)).
  run run_setAttribute. run run_setAttribute.
  destruct (has_scheme src).
  - run run_setAttribute. run run_setAttribute. reflexivity.
  - rewrite bind_ret. run run_setAttribute. reflexivity.
Qed.

Lemma visit_throws rl s :
  match rl with ContainerRule _ _ => False | _ => True end ->
  preloadedFonts s = [] ->
  preload_urls options rl <> [] ->
  visit iterator rl s = Throw TypeError.
Proof.
  intros Hleaf Hnone Hurls.
  destruct rl as [sels decls | decls | hd rs | t];
    try (exfalso; apply Hurls; reflexivity); [| destruct Hleaf].
  unfold visit, font_iterator. unfold preload_urls, font_src in Hurls.
  destruct (family_and_src decls None None) as [family src]. simpl in Hurls.
  destruct (truthy src && shouldPreloadFonts options) eqn:Hpre;
    [| exfalso; apply Hurls; reflexivity].
  rewrite bind_assoc, bind_get. rewrite Hnone. simpl. rewrite bind_assoc.
  apply bind_throw. apply preload_without_head.
Qed.

Lemma walk_rule_throws rl : forall s,
  preloadedFonts s = [] ->
  preload_urls options rl <> [] ->
  walk_rule iterator rl s = Throw TypeError.
Proof.
  induction rl as [sels decls | decls | hd rs IH | t] using rule_nested_ind;
    intros s Hnone Hurls.
  - apply (visit_throws (StyleRule sels decls)); [exact I | exact Hnone | exact Hurls].
  - apply (visit_throws (FontFaceRule decls)); [exact I | exact Hnone | exact Hurls].
  - rewrite walk_rule_container. apply bind_throw.
    change (flat_map (preload_urls options) rs <> []) in Hurls.
    induction IH as [| r0 rs Hr _ IHrs]; [exfalso; apply Hurls; reflexivity |].
    simpl. destruct (preload_urls options r0) as [| u us] eqn:H0.
    + rewrite (bind_ok _ _ _ _ _ (walk_rule_quiet options None cf _ _ H0)).
      apply bind_throw. apply IHrs. simpl in Hurls. rewrite H0 in Hurls. exact Hurls.
    + apply bind_throw. apply Hr; [exact Hnone | discriminate].
  - apply (visit_throws (OtherRule t)); [exact I | exact Hnone | exact Hurls].
Qed.

(** X19: when a font-face rule asks for a preload and the document has
    no [head] element, the second walk throws a [TypeError]: line 277
    calls [appendChild] on [null]. *)
Theorem font_preload_needs_a_head (ast : stylesheet) d :
  flat_map (preload_urls options) ast <> [] ->
  font_pass options None cf ast d = Throw TypeError.
Proof.
  intros Hurls. unfold font_pass, walkStyleRules.
  assert (Hwalk : forall s, preloadedFonts s = [] ->
            walk_list iterator ast s = Throw TypeError).
  { induction ast as [| r0 rs IH]; intros s Hnone; [exfalso; apply Hurls; reflexivity |].
    simpl. destruct (preload_urls options r0) as [| u us] eqn:H0.
    - rewrite (bind_ok _ _ _ _ _ (walk_rule_quiet options None cf _ _ H0)).
      apply bind_throw. apply IH; [| exact Hnone].
      simpl in Hurls. rewrite H0 in Hurls. exact Hurls.
    - apply bind_throw. apply walk_rule_throws; [exact Hnone |].
      rewrite H0. discriminate. }
  rewrite (Hwalk (FontState [] d) eq_refl). reflexivity.
Qed.

End no_head.
End FontFacts.

(** ** The end of [processStyle]: replacing or removing the style *)

Module Replace.
Import JsString Regex Dom Css Critters Statements CssFacts DomFacts.

Lemma without_subset c (cs : list node_id) x : x ∈ without c cs -> x ∈ cs.
Proof.
  unfold without. intros H. apply list_elem_of_In in H.
  apply filter_In in H as [H _]. apply list_elem_of_In. exact H.
Qed.

Lemma without_keeps c (cs : list node_id) x : x ∈ cs -> x <> c -> x ∈ without c cs.
Proof.
  unfold without. intros H Hne. apply list_elem_of_In. apply filter_In.
  split; [apply list_elem_of_In; exact H |].
  apply negb_true_iff. apply Nat.eqb_neq. exact Hne.
Qed.

Lemma without_length c (cs : list node_id) : length (without c cs) <= length cs.
Proof.
  unfold without. induction cs as [| x cs IH]; simpl; [lia |].
  destruct (negb (Nat.eqb x c)); simpl; lia.
Qed.

Lemma without_shorter c (cs : list node_id) : c ∈ cs -> length (without c cs) < length cs.
Proof.
  induction cs as [| x cs IH]; intros Hin.
  - apply elem_of_nil in Hin. destruct Hin.
  - unfold without. simpl. destruct (Nat.eqb_spec x c) as [-> | Hne]; simpl.
    + pose proof (without_length c cs) as Hle. unfold without in Hle. lia.
    + apply elem_of_cons in Hin as [-> | Hin]; [contradiction |].
      specialize (IH Hin). unfold without in IH. lia.
Qed.

Lemma is_child_elem c (cs : list node_id) : c ∈ cs -> is_child c cs = true.
Proof.
  intros Hin. unfold is_child. apply existsb_exists. exists c.
  split; [apply list_elem_of_In; exact Hin | apply Nat.eqb_refl].
Qed.

Lemma last_in (cs : list node_id) c : last cs = Some c -> c ∈ cs.
Proof.
  intros H. apply last_Some in H as [l' ->]. apply elem_of_app. right. left.
Qed.

Section loop.
Variables (r style : node_id) (t : string) (a : list (string * string))
  (p : option node_id) (nm : option string).

(** Lines 301-303: the loop empties the child list; the nodes it removes
    lose their parent and every other node stays as it is. *)
Lemma run_remove_children turns : forall ns cs,
  ns !! style = Some (Node (Element t a cs) p nm) ->
  style ∉ cs ->
  Forall (fun c => c < length ns) cs ->
  length cs <= turns ->
  exists ns',
    remove_children turns style (Document ns r) = Ok (tt, Document ns' r)
    /\ length ns' = length ns
    /\ ns' !! style = Some (Node (Element t a []) p nm)
    /\ (forall c, c ∈ cs -> exists k k' q nm',
          ns !! c = Some (Node k q nm') /\ ns' !! c = Some (Node k' None nm'))
    /\ (forall i, i ∉ cs -> i <> style -> ns' !! i = ns !! i).
Proof.
  induction turns as [| n IH]; intros ns cs Hstyle Hself Hin Hlen.
  - destruct cs; [| simpl in Hlen; lia].
    exists ns. repeat split; auto.
    intros c Hc. apply elem_of_nil in Hc. destruct Hc.
  - simpl. unfold get_lastChild. rewrite bind_assoc.
    rewrite (bind_ok _ _ _ _ _ (run_get_childNodes _ _ _ _ _ _ _ _ Hstyle)).
    rewrite bind_ret.
    destruct (last cs) as [c |] eqn:Hlast.
    + pose proof (last_in _ _ Hlast) as Hc.
      assert (Hcs : c <> style) by (intros ->; exact (Hself Hc)).
      assert (Hclt : c < length ns).
      { rewrite Forall_forall in Hin. apply Hin. exact Hc. }
      destruct (lookup_lt_is_Some_2 ns c Hclt) as [[ck cq cnm] Hcn].
      pose proof (lookup_lt_Some _ _ _ Hstyle) as Hslt.
      set (ns1 := <[c := Node ck None cnm]>
                    (<[style := Node (Element t a (without c cs)) p nm]> ns)).
      assert (Hrun : removeChild style c (Document ns r) = Ok (tt, Document ns1 r)).
      { unfold removeChild.
        rewrite (bind_ok _ _ _ _ _ (run_node_at _ _ _ _ Hstyle)). simpl.
        rewrite (is_child_elem _ _ Hc).
        rewrite (bind_ok _ _ _ _ _ (run_set_kind _ _ _ _ _ _ _ Hstyle)).
        eapply run_set_parent. rewrite list_lookup_insert_ne by auto. exact Hcn. }
      rewrite (bind_ok _ _ _ _ _ Hrun).
      destruct (IH ns1 (without c cs)) as (ns' & Hrest & Hl & Hs' & Hdet & Hother).
      * unfold ns1. rewrite list_lookup_insert_ne by auto.
        rewrite list_lookup_insert_eq by exact Hslt. reflexivity.
      * intros H. apply Hself. eapply without_subset. exact H.
      * unfold ns1. rewrite !length_insert.
        apply Forall_forall. intros x Hx. rewrite Forall_forall in Hin.
        apply Hin. eapply without_subset. exact Hx.
      * pose proof (without_shorter _ _ Hc). lia.
      * exists ns'. split; [exact Hrest |]. split.
        { rewrite Hl. unfold ns1. rewrite !length_insert. reflexivity. }
        split; [exact Hs' |]. split.
        -- intros x Hx. destruct (decide (x = c)) as [-> | Hne].
           ++ exists ck, ck, cq, cnm. split; [exact Hcn |].
              rewrite Hother; [| | exact Hcs].
              ** unfold ns1. apply list_lookup_insert_eq.
                 rewrite length_insert. exact Hclt.
              ** intros H. unfold without in H. apply list_elem_of_In in H.
                 apply filter_In in H as [_ H]. rewrite Nat.eqb_refl in H.
                 discriminate H.
           ++ destruct (Hdet x (without_keeps _ _ _ Hx Hne)) as (k & k' & q & nm' & H1 & H2).
              unfold ns1 in H1. rewrite list_lookup_insert_ne in H1 by auto.
              assert (Hxs : x <> style) by (intros ->; exact (Hself Hx)).
              rewrite list_lookup_insert_ne in H1 by auto.
              exists k, k', q, nm'. split; assumption.
        -- intros i Hi His. rewrite Hother; [| | exact His].
           ++ unfold ns1. rewrite !list_lookup_insert_ne; auto.
              intros ->. exact (Hi Hc).
           ++ intros H. apply Hi. eapply without_subset. exact H.
    + assert (cs = []) as ->.
      { destruct cs as [| x cs]; [reflexivity |].
        exfalso. clear -Hlast. revert x Hlast.
        induction cs as [| y cs IHcs]; intros x Hlast; [discriminate Hlast |].
        apply (IHcs y). exact Hlast. }
      exists ns. repeat split; auto.
      intros c Hc. apply elem_of_nil in Hc. destruct Hc.
Qed.

(** Lines 300-305 on a style whose children are nodes of the document. *)
Lemma run_replace_text v ns cs :
  ns !! style = Some (Node (Element t a cs) p nm) ->
  style ∉ cs ->
  Forall (fun c => c < length ns) cs ->
  exists ns',
    (let* cs := get_childNodes style in
     remove_children (length cs) style ;;
     let* text := createTextNode v in
     appendChild style text) (Document ns r) = Ok (tt, Document ns' r)
    /\ length ns' = S (length ns)
    /\ ns' !! style = Some (Node (Element t a [length ns]) p nm)
    /\ ns' !! length ns = Some (Node (Text v) (Some style) None)
    /\ (forall c, c ∈ cs -> exists k k' q nm',
          ns !! c = Some (Node k q nm') /\ ns' !! c = Some (Node k' None nm'))
    /\ (forall i, i ∉ cs -> i <> style -> i < length ns -> ns' !! i = ns !! i).
Proof.
  intros Hstyle Hself Hin.
  destruct (run_remove_children (length cs) ns cs Hstyle Hself Hin (le_n _))
    as (ns1 & Hrun & Hl & Hs1 & Hdet & Hother).
  pose proof (lookup_lt_Some _ _ _ Hstyle) as Hslt.
  rewrite (bind_ok _ _ _ _ _ (run_get_childNodes _ _ _ _ _ _ _ _ Hstyle)).
  rewrite (bind_ok _ _ _ _ _ Hrun).
  rewrite (bind_ok _ _ _ _ _ (run_createTextNode _ _ _)).
  erewrite run_appendChild_orphan; cycle 1.
  { apply lookup_snoc. }
  { rewrite lookup_app_l by lia. exact Hs1. }
  { lia. }
  eexists. split; [reflexivity |].
  assert (Hne : style <> length ns1) by lia.
  split; [| split; [| split; [| split]]].
  - rewrite !length_insert, length_app. simpl. lia.
  - rewrite <- Hl. rewrite list_lookup_insert_ne by auto.
    rewrite list_lookup_insert_eq by (rewrite length_app; simpl; lia). reflexivity.
  - rewrite <- Hl. rewrite list_lookup_insert_eq; [reflexivity |].
    rewrite length_insert, length_app. simpl. lia.
  - intros c Hc. destruct (Hdet c Hc) as (k & k' & q & nm' & H1 & H2).
    exists k, k', q, nm'. split; [exact H1 |].
    pose proof (lookup_lt_Some _ _ _ H2) as Hclt.
    assert (Hcs : c <> style) by (intros ->; exact (Hself Hc)).
    rewrite !list_lookup_insert_ne by lia.
    rewrite lookup_app_l by lia. exact H2.
  - intros i Hi His Hilt.
    rewrite !list_lookup_insert_ne by lia.
    rewrite lookup_app_l by lia. apply Hother; assumption.
Qed.

End loop.

Section style.
Variable querySelector : document -> string -> result (option node_id).
Variable parseStylesheet : string -> result stylesheet.
Variable serializeStylesheet : stylesheet -> bool -> string.
Variable options : Options.

Local Abbreviation processStyle :=
  (Critters.processStyle querySelector parseStylesheet serializeStylesheet options).

(** The two walks of a style whose text is not empty. *)
Lemma run_walks style d text ast ast1 cf ast2 d1 :
  style_text style d = Ok (Some text, d) -> text <> "" ->
  parseStylesheet text = Ok ast ->
  prune querySelector d ast = Ok (ast1, cf) ->
  font_pass options (first_by_tag "head" d) cf ast1 d = Ok (ast2, d1) ->
  processStyle style d =
  (let sheet := serializeStylesheet ast2 (is_not_false (compress options)) in
   if Nat.eqb (String.length (trim sheet)) 0 then
     let* p := get_parentNode style in
     match p with
     | Some p => removeChild p style
     | None => ret tt
     end
   else
     let* cs := get_childNodes style in
     remove_children (length cs) style ;;
     let* text := createTextNode (Str sheet) in
     appendChild style text) d1.
Proof.
  intros Htext Hne Hparse Hprune Hfont.
  unfold Critters.processStyle. rewrite bind_get.
  rewrite (bind_ok _ _ _ _ _ Htext).
  destruct text as [| c text]; [contradiction |]. simpl.
  unfold bind at 1. unfold pure_of at 1. rewrite Hparse.
  unfold bind at 1. unfold pure_of at 1. rewrite Hprune.
  rewrite (bind_ok _ _ _ _ _ Hfont). reflexivity.
Qed.

(** X20: when the serialised critical CSS is not blank, [processStyle]
    returns; the style keeps its tag, attributes and parent and has
    exactly one child, a new text node that holds the serialised CSS;
    its former children have no parent any more and every other node is
    as the second walk left it. *)
Theorem critical_css_replaces_the_text style d text ast ast1 cf ast2 d1 t a cs p nm :
  style_text style d = Ok (Some text, d) -> text <> "" ->
  parseStylesheet text = Ok ast ->
  prune querySelector d ast = Ok (ast1, cf) ->
  font_pass options (first_by_tag "head" d) cf ast1 d = Ok (ast2, d1) ->
  trim (serializeStylesheet ast2 (is_not_false (compress options))) <> "" ->
  nodes d1 !! style = Some (Node (Element t a cs) p nm) ->
  style ∉ cs ->
  Forall (fun c => c < length (nodes d1)) cs ->
  exists d',
    processStyle style d = Ok (tt, d')
    /\ length (nodes d') = S (length (nodes d1))
    /\ nodes d' !! style = Some (Node (Element t a [length (nodes d1)]) p nm)
    /\ nodes d' !! length (nodes d1)
       = Some (Node (Text (Str (serializeStylesheet ast2 (is_not_false (compress options)))))
                 (Some style) None)
    /\ (forall c, c ∈ cs -> detached c d')
    /\ (forall i, i ∉ cs -> i <> style -> i < length (nodes d1) ->
        nodes d' !! i = nodes d1 !! i).
Proof.
  intros Htext Hne Hparse Hprune Hfont Hsheet Hstyle Hself Hin.
  rewrite (run_walks _ _ _ _ _ _ _ _ Htext Hne Hparse Hprune Hfont).
  cbv zeta.
  destruct (Nat.eqb_spec
              (String.length (trim (serializeStylesheet ast2 (is_not_false (compress options)))))
              0) as [Hz | _].
  { exfalso. apply Hsheet.
    destruct (trim (serializeStylesheet ast2 (is_not_false (compress options))));
      [reflexivity | discriminate Hz]. }
  destruct d1 as [ns r]. simpl in *.
  destruct (run_replace_text r style t a p nm
              (Str (serializeStylesheet ast2 (is_not_false (compress options))))
              ns cs Hstyle Hself Hin)
    as (ns' & Hrun & Hl & Hs' & Htxt & Hdet & Hother).
  exists (Document ns' r). split; [exact Hrun |]. simpl.
  repeat split; try assumption.
  intros c Hc. destruct (Hdet c Hc) as (k & k' & q & nm' & _ & H2).
  exists k', nm'. exact H2.
Qed.

(** X21: when the serialised critical CSS is blank, [processStyle]
    removes the style from the child list of its parent and clears its
    parent; nothing else changes. *)
Theorem blank_critical_css_removes_the_style style d text ast ast1 cf ast2 d1 k p nm
    pt pa pcs pp pnm :
  style_text style d = Ok (Some text, d) -> text <> "" ->
  parseStylesheet text = Ok ast ->
  prune querySelector d ast = Ok (ast1, cf) ->
  font_pass options (first_by_tag "head" d) cf ast1 d = Ok (ast2, d1) ->
  trim (serializeStylesheet ast2 (is_not_false (compress options))) = "" ->
  nodes d1 !! style = Some (Node k (Some p) nm) ->
  nodes d1 !! p = Some (Node (Element pt pa pcs) pp pnm) ->
  style ∈ pcs -> style <> p ->
  processStyle style d =
  Ok (tt, Document (<[style := Node k None nm]>
                      (<[p := Node (Element pt pa (without style pcs)) pp pnm]> (nodes d1)))
            (root d1)).
Proof.
  intros Htext Hne Hparse Hprune Hfont Hsheet Hstyle Hp Hin Hsp.
  rewrite (run_walks _ _ _ _ _ _ _ _ Htext Hne Hparse Hprune Hfont).
  cbv zeta. rewrite Hsheet. simpl Nat.eqb. cbv iota.
  destruct d1 as [ns r]. simpl in *.
  rewrite (bind_ok _ _ _ _ _ (run_get_parentNode _ _ _ _ Hstyle)). simpl.
  unfold removeChild.
  rewrite (bind_ok _ _ _ _ _ (run_node_at _ _ _ _ Hp)). simpl.
  rewrite (is_child_elem _ _ Hin).
  rewrite (bind_ok _ _ _ _ _ (run_set_kind _ _ _ _ _ _ _ Hp)).
  eapply run_set_parent. rewrite list_lookup_insert_ne by auto. exact Hstyle.
Qed.

End style.
End Replace.

(** ** A page without styles *)

Module Untouched.
Import JsString Regex Dom Css Critters Statements CssFacts DomFacts.

Section untouched.
Variable querySelector : document -> string -> result (option node_id).
Variable parseStylesheet : string -> result stylesheet.
Variable serializeStylesheet : stylesheet -> bool -> string.
Variable createDocument : string -> document.
Variable serializeDocument : document -> string.
Variable options : Options.

(** X22: a page without [style] elements whose stylesheet links are not
    looked at ([external: false]) or that has none goes through
    [process] untouched: the result is the serialisation of the parsed
    page, and neither the selector engine nor the CSS provider is
    called. *)
Theorem page_without_styles_is_returned html cssFiles :
  external options = Some false \/ stylesheet_links (createDocument html) = [] ->
  elements_by_tag "style" (createDocument html) = [] ->
  process querySelector parseStylesheet serializeStylesheet createDocument
    serializeDocument options html cssFiles
  = Ok (serializeDocument (createDocument html)).
Proof.
  intros Hlinks Hstyles. unfold process, process_document.
  assert (Hfirst : (if is_not_false (external options)
                    then let* d := get in
                         for_each (fun link => embedLinkedStylesheet options link cssFiles)
                           (stylesheet_links d)
                    else ret tt) (createDocument html) = Ok (tt, createDocument html)).
  { destruct Hlinks as [-> | Hnone]; [reflexivity |].
    destruct (is_not_false (external options)); [| reflexivity].
    rewrite bind_get, Hnone. reflexivity. }
  rewrite (bind_ok _ _ _ _ _ Hfirst), bind_get, Hstyles. reflexivity.
Qed.

End untouched.
End Untouched.


(** ** The style inserted for a stylesheet that is missing *)

Module Inserted.
Import JsString Regex Dom Css Critters Statements CssFacts DomFacts Hoare Strategies Missing.

Section inserted.
Variables (s x : node_id) (v : js_value).

Local Abbreviation J := (holds_text s x v).

Lemma held_node_at j :
  hoare J (node_at j) (fun n d => J d /\ nodes d !! j = Some n).
Proof.
  intros d n d' HJ Hrun. unfold node_at in Hrun.
  destruct (nodes d !! j) as [n0 |] eqn:Hj; [| discriminate].
  inversion Hrun. subst. auto.
Qed.

(** An element is written over itself with its tag and parent, and with
    its child list when it is the style. *)
Lemma held_update_element d j t a cs p nm a' cs' :
  J d -> nodes d !! j = Some (Node (Element t a cs) p nm) ->
  (j = s -> cs' = cs) ->
  J (Document (<[j := Node (Element t a' cs') p nm]> (nodes d)) (root d)).
Proof.
  intros ((a0 & p0 & nm0 & Hs) & (nmx & Hx) & Honly) Hj Hcs.
  pose proof (lookup_lt_Some _ _ _ Hj) as Hlt.
  assert (Hjx : j <> x).
  { intros ->. pose proof (eq_trans (eq_sym Hx) Hj) as E. discriminate E. }
  split; [| split].
  - destruct (decide (j = s)) as [-> | Hne].
    + pose proof (eq_trans (eq_sym Hs) Hj) as E. inversion E. subst.
      rewrite (Hcs eq_refl). exists a', p, nm. simpl.
      apply list_lookup_insert_eq. exact Hlt.
    + exists a0, p0, nm0. simpl. rewrite list_lookup_insert_ne by auto. exact Hs.
  - exists nmx. simpl. rewrite list_lookup_insert_ne by auto. exact Hx.
  - intros j' n' Hj' Hp'. simpl in Hj'.
    destruct (decide (j = j')) as [<- | Hne].
    + rewrite list_lookup_insert_eq in Hj' by exact Hlt. inversion Hj'. subst n'.
      simpl in Hp'. apply (Honly j _ Hj). exact Hp'.
    + rewrite list_lookup_insert_ne in Hj' by exact Hne. exact (Honly j' n' Hj' Hp').
Qed.

Lemma held_set_parent j q :
  j <> x -> q <> Some s -> hoare J (set_parent j q) (fun _ => J).
Proof.
  intros Hjx Hq. unfold set_parent. eapply hoare_bind; [apply held_node_at |].
  intros n d u d' [((a0 & p0 & nm0 & Hs) & (nmx & Hx) & Honly) Hn] Hrun.
  inversion Hrun. subst. clear Hrun.
  pose proof (lookup_lt_Some _ _ _ Hn) as Hlt.
  split; [| split].
  - destruct (decide (j = s)) as [-> | Hne].
    + pose proof (eq_trans (eq_sym Hs) Hn) as E. injection E as <-. simpl.
      exists a0, q, nm0. apply list_lookup_insert_eq. exact Hlt.
    + exists a0, p0, nm0. simpl. rewrite list_lookup_insert_ne by auto. exact Hs.
  - exists nmx. simpl. rewrite list_lookup_insert_ne by auto. exact Hx.
  - intros j' n' Hj' Hp'. simpl in Hj'.
    destruct (decide (j = j')) as [<- | Hne].
    + rewrite list_lookup_insert_eq in Hj' by exact Hlt. inversion Hj'. subst n'.
      simpl in Hp'. contradiction.
    + rewrite list_lookup_insert_ne in Hj' by exact Hne. exact (Honly j' n' Hj' Hp').
Qed.

Lemma held_set_sourceName j nm : hoare J (set_sourceName j nm) (fun _ => J).
Proof.
  unfold set_sourceName. eapply hoare_bind; [apply held_node_at |].
  intros n d u d' [((a0 & p0 & nm0 & Hs) & (nmx & Hx) & Honly) Hn] Hrun.
  inversion Hrun. subst. clear Hrun.
  pose proof (lookup_lt_Some _ _ _ Hn) as Hlt.
  split; [| split].
  - destruct (decide (j = s)) as [-> | Hne].
    + pose proof (eq_trans (eq_sym Hs) Hn) as E. injection E as <-. simpl.
      exists a0, p0, nm. apply list_lookup_insert_eq. exact Hlt.
    + exists a0, p0, nm0. simpl. rewrite list_lookup_insert_ne by auto. exact Hs.
  - destruct (decide (j = x)) as [-> | Hne].
    + pose proof (eq_trans (eq_sym Hx) Hn) as E. injection E as <-. simpl.
      exists nm. apply list_lookup_insert_eq. exact Hlt.
    + exists nmx. simpl. rewrite list_lookup_insert_ne by auto. exact Hx.
  - intros j' n' Hj' Hp'. simpl in Hj'.
    destruct (decide (j = j')) as [<- | Hne].
    + rewrite list_lookup_insert_eq in Hj' by exact Hlt. inversion Hj'. subst n'.
      simpl in Hp'. exact (Honly j n Hn Hp').
    + rewrite list_lookup_insert_ne in Hj' by exact Hne. exact (Honly j' n' Hj' Hp').
Qed.

(** A new node is not the style, not its text and has no parent. *)
Lemma held_alloc {A} k0 (k : node_id -> M A) :
  (forall a, a <> s -> a <> x -> hoare J (k a) (fun _ => J)) ->
  hoare J (let* a := alloc k0 in k a) (fun _ => J).
Proof.
  intros Hk d b d' HJ Hrun. unfold bind, alloc in Hrun.
  destruct HJ as ((a0 & p0 & nm0 & Hs) & (nmx & Hx) & Honly).
  pose proof (lookup_lt_Some _ _ _ Hs) as Hslt.
  pose proof (lookup_lt_Some _ _ _ Hx) as Hxlt.
  eapply (Hk (length (nodes d))); [lia | lia | | exact Hrun].
  split; [| split].
  - exists a0, p0, nm0. simpl. rewrite lookup_app_l by exact Hslt. exact Hs.
  - exists nmx. simpl. rewrite lookup_app_l by exact Hxlt. exact Hx.
  - intros j n Hj Hp. simpl in Hj.
    destruct (decide (j < length (nodes d))) as [Hlt | Hge].
    + rewrite lookup_app_l in Hj by exact Hlt. exact (Honly j n Hj Hp).
    + rewrite lookup_app_r in Hj by lia.
      destruct (j - length (nodes d)) as [| m]; simpl in Hj; [| discriminate Hj].
      inversion Hj. subst n. discriminate Hp.
Qed.

Lemma held_setAttribute j name w : hoare J (setAttribute j name w) (fun _ => J).
Proof.
  unfold setAttribute. eapply hoare_bind; [apply held_node_at |].
  intros [[t a cs | v0 | c0] p nm]; simpl; try apply hoare_throw.
  unfold set_kind. intros d u d' [HJ Hn] Hrun.
  unfold bind, node_at in Hrun. rewrite Hn in Hrun. inversion Hrun. subst. simpl.
  eapply held_update_element; eauto.
Qed.

Lemma held_removeAttribute j name : hoare J (removeAttribute j name) (fun _ => J).
Proof.
  unfold removeAttribute. eapply hoare_bind; [apply held_node_at |].
  intros [[t a cs | v0 | c0] p nm]; simpl; try apply hoare_throw.
  unfold set_kind. intros d u d' [HJ Hn] Hrun.
  unfold bind, node_at in Hrun. rewrite Hn in Hrun. inversion Hrun. subst. simpl.
  eapply held_update_element; eauto.
Qed.

(** The children of an element other than the style are rewritten. *)
Lemma held_relink q (children : list node_id -> list node_id) n d u d' :
  q <> s -> J d -> nodes d !! q = Some n ->
  match kind n with
  | Element t a cs => set_kind q (Element t a (children cs)) d = Ok (u, d') -> J d'
  | _ => True
  end.
Proof.
  intros Hq HJ Hn. destruct n as [[t a cs | v0 | c0] p nm]; simpl; try exact I.
  unfold set_kind. intros Hrun.
  unfold bind, node_at in Hrun. rewrite Hn in Hrun. inversion Hrun. subst. simpl.
  eapply held_update_element; eauto. intros ->. contradiction.
Qed.

Lemma held_get_parentNode j :
  hoare J (get_parentNode j) (fun p d => J d /\ (p = Some s -> j = x)).
Proof.
  unfold get_parentNode. eapply hoare_bind; [apply held_node_at |].
  intros n d p d' [HJ Hn] Hrun. inversion Hrun. subst. split; [exact HJ |].
  intros Hp. destruct HJ as (_ & _ & Honly). exact (Honly j n Hn Hp).
Qed.

Lemma held_get_childNodes j : hoare J (get_childNodes j) (fun _ => J).
Proof.
  unfold get_childNodes. eapply hoare_bind; [apply held_node_at |].
  intros n d a d' [HJ _] Hrun. destruct (kind n); inversion Hrun; subst; exact HJ.
Qed.

Lemma held_get_nextSibling j : hoare J (get_nextSibling j) (fun _ => J).
Proof.
  unfold get_nextSibling. eapply hoare_bind; [apply held_get_parentNode |].
  intros [q |] d a d' [HJ _] Hrun; [| inversion Hrun; subst; exact HJ].
  revert Hrun. apply (hoare_bind J (fun _ => J) (fun _ => J)); [| | exact HJ].
  - apply held_get_childNodes.
  - intros cs. apply hoare_ret.
Qed.

Lemma held_detach c : c <> x -> hoare J (detach c) (fun _ => J).
Proof.
  intros Hcx. unfold detach. eapply hoare_bind; [apply held_get_parentNode |].
  intros [q |] d u d' [HJ Hq] Hrun; [| inversion Hrun; subst; exact HJ].
  assert (Hqs : q <> s) by (intros ->; apply Hcx; apply Hq; reflexivity).
  unfold bind at 1 in Hrun. unfold node_at in Hrun.
  destruct (nodes d !! q) as [n |] eqn:Hn; [| discriminate Hrun].
  pose proof (held_relink q (without c) n d) as Hrel.
  destruct n as [[t a cs | v0 | c0] p nm]; simpl in Hrun.
  - unfold bind at 1 in Hrun.
    destruct (set_kind q (Element t a (without c cs)) d) as [[u0 d0] |] eqn:Hk;
      [| discriminate Hrun].
    eapply (held_set_parent c None Hcx); [discriminate | | exact Hrun].
    exact (Hrel u0 d0 Hqs HJ Hn Hk).
  - eapply (held_set_parent c None Hcx); [discriminate | exact HJ | exact Hrun].
  - eapply (held_set_parent c None Hcx); [discriminate | exact HJ | exact Hrun].
Qed.

Lemma held_appendChild q c :
  q <> s -> c <> x -> hoare J (appendChild q c) (fun _ => J).
Proof.
  intros Hqs Hcx. unfold appendChild.
  eapply hoare_bind; [apply held_detach; exact Hcx |]. intros u0.
  intros d u d' HJ Hrun.
  unfold bind at 1 in Hrun. unfold node_at in Hrun.
  destruct (nodes d !! q) as [n |] eqn:Hn; [| discriminate Hrun].
  pose proof (held_relink q (fun cs => cs ++ [c])%list n d) as Hrel.
  destruct n as [[t a cs | v0 | c0] p nm]; simpl in Hrun; try discriminate Hrun.
  unfold bind at 1 in Hrun.
  destruct (set_kind q (Element t a (cs ++ [c])) d) as [[u1 d1] |] eqn:Hk;
    [| discriminate Hrun].
  eapply (held_set_parent c (Some q) Hcx); [congruence | | exact Hrun].
  exact (Hrel u1 d1 Hqs HJ Hn Hk).
Qed.

Lemma held_insertBefore q c ref :
  q <> s -> c <> x -> hoare J (insertBefore q c ref) (fun _ => J).
Proof.
  intros Hqs Hcx. destruct ref as [r0 |]; [| apply held_appendChild; assumption].
  unfold insertBefore.
  eapply hoare_bind; [apply held_detach; exact Hcx |]. intros u0.
  intros d u d' HJ Hrun.
  unfold bind at 1 in Hrun. unfold node_at in Hrun.
  destruct (nodes d !! q) as [n |] eqn:Hn; [| discriminate Hrun].
  pose proof (held_relink q (insert_before c r0) n d) as Hrel.
  destruct n as [[t a cs | v0 | c0] p nm]; simpl in Hrun; try discriminate Hrun.
  destruct (is_child r0 cs); [| discriminate Hrun].
  unfold bind at 1 in Hrun.
  destruct (set_kind q (Element t a (insert_before c r0 cs)) d) as [[u1 d1] |] eqn:Hk;
    [| discriminate Hrun].
  eapply (held_set_parent c (Some q) Hcx); [congruence | | exact Hrun].
  exact (Hrel u1 d1 Hqs HJ Hn Hk).
Qed.

Lemma held_insert_after l y :
  l <> x -> y <> x -> hoare J (insert_after l y) (fun _ => J).
Proof.
  intros Hlx Hyx. unfold insert_after.
  eapply hoare_bind; [apply held_get_parentNode |].
  intros [q |] d u d' [HJ Hq] Hrun; [| discriminate Hrun].
  assert (Hqs : q <> s) by (intros ->; apply Hlx; apply Hq; reflexivity).
  revert Hrun. apply (hoare_bind J (fun _ => J) (fun _ => J)); [| | exact HJ].
  - apply held_get_nextSibling.
  - intros next. apply held_insertBefore; assumption.
Qed.

(** [document.body] is not the style. *)
Lemma held_with_body {A} (k : option node_id -> M A) :
  (forall b, b <> s -> hoare J (k (Some b)) (fun _ => J)) ->
  hoare J (k None) (fun _ => J) ->
  hoare J (let* d := get in k (body d)) (fun _ => J).
Proof.
  intros Hsome Hnone d a d' HJ Hrun. rewrite bind_get in Hrun.
  destruct (body d) as [b |] eqn:Hb.
  - eapply (Hsome b); [| exact HJ | exact Hrun].
    intros ->. destruct (body_is_element _ _ Hb) as (ba & bcs & bp & bnm & Hbody).
    destruct HJ as ((a0 & p0 & nm0 & Hs) & _).
    pose proof (eq_trans (eq_sym Hs) Hbody) as E. discriminate E.
  - eapply Hnone; [exact HJ | exact Hrun].
Qed.

Lemma held_getAttribute j name : hoare J (getAttribute j name) (fun _ => J).
Proof.
  unfold getAttribute. eapply hoare_bind; [apply held_node_at |].
  intros n d a d' [HJ _] Hrun.
  destruct (kind n); inversion Hrun; subst; exact HJ.
Qed.

Lemma held_inject_script l href media preamble lazy :
  l <> x -> hoare J (inject_script l href media preamble lazy) (fun _ => J).
Proof.
  intros Hlx. unfold inject_script, createElement. apply held_alloc. intros script Hs Hx.
  unfold createTextNode. apply held_alloc. intros text Hts Htx.
  eapply hoare_bind; [apply held_appendChild; assumption |]. intros u.
  apply held_insert_after; assumption.
Qed.

Lemma held_append_body_link href media :
  hoare J (append_body_link href media) (fun _ => J).
Proof.
  unfold append_body_link, createElement. apply held_alloc. intros bodyLink Hs Hx.
  eapply hoare_bind; [apply held_setAttribute |]. intros u.
  eapply hoare_bind.
  { destruct (truthy media); [apply held_setAttribute | apply hoare_ret]. }
  intros u0.
  eapply hoare_bind; [apply held_setAttribute |]. intros u1.
  apply (held_with_body
           (fun o => match o with
                     | Some b => appendChild b bodyLink
                     | None => throw TypeError
                     end)).
  - intros b Hb. apply held_appendChild; assumption.
  - apply hoare_throw.
Qed.

Lemma held_add_noscript l href media :
  l <> x -> hoare J (add_noscript l href media) (fun _ => J).
Proof.
  intros Hlx. unfold add_noscript, createElement.
  apply held_alloc. intros noscript Hns Hnx.
  apply held_alloc. intros noscriptLink Hls Hlx'.
  eapply hoare_bind; [apply held_setAttribute |]. intros u.
  eapply hoare_bind; [apply held_setAttribute |]. intros u0.
  eapply hoare_bind.
  { destruct (truthy media); [apply held_setAttribute | apply hoare_ret]. }
  intros u1.
  eapply hoare_bind; [apply held_appendChild; assumption |]. intros u2.
  apply held_insert_after; assumption.
Qed.

Lemma held_rewrite_link options l href media preamble lazy :
  l <> x -> hoare J (rewrite_link options l href media preamble lazy) (fun _ => J).
Proof.
  intros Hlx. unfold rewrite_link.
  destruct (preload_is (preload options) "body").
  { apply (held_with_body
             (fun o => match o with
                       | Some b => appendChild b l ;; ret false
                       | None => throw TypeError
                       end)).
    - intros b Hb. eapply hoare_bind; [apply held_appendChild; assumption |].
      intros u. apply hoare_ret.
    - apply hoare_throw. }
  eapply hoare_bind; [apply held_setAttribute |]. intros u.
  eapply hoare_bind; [apply held_setAttribute |]. intros u0.
  destruct (preload_is (preload options) "js" || preload_is (preload options) "js-lazy").
  { eapply hoare_bind; [apply held_inject_script; exact Hlx |]. intros u1.
    apply hoare_ret. }
  destruct (preload_is (preload options) "media").
  { eapply hoare_bind; [apply held_setAttribute |]. intros u1.
    eapply hoare_bind; [apply held_removeAttribute |]. intros u2.
    eapply hoare_bind; [apply held_setAttribute |]. intros u3.
    eapply hoare_bind; [apply held_setAttribute |]. intros u4.
    apply hoare_ret. }
  destruct (preload_is (preload options) "swap").
  { eapply hoare_bind; [apply held_setAttribute |]. intros u1. apply hoare_ret. }
  eapply hoare_bind; [apply held_append_body_link |]. intros u1. apply hoare_ret.
Qed.

End inserted.

Section missing.
Variable querySelector : document -> string -> result (option node_id).
Variable parseStylesheet : string -> result stylesheet.
Variable serializeStylesheet : stylesheet -> bool -> string.
Variable options : Options.
Variable cssFiles : gmap string string.

(** Lines 134-188 on a page none of whose nodes names the next free
    identifier as its parent: the new style ends as the parent of its
    text node alone. *)
Lemma embed_holds_text d link tag attrs cs p nm d' :
  nodes d !! link = Some (Node (Element tag attrs cs) p nm) ->
  (forall j n, nodes d !! j = Some n -> parentNode n <> Some (length (nodes d))) ->
  not_skipped options (attr_get "href" attrs) ->
  embedLinkedStylesheet options link cssFiles d = Ok (tt, d') ->
  holds_text (length (nodes d)) (S (length (nodes d)))
    (read_property cssFiles (to_String (attr_get "href" attrs))) d'.
Proof.
  intros Hlink Hwf Hns Hrun. destruct d as [ns r]. simpl in Hlink, Hwf. simpl nodes.
  pose proof (lookup_lt_Some _ _ _ Hlink) as Hlt.
  unfold embedLinkedStylesheet in Hrun.
  pose proof (fun name => run_getAttribute ns r link tag attrs cs p nm name Hlink) as Hget.
  rewrite !(fun name k => bind_ok (getAttribute link name) k _ _ _ (Hget name)) in Hrun.
  rewrite embed_not_skipped in Hrun.
  rewrite (bind_ok _ _ _ _ _ (run_skipped _ _ _ Hns)) in Hrun.
  rewrite (bind_ok _ _ _ _ _ (run_createElement _ _ _)) in Hrun.
  rewrite (bind_ok _ _ _ _ _ (run_createTextNode _ _ _)) in Hrun.
  rewrite length_app in Hrun. simpl length in Hrun. rewrite Nat.add_1_r in Hrun.
  unfold after_text in Hrun. rewrite !bind_assoc in Hrun.
  set (v := read_property cssFiles (to_String (attr_get "href" attrs))) in *.
  erewrite bind_ok in Hrun;
    [| eapply (run_appendChild_orphan _ _ (length ns) (S (length ns)));
       [solve_lookup | solve_lookup | lia]].
  revert Hrun.
  match goal with
  | |- ?m ?d0 = _ -> _ =>
      assert (Hkeep : hoare (holds_text (length ns) (S (length ns)) v) m
                        (fun _ => holds_text (length ns) (S (length ns)) v));
        [| apply Hkeep ]
  end.
  - eapply hoare_bind.
    { eapply hoare_bind; [apply held_insert_after; lia |]. intros u.
      apply held_set_sourceName. }
    intros u0.
    destruct (preload options); try apply hoare_ret.
    + eapply hoare_bind; [apply held_rewrite_link; lia |]. intros fallback.
      destruct (is_not_false (noscriptFallback options) && fallback);
        [apply held_add_noscript; lia | apply hoare_ret].
    + eapply hoare_bind; [apply held_rewrite_link; lia |]. intros fallback.
      destruct (is_not_false (noscriptFallback options) && fallback);
        [apply held_add_noscript; lia | apply hoare_ret].
  - simpl. split; [| split].
    + exists [], None, None. simpl. solve_lookup.
    + exists None. simpl. solve_lookup.
    + intros j n Hj Hp. simpl in Hj.
      destruct (decide (j = S (length ns))) as [-> | Hj1]; [reflexivity |].
      exfalso. rewrite list_lookup_insert_ne in Hj by lia.
      destruct (decide (j = length ns)) as [-> | Hj0].
      * rewrite list_lookup_insert_eq in Hj by len. inversion Hj. subst n.
        discriminate Hp.
      * rewrite list_lookup_insert_ne in Hj by lia.
        destruct (decide (j < length ns)) as [Hjlt | Hjge].
        -- rewrite <- app_assoc, lookup_app_l in Hj by exact Hjlt.
           exact (Hwf j n Hj Hp).
        -- apply lookup_lt_Some in Hj. rewrite !length_app in Hj. simpl in Hj. lia.
Qed.

(** Lines 200-208 on a style whose only child holds [undefined]:
    the joined text is empty and the method returns at once. *)
Lemma processStyle_of_undefined style text d :
  holds_text style text Undefined d ->
  processStyle querySelector parseStylesheet serializeStylesheet options style d
  = Ok (tt, d).
Proof.
  intros ((a & p & nm & Hs) & (nmx & Hx) & _). destruct d as [ns r]. simpl in Hs, Hx.
  unfold processStyle. rewrite bind_get. unfold style_text. rewrite !bind_assoc.
  erewrite bind_ok; [| eapply run_get_childNodes; exact Hs].
  simpl. unfold get_nodeValue. rewrite !bind_assoc.
  erewrite bind_ok; [| eapply run_node_at; exact Hx].
  reflexivity.
Qed.

(** Lines 90-102 on a page with one stylesheet link, when the embedding
    leaves one [style] element. *)
Lemma process_one_link d link mid style out :
  external options <> Some false ->
  stylesheet_links d = [link] ->
  embedLinkedStylesheet options link cssFiles d = Ok (tt, mid) ->
  elements_by_tag "style" mid = [style] ->
  processStyle querySelector parseStylesheet serializeStylesheet options style mid
  = Ok (tt, out) ->
  process_document querySelector parseStylesheet serializeStylesheet options cssFiles d
  = Ok (tt, out).
Proof.
  intros Hext Hlinks Hembed Hstyles Hstyle. unfold process_document.
  assert (Hon : is_not_false (external options) = true).
  { destruct (external options) as [[|] |]; try reflexivity. congruence. }
  rewrite Hon.
  assert (Hfirst : (let* d0 := get in
                    for_each (fun l => embedLinkedStylesheet options l cssFiles)
                      (stylesheet_links d0)) d = Ok (tt, mid)).
  { rewrite bind_get, Hlinks. simpl. rewrite (bind_ok _ _ _ _ _ Hembed). reflexivity. }
  rewrite (bind_ok _ _ _ _ _ Hfirst), bind_get, Hstyles. simpl.
  rewrite (bind_ok _ _ _ _ _ Hstyle). reflexivity.
Qed.


End missing.
End Inserted.


(** ** The document [process] returns under [preload: "swap"] *)

Module Output.
Import JsString Regex Dom Css Critters Statements CssFacts DomFacts Delivery.
Import Strategies FontFacts Replace Inserted.

Section output.
Variable querySelector : document -> string -> result (option node_id).
Variable parseStylesheet : string -> result stylesheet.
Variable serializeStylesheet : stylesheet -> bool -> string.
Variable options : Options.
Variable cssFiles : gmap string string.

(** With font preloading off the second walk only filters the rules. *)
Lemma font_pass_quiet head cf (ast : stylesheet) d :
  shouldPreloadFonts options = false ->
  font_pass options head cf ast d = Ok (omap (font_kept options cf) ast, d).
Proof.
  intros Hoff.
  assert (Hurls : flat_map (preload_urls options) ast = []).
  { induction ast as [| r rs IH]; [reflexivity |].
    simpl. rewrite (no_preload_urls _ _ Hoff), IH. reflexivity. }
  unfold font_pass, walkStyleRules.
  rewrite (walk_list_quiet options head cf ast _ Hurls). reflexivity.
Qed.

Lemma not_blank s : trim s <> "" -> Nat.eqb (String.length (trim s)) 0 = false.
Proof. destruct (trim s); [congruence | reflexivity]. Qed.

Lemma without_inner (x : node_id) pre post :
  x ∉ pre -> x ∉ post -> without x (pre ++ x :: post) = (pre ++ post)%list.
Proof.
  intros Hpre Hpost.
  rewrite without_app, without_head, (without_absent _ _ Hpre), (without_absent _ _ Hpost).
  reflexivity.
Qed.


End output.
End Output.


(** ** The theorems on the pages of the examples *)

Module Runs.
Import JsString Regex Dom Css Critters Statements CssFacts DomFacts Examples.
Import Delivery Missing Pruner Matcher Fonts Hoare Inserted Output.

Lemma NoDup_pair (a b : node_id) : a <> b -> NoDup [a; b].
Proof.
  intros Hne. apply NoDup_cons. split; [| apply NoDup_singleton].
  intros H. apply list_elem_of_singleton in H. contradiction.
Qed.

(** C1, evaluated: [preload: "js"] on a page with two stylesheet links.
    The script inserted for each link starts with the definition of
    [$loadcss]: the loader is defined twice in the document. *)
Example loader_defined_twice :
  exists d',
    run_process (with_preload (PreloadString "js")) css_files two_links = Ok (tt, d')
    /\ text_of d' 10 = Some (loader ++ "$loadcss(" ++ json_stringify (Some "/a.css") ++ ")")
    /\ text_of d' 16 = Some (loader ++ "$loadcss(" ++ json_stringify (Some "/b.css") ++ ")")
    /\ loader_definitions d' = [10; 16].
Proof. eexists. split; [vm_compute; reflexivity |]. vm_compute. auto. Qed.

(** C2, evaluated: without options font inlining is on and font preloading
    is off; the font-face rule of a used family stays in the style and
    no preload link is appended to the head. *)
Example default_options_inline_and_do_not_preload :
  shouldInlineFonts no_options = true
  /\ shouldPreloadFonts no_options = false
  /\ exists d',
       run_process no_options ∅ (one_style font_sheet) = Ok (tt, d')
       /\ children_of d' 3 = [7]
       /\ text_of d' 7 = Some font_sheet
       /\ font_preloads d' "x.woff2" = [].
Proof.
  split; [reflexivity |]. split; [reflexivity |].
  eexists. split; [vm_compute; reflexivity |]. vm_compute. auto.
Qed.



(** At an [href] that names a member of [Object.prototype] line 116
    reads that member, not [undefined]: the text node of the new [style]
    holds the function, its text reaches the parser, and with the parser
    of the examples, which raises on a text it does not know, [process]
    fails. *)
Lemma inherited_name_reads_a_function :
  css_files !! "toString" = None
  /\ read_property css_files "toString" = Inherited "toString"
  /\ (exists d',
        embedLinkedStylesheet (with_preload PreloadFalse) 3 css_files prototype_link
        = Ok (tt, d')
        /\ nodes d' !! 6 = Some (Node (Text (Inherited "toString")) (Some 5) None)
        /\ style_text 5 d' = Ok (Some "function toString() { [native code] }", d'))
  /\ run_process (with_preload PreloadFalse) css_files prototype_link = Throw ParseError.
Proof.
  split; [reflexivity |]. split; [reflexivity |]. split; [| vm_compute; reflexivity].
  eexists. split; [vm_compute; reflexivity |]. split; vm_compute; reflexivity.
Qed.

(** C4, counterexample: stripping [:hover] leaves the empty selector, on
    which the selector engine raises; the error leaves the matcher and
    [process] fails with it. *)
Lemma empty_selector_rejects_process :
  strip_pseudo ":hover" = ""
  /\ selector_matches tag_engine (one_style hover_sheet) ":hover" = Throw SyntaxError
  /\ run_process no_options ∅ (one_style hover_sheet) = Throw SyntaxError.
Proof. vm_compute. auto. Qed.

(** C4, witness. *)
Lemma selector_error_is_not_caught_witness :
  (exists e, prune tag_engine (one_style hover_sheet)
               [StyleRule [":hover"] [Declaration "color" "red"]] = Throw e)
  /\ (exists e, processStyle tag_engine parse_known print_stylesheet no_options 3
                  (one_style hover_sheet) = Throw e)
  /\ (forall sel, tag_engine (one_style hover_sheet) (strip_pseudo sel) = Ok None ->
        selector_matches tag_engine (one_style hover_sheet) sel = Ok false).
Proof.
  apply (selector_error_is_not_caught tag_engine parse_known print_stylesheet
           no_options (one_style hover_sheet) 3 hover_sheet).
  - reflexivity.
  - discriminate.
  - reflexivity.
  - apply Exists_cons_hd. exists SyntaxError. reflexivity.
Defined.

(** C5, witness. *)
Lemma prune_meets_spec_witness :
  prune tag_engine (one_style red_blue)
    [StyleRule ["p"; ".unused"] [Declaration "font" "12px X"];
     StyleRule [".unused"] [Declaration "color" "blue"];
     ContainerRule "@media print" [StyleRule ["q"] [Declaration "color" "red"]]] =
  Ok ([StyleRule ["p"] [Declaration "font" "12px X"]], " 12px X").
Proof.
  apply (prune_meets_spec tag_engine (one_style red_blue)
           [StyleRule ["p"; ".unused"] [Declaration "font" "12px X"];
            StyleRule [".unused"] [Declaration "color" "blue"];
            ContainerRule "@media print" [StyleRule ["q"] [Declaration "color" "red"]]]).
  simpl. repeat constructor; eexists; reflexivity.
Defined.



(** C7, counterexample: two [style] elements of one page declare the same
    font URL; one run of [process] appends two preload links for it. *)
Lemma same_url_preloaded_per_style :
  exists d',
    run_process with_preloadFonts ∅ (two_styles font_only font_only) = Ok (tt, d')
    /\ font_preloads d' "x.woff2" = [9; 10]
    /\ length (font_preloads d' "x.woff2") <> 1.
Proof. eexists. split; [vm_compute; reflexivity |]. vm_compute. split; [auto | lia]. Qed.

(** C7, witness. *)
Lemma font_pass_preloads_once_witness :
  font_pass with_preloadFonts (Some 2) "" [font_face_X; font_face_X]
    (one_style font_only) =
  Ok ([],
      Document
        [ element "#document" [] [1] None;
          element "html" [] [2; 5] (Some 0);
          element "head" [] [3; 7] (Some 1);
          element "style" [] [4] (Some 2);
          text_node font_only 3;
          element "body" [] [6] (Some 1);
          element "p" [] [] (Some 5);
          element "link" [("rel", "preload"); ("as", "font"); ("href", "x.woff2")] []
            (Some 2) ]
        0).
Proof.
  apply (proj1 (font_pass_preloads_once with_preloadFonts (nodes (one_style font_only)) 0
                  2 "head" [] [3] (Some 1) None "" [font_face_X; font_face_X] eq_refl)).
Defined.

(** C8, witness. *)
Lemma skipped_link_untouched_witness :
  embedLinkedStylesheet no_options 3 css_files cdn_link = Ok (tt, cdn_link).
Proof.
  apply (skipped_link_untouched no_options css_files cdn_link 3 "link"
           [("rel", "stylesheet"); ("href", "https://cdn.example/x.css")] []
           (Some 2) None).
  - reflexivity.
  - simpl. exists "https://cdn.example/x.css". split; reflexivity.
Defined.

(** C9, witness. *)
Lemma preload_false_only_inlines_witness :
  embedLinkedStylesheet (with_preload PreloadFalse) 3 css_files two_links =
  Ok (tt,
      Document
        [ element "#document" [] [1] None;
          element "html" [] [2; 5] (Some 0);
          element "head" [] [3; 7; 4] (Some 1);
          element "link" [("rel", "stylesheet"); ("href", "/a.css")] [] (Some 2);
          element "link" [("rel", "stylesheet"); ("href", "/b.css"); ("media", "print")]
            [] (Some 2);
          element "body" [] [6] (Some 1);
          element "p" [] [] (Some 5);
          Node (Element "style" [] [8]) (Some 2) (Some "/a.css");
          text_node red_blue 7 ]
        0).
Proof.
  apply (preload_false_only_inlines (with_preload PreloadFalse) css_files
           (nodes two_links) 0 3 "link" [("rel", "stylesheet"); ("href", "/a.css")] []
           None 2 "head" [] [] [4] (Some 1) None).
  - reflexivity.
  - reflexivity.
  - reflexivity.
  - apply NoDup_pair. discriminate.
  - simpl. exists "/a.css". split; reflexivity.
Defined.

(** A style whose rules are all pruned is removed from its parent. *)
Example unused_rules_remove_the_style :
  exists d',
    processStyle tag_engine parse_known print_stylesheet no_options 3 (one_style q_sheet)
    = Ok (tt, d')
    /\ children_of d' 2 = []
    /\ nodes d' !! 3 = Some (Node (Element "style" [] [4]) None None).
Proof. eexists. split; [vm_compute; reflexivity |]. vm_compute. auto. Qed.

(** The critical rules replace the text of a style. *)
Example used_rules_stay_in_the_style :
  exists d',
    processStyle tag_engine parse_known print_stylesheet no_options 3 (one_style red_blue)
    = Ok (tt, d')
    /\ children_of d' 2 = [3]
    /\ children_of d' 3 = [7]
    /\ text_of d' 7 = Some "p{color:red}".
Proof. eexists. split; [vm_compute; reflexivity |]. vm_compute. auto. Qed.

(** C10, witness. *)
Lemma empty_style_is_left_alone_witness :
  processStyle tag_engine parse_known print_stylesheet no_options 3 empty_style
  = Ok (tt, empty_style).
Proof.
  apply (proj1 (empty_style_is_left_alone tag_engine parse_known print_stylesheet
                  no_options 3 empty_style "style" [] [] (Some 2) None eq_refl)).
  reflexivity.
Defined.

End Runs.


(** ** The further properties on the pages of the examples *)

Module Cases.
Import JsString Regex Dom Css Critters Statements CssFacts DomFacts Examples.
Import Strategies Frames RegexFacts PrunerFacts UsedFonts FontFacts Replace Untouched.

Lemma fresh_in_pair (x a b : node_id) : x <> a -> x <> b -> x ∉ [a; b].
Proof.
  intros Ha Hb H. apply elem_of_cons in H as [H | H]; [contradiction |].
  apply list_elem_of_singleton in H. contradiction.
Qed.

Lemma NoDup_two (a b : node_id) : a <> b -> NoDup [a; b].
Proof.
  intros Hne. apply NoDup_cons. split; [| apply NoDup_singleton].
  intros H. apply list_elem_of_singleton in H. contradiction.
Qed.

Lemma not_rewritten (name : string) :
  name <> "rel" -> name <> "as" -> name <> "media" -> name <> "onload" ->
  ~ In name ["rel"; "as"; "media"; "onload"].
Proof.
  intros H1 H2 H3 H4 [H | [H | [H | [H | []]]]]; symmetry in H; contradiction.
Qed.

(** X1, witness: the second link of the page, which has a media. *)
Lemma media_rewrites_link_witness :
  exists d',
    embedLinkedStylesheet (with_preload (PreloadString "media")) 4 css_files two_links
    = Ok (tt, d')
    /\ children_of d' 2 = [3; 4; 9; 7]
    /\ has_attr d' "rel" "stylesheet" 4 = true
    /\ has_attr d' "media" "only x" 4 = true
    /\ has_attr d' "onload" "this.media='print'" 4 = true
    /\ has_tag d' "noscript" 9 = true
    /\ text_of d' 8 = Some q_sheet.
Proof.
  destruct (media_rewrites_link (with_preload (PreloadString "media")) css_files
              (nodes two_links) 0 4 "link"
              [("rel", "stylesheet"); ("href", "/b.css"); ("media", "print")] []
              None 2 "head" [] [3] [] (Some 1) None) as [Hrun _].
  - reflexivity.
  - discriminate.
  - reflexivity.
  - reflexivity.
  - apply NoDup_two. discriminate.
  - apply fresh_in_pair; discriminate.
  - discriminate.
  - simpl. exists "/b.css". split; reflexivity.
  - eexists. split; [exact Hrun |]. vm_compute. auto 10.
Defined.

(** X2, witness: the lazy loader and its call for the second link. *)
Lemma script_strategy_injects_loader_witness :
  exists d',
    embedLinkedStylesheet (with_preload (PreloadString "js-lazy")) 4 css_files two_links
    = Ok (tt, d')
    /\ children_of d' 2 = [3; 4; 11; 9; 7]
    /\ has_tag d' "script" 9 = true
    /\ text_of d' 10
       = Some (lazy_loader ++ "$loadcss(" ++ json_stringify (Some "/b.css") ++ ","
               ++ json_stringify (Some "print") ++ ")").
Proof.
  eexists. split.
  { apply (script_strategy_injects_loader (with_preload (PreloadString "js-lazy"))
             css_files "js-lazy" (nodes two_links) 0 4 "link"
             [("rel", "stylesheet"); ("href", "/b.css"); ("media", "print")] []
             None 2 "head" [] [3] [] (Some 1) None).
    - reflexivity.
    - right. reflexivity.
    - discriminate.
    - reflexivity.
    - reflexivity.
    - apply NoDup_two. discriminate.
    - apply fresh_in_pair; discriminate.
    - apply fresh_in_pair; discriminate.
    - discriminate.
    - simpl. exists "/b.css". split; reflexivity. }
  vm_compute. auto 10.
Defined.

(** X3, witness. *)
Lemma swap_without_fallback_witness :
  exists d',
    embedLinkedStylesheet swap_without_noscript 3 css_files two_links = Ok (tt, d')
    /\ children_of d' 2 = [3; 7; 4]
    /\ has_attr d' "onload" "this.rel='stylesheet'" 3 = true
    /\ length (nodes d') = 9.
Proof.
  eexists. split.
  { apply (swap_without_fallback swap_without_noscript css_files (nodes two_links) 0 3
             "link" [("rel", "stylesheet"); ("href", "/a.css")] [] None 2 "head" []
             [] [4] (Some 1) None).
    - reflexivity.
    - reflexivity.
    - reflexivity.
    - reflexivity.
    - apply NoDup_two. discriminate.
    - discriminate.
    - simpl. exists "/a.css". split; reflexivity. }
  vm_compute. auto.
Defined.

(** X4, witness. *)
Lemma link_without_href_throws_witness :
  embedLinkedStylesheet no_options 3 css_files bare_link = Throw TypeError.
Proof.
  apply (link_without_href_throws no_options css_files bare_link 3 "link"
           [("rel", "stylesheet")] [] (Some 2) None); reflexivity.
Defined.

(** X5, witness: the first link of the page moves from the head to the
    body. *)
Lemma body_strategy_moves_the_link_witness :
  exists d',
    embedLinkedStylesheet (with_preload (PreloadString "body")) 3 css_files two_links
    = Ok (tt, d')
    /\ children_of d' 2 = [7; 4]
    /\ children_of d' 5 = [6; 3]
    /\ nodes d' !! 3
       = Some (Node (Element "link" [("rel", "stylesheet"); ("href", "/a.css")] [])
                 (Some 5) None).
Proof.
  pose proof (body_strategy_moves_the_link (with_preload (PreloadString "body")) css_files
                (nodes two_links) 0 3 "link" [("rel", "stylesheet"); ("href", "/a.css")]
                [] None 2 "head" [] [] [4] (Some 1) None) as H.
  cbv zeta in H.
  match type of H with
  | context [body ?d] =>
      assert (Hbody : body d = Some 5) by (vm_compute; reflexivity);
      rewrite Hbody in H
  end.
  destruct H as (ba & bcs & bp & bnm & Hb & Hrun).
  - reflexivity.
  - reflexivity.
  - reflexivity.
  - apply NoDup_two. discriminate.
  - discriminate.
  - discriminate.
  - simpl. exists "/a.css". split; reflexivity.
  - vm_compute in Hb. inversion Hb. subst ba bcs bp bnm.
    eexists. split; [exact Hrun |]. vm_compute. auto.
Defined.

(** X6, witness: the second link of the page under the default
    strategy. *)
Lemma default_strategy_appends_a_body_link_witness :
  exists d',
    embedLinkedStylesheet no_options 4 css_files two_links = Ok (tt, d')
    /\ children_of d' 2 = [3; 4; 7]
    /\ children_of d' 5 = [6; 9]
    /\ nodes d' !! 9
       = Some (Node (Element "link" [("rel", "stylesheet"); ("media", "print");
                                     ("href", "/b.css")] []) (Some 5) None)
    /\ has_attr d' "rel" "preload" 4 = true
    /\ length (nodes d') = 10.
Proof.
  pose proof (default_strategy_appends_a_body_link no_options css_files
                (nodes two_links) 0 4 "link"
                [("rel", "stylesheet"); ("href", "/b.css"); ("media", "print")]
                [] None 2 "head" [] [3] [] (Some 1) None) as H.
  cbv zeta in H.
  match type of H with
  | context [body ?d] =>
      assert (Hbody : body d = Some 5) by (vm_compute; reflexivity);
      rewrite Hbody in H
  end.
  destruct H as (ba & bcs & bp & bnm & Hb & Hrun).
  - reflexivity.
  - reflexivity.
  - reflexivity.
  - apply NoDup_two. discriminate.
  - discriminate.
  - simpl. exists "/b.css". split; reflexivity.
  - vm_compute in Hb. inversion Hb. subst ba bcs bp bnm.
    eexists. split; [exact Hrun |]. vm_compute. auto 10.
Defined.

(** X7, witness: the [href] of the second link under [preload: "swap"]. *)
Lemma embed_keeps_tags_and_other_attributes_witness :
  exists a' cs' p' nm',
    nodes (outcome (embedLinkedStylesheet (with_preload (PreloadString "swap")) 4
                      css_files two_links)) !! 4
    = Some (Node (Element "link" a' cs') p' nm')
    /\ attr_get "href" a' = Some "/b.css".
Proof.
  apply (embed_keeps_tags_and_other_attributes (with_preload (PreloadString "swap")) 4
           css_files two_links
           (outcome (embedLinkedStylesheet (with_preload (PreloadString "swap")) 4
                       css_files two_links))
           4 "link" [("rel", "stylesheet"); ("href", "/b.css"); ("media", "print")] []
           (Some 2) None "href").
  - vm_compute. reflexivity.
  - reflexivity.
  - apply not_rewritten; discriminate.
Defined.

(** X8, witness: the body of the page. *)
Lemma processStyle_keeps_tags_and_attributes_witness :
  exists cs' p' nm',
    nodes (outcome (processStyle tag_engine parse_known print_stylesheet no_options 3
                      (one_style red_blue))) !! 5
    = Some (Node (Element "body" [] cs') p' nm').
Proof.
  apply (processStyle_keeps_tags_and_attributes tag_engine parse_known print_stylesheet
           no_options 3 (one_style red_blue)
           (outcome (processStyle tag_engine parse_known print_stylesheet no_options 3
                       (one_style red_blue)))
           5 "body" [] [6] (Some 1) None).
  - vm_compute. reflexivity.
  - reflexivity.
Defined.

(** X9, witness: the second link of the page. *)
Lemma external_false_keeps_attributes_witness :
  exists cs' p' nm',
    nodes (outcome (run_process external_off css_files two_links)) !! 4
    = Some (Node (Element "link"
                    [("rel", "stylesheet"); ("href", "/b.css"); ("media", "print")] cs')
              p' nm').
Proof.
  apply (external_false_keeps_attributes tag_engine parse_known print_stylesheet
           external_off css_files two_links
           (outcome (run_process external_off css_files two_links))
           4 "link" [("rel", "stylesheet"); ("href", "/b.css"); ("media", "print")] []
           (Some 2) None).
  - reflexivity.
  - vm_compute. reflexivity.
  - reflexivity.
Defined.

(** X10, witness: the [href] of the first link under [preload: "swap"]. *)
Lemma process_keeps_tags_and_other_attributes_witness :
  exists a' cs' p' nm',
    nodes (outcome (run_process (with_preload (PreloadString "swap")) css_files
                      two_links)) !! 3
    = Some (Node (Element "link" a' cs') p' nm')
    /\ attr_get "href" a' = Some "/a.css".
Proof.
  apply (process_keeps_tags_and_other_attributes tag_engine parse_known print_stylesheet
           (with_preload (PreloadString "swap")) css_files two_links
           (outcome (run_process (with_preload (PreloadString "swap")) css_files
                       two_links))
           3 "link" [("rel", "stylesheet"); ("href", "/a.css")] [] (Some 2) None "href").
  - vm_compute. reflexivity.
  - reflexivity.
  - apply not_rewritten; discriminate.
Defined.

(** X11, witness. *)
Lemma strip_pseudo_drops_the_pseudo_witness :
  strip_pseudo "a:hover" = "a"
  /\ strip_pseudo "a::before .b" = "a .b".
Proof.
  destruct (strip_pseudo_drops_the_pseudo "a" ":" "hover") as [H _];
    [reflexivity | reflexivity | left; reflexivity |].
  destruct (strip_pseudo_drops_the_pseudo "a" "::" "before") as [_ H'];
    [reflexivity | reflexivity | right; reflexivity |].
  split; [exact H | exact (H' " "%char ".b" eq_refl)].
Defined.

(** X12, witness. *)
Lemma second_pseudo_class_survives_witness :
  strip_pseudo "a:hover:focus" = "a:focus".
Proof.
  apply (second_pseudo_class_survives "a" "hover" "focus"); reflexivity.
Defined.

(** X13, witness. *)
Lemma strip_pseudo_keeps_other_pseudo_witness :
  strip_pseudo "li:nth-child(2)" = "li:nth-child(2)".
Proof.
  apply (strip_pseudo_keeps_other_pseudo "li" ":" "nth-child" "("%char "2)");
    try reflexivity.
  left. reflexivity.
Defined.

(** X14, witness. *)
Lemma url_src_reads_the_url_witness :
  url_src "url( 'a.woff' ) format('woff')" = Some "a.woff".
Proof.
  apply (url_src_reads_the_url "'" "a.woff" "" " " " " " format('woff')");
    try reflexivity.
  right. left. reflexivity.
Defined.

(** X15, witness. *)
Lemma prune_leaves_matching_rules_witness :
  forallb (well_pruned (matches tag_engine (one_style red_blue)))
    [StyleRule ["p"] [Declaration "font" "12px X"]] = true.
Proof.
  apply (prune_leaves_matching_rules tag_engine (one_style red_blue)
           [StyleRule ["p"; ".unused"] [Declaration "font" "12px X"];
            StyleRule [".unused"] [Declaration "color" "blue"];
            ContainerRule "@media print" [StyleRule ["q"] [Declaration "color" "red"]]]
           [StyleRule ["p"] [Declaration "font" "12px X"]] " 12px X").
  vm_compute. reflexivity.
Defined.

(** X16, witness. *)
Lemma prune_is_idempotent_witness :
  prune tag_engine (one_style red_blue) [StyleRule ["p"] [Declaration "font" "12px X"]]
  = Ok ([StyleRule ["p"] [Declaration "font" "12px X"]], " 12px X").
Proof.
  apply (prune_is_idempotent tag_engine (one_style red_blue)
           [StyleRule ["p"; ".unused"] [Declaration "font" "12px X"];
            StyleRule [".unused"] [Declaration "color" "blue"];
            ContainerRule "@media print" [StyleRule ["q"] [Declaration "color" "red"]]]).
  vm_compute. reflexivity.
Defined.

(** X17, witness: the family [X] of the examples. *)
Lemma used_font_face_is_kept_witness :
  includes "X" " X" = true
  /\ font_dropped no_options " X" (Some "X") (Some "x.woff2") = false.
Proof.
  apply (used_font_face_is_kept tag_engine (one_style font_sheet) no_options
           [font_face_X; StyleRule ["p"] [Declaration "font-family" "X"]]
           [font_face_X; StyleRule ["p"] [Declaration "font-family" "X"]]
           " X" ["p"] [Declaration "font-family" "X"] (Declaration "font-family" "X")
           [Declaration "font-family" "X"; Declaration "src" "url(x.woff2)"] "x.woff2").
  - vm_compute. reflexivity.
  - simpl. right. left. reflexivity.
  - left. reflexivity.
  - reflexivity.
  - discriminate.
  - reflexivity.
  - reflexivity.
Defined.

(** X18, witness: no options and no head given. *)
Lemma font_pass_without_preloads_witness :
  font_pass no_options None "" [font_face_X] (one_style font_only)
  = Ok ([], one_style font_only).
Proof.
  apply (font_pass_without_preloads no_options None "" [font_face_X]
           (one_style font_only)).
  left. reflexivity.
Defined.

(** X19, witness. *)
Lemma font_preload_needs_a_head_witness :
  font_pass with_preloadFonts None "" [font_face_X] (one_style font_only)
  = Throw TypeError.
Proof.
  apply (font_preload_needs_a_head with_preloadFonts "" [font_face_X]
           (one_style font_only)).
  vm_compute. discriminate.
Defined.

(** X20, witness: the style of the page keeps the rule for [p]. *)
Lemma critical_css_replaces_the_text_witness :
  exists d',
    processStyle tag_engine parse_known print_stylesheet no_options 3 (one_style red_blue)
    = Ok (tt, d')
    /\ nodes d' !! 3 = Some (Node (Element "style" [] [7]) (Some 2) None)
    /\ nodes d' !! 7 = Some (Node (Text (Str "p{color:red}")) (Some 3) None)
    /\ detached 4 d'.
Proof.
  destruct (critical_css_replaces_the_text tag_engine parse_known print_stylesheet
              no_options 3 (one_style red_blue) red_blue
              [StyleRule ["p"] [Declaration "color" "red"];
               StyleRule [".unused"] [Declaration "color" "blue"]]
              [StyleRule ["p"] [Declaration "color" "red"]] ""
              [StyleRule ["p"] [Declaration "color" "red"]] (one_style red_blue)
              "style" [] [4] (Some 2) None)
    as (d' & Hrun & _ & Hstyle & Htext & Hold & _).
  - vm_compute. reflexivity.
  - discriminate.
  - reflexivity.
  - vm_compute. reflexivity.
  - vm_compute. reflexivity.
  - vm_compute. discriminate.
  - reflexivity.
  - intros H. apply list_elem_of_singleton in H. discriminate H.
  - repeat constructor.
  - exists d'. split; [exact Hrun |]. split; [exact Hstyle |]. split; [exact Htext |].
    apply Hold. left.
Defined.

(** X21, witness: no element matches [q]; the style leaves the head. *)
Lemma blank_critical_css_removes_the_style_witness :
  processStyle tag_engine parse_known print_stylesheet no_options 3 (one_style q_sheet)
  = Ok (tt,
        Document
          [ element "#document" [] [1] None;
            element "html" [] [2; 5] (Some 0);
            element "head" [] [] (Some 1);
            element "style" [] [4] None;
            text_node q_sheet 3;
            element "body" [] [6] (Some 1);
            element "p" [] [] (Some 5) ]
          0).
Proof.
  apply (blank_critical_css_removes_the_style tag_engine parse_known print_stylesheet
           no_options 3 (one_style q_sheet) q_sheet
           [StyleRule ["q"] [Declaration "color" "blue"]] [] "" [] (one_style q_sheet)
           (Element "style" [] [4]) 2 None "head" [] [3] (Some 1) None).
  - vm_compute. reflexivity.
  - discriminate.
  - reflexivity.
  - vm_compute. reflexivity.
  - vm_compute. reflexivity.
  - vm_compute. reflexivity.
  - reflexivity.
  - reflexivity.
  - left.
  - discriminate.
Defined.

(** X22, witness: the page with two links under [external: false]. *)
Lemma page_without_styles_is_returned_witness :
  process tag_engine parse_known print_stylesheet parse_page outline external_off
    two_links_html css_files
  = Ok "html head link link body p".
Proof.
  apply (page_without_styles_is_returned tag_engine parse_known print_stylesheet
           parse_page outline external_off two_links_html css_files).
  - left. reflexivity.
  - vm_compute. reflexivity.
Defined.

End Cases.
